(** * STDX: arena allocator and generic open-addressing hashtable

    A shallow embedding of [stdx_arena.h], [stdx_allocator.h] and
    [stdx_hashtable.h], and the properties of their operations.

    Conventions of the embedding.
    - [size_t] is a 64-bit unsigned integer: a [Z] in [0, 2^64), every
      arithmetic operation of the source that can wrap is written with
      [size_wrap].
    - A C function is a computation in the monad [M S], which threads the
      state of the system allocator and can end in [Fault] (the source has
      undefined behaviour there: a store through a null pointer, an access
      outside an array, a division by zero) or in [OutOfFuel] (the bound
      given to a loop or to a recursion was too small).
    - A linked list of C structures is the Rocq list of its nodes, in chain
      order.
    - An out parameter [T* out] that may be null is an [option T]: [None]
      for a null [out], [Some x] for a variable that holds [x]; the
      function returns what it holds after the call.
    - A C string is read from the bytes of its object, up to the first
      zero byte. *)

From Stdlib Require Import ZArith Lia.
From Stdlib Require Import Strings.Byte.
From stdpp Require Import base decidable option list numbers.

Open Scope Z_scope.

(** ** Machine integers *)

Definition SIZE_MODULUS : Z := 2 ^ 64.

Definition size_wrap (z : Z) : Z := z mod SIZE_MODULUS.

Definition is_size_t (z : Z) : Prop := 0 <= z < SIZE_MODULUS.

(** ** Outcomes and the state-and-error monad *)

Inductive result (A : Type) : Type :=
| Ok (a : A)
| Fault
| OutOfFuel.
Arguments Ok {A} a.
Arguments Fault {A}.
Arguments OutOfFuel {A}.

Definition M (S A : Type) : Type := S -> result (A * S).

Definition ret {S A} (a : A) : M S A := fun s => Ok (a, s).

Definition bind {S A B} (m : M S A) (k : A -> M S B) : M S B :=
  fun s => match m s with
           | Ok (a, s') => k a s'
           | Fault => Fault
           | OutOfFuel => OutOfFuel
           end.

Definition lift {S A} (r : result A) : M S A :=
  fun s => match r with
           | Ok a => Ok (a, s)
           | Fault => Fault
           | OutOfFuel => OutOfFuel
           end.

Notation "x <- m ; k" := (bind m (fun x => k))
  (at level 20, m at level 100, k at level 200, only parsing).
Notation "' p <- m ; k" := (bind m (fun p => k))
  (at level 20, p pattern, m at level 100, k at level 200, only parsing).

(** * The arena allocator ([stdx_arena.h]) *)

Module Arena.

(** An address: the block returned by one [malloc] call, and a byte offset
    into it. *)
Inductive pointer : Type :=
| NULL
| Ptr (block : nat) (offset : Z).

Definition ptr_add (p : pointer) (n : Z) : pointer :=
  match p with
  | NULL => NULL
  | Ptr b o => Ptr b (o + n)
  end.

(** The C library's heap: [plan] lists the outcomes of the coming [malloc]
    calls ([false] is a failed call; once the list is used up calls
    succeed), [trace] the calls made so far, most recent first. *)
Inductive event : Type :=
| EvMalloc (size : Z) (p : pointer)
| EvFree (p : pointer).

Record heap : Type := { plan : list bool; trace : list event }.

Definition malloc (size : Z) : M heap pointer := fun h =>
  let ok := match plan h with [] => true | b :: _ => b end in
  let p := if ok then Ptr (length (trace h)) 0 else NULL in
  Ok (p, {| plan := tail (plan h); trace := EvMalloc size p :: trace h |}).

Definition free (p : pointer) : M heap unit := fun h =>
  Ok (tt, {| plan := plan h; trace := EvFree p :: trace h |}).

(** [struct XArenaChunk_t]; the [next] field is the tail of the list the
    chunk is in. *)
Record XArenaChunk : Type :=
  { capacity : Z; used : Z; data : pointer }.

Record XArena : Type :=
  { chunk_size : Z; chunks : list XArenaChunk }.

Definition set_used (c : XArenaChunk) (u : Z) : XArenaChunk :=
  {| capacity := capacity c; used := u; data := data c |}.

Definition set_chunks (a : XArena) (cs : list XArenaChunk) : XArena :=
  {| chunk_size := chunk_size a; chunks := cs |}.

(** [sizeof(XArenaChunk)] and [sizeof(XArena)] on an LP64 target. *)
Definition sizeof_XArenaChunk : Z := 32.
Definition sizeof_XArena : Z := 16.

Definition x_arena_chunk_create (size : Z) : M heap (option XArenaChunk) :=
  chunk <- malloc sizeof_XArenaChunk ;
  match chunk with
  | NULL => ret None
  | Ptr _ _ =>
      d <- malloc size ;
      match d with
      | NULL => u <- free chunk ; ret None
      | Ptr _ _ => ret (Some {| capacity := size; used := 0; data := d |})
      end
  end.

Definition x_arena_create (chunk_size : Z) : M heap (option XArena) :=
  arena <- malloc sizeof_XArena ;
  match arena with
  | NULL => ret None
  | Ptr _ _ =>
      c <- x_arena_chunk_create chunk_size ;
      match c with
      | None => u <- free arena ; ret None
      | Some c => ret (Some {| chunk_size := chunk_size; chunks := [c] |})
      end
  end.

(** The [for] loop of [x_arena_alloc]: the first chunk of the chain with
    [remaining >= size] serves the request. *)
Fixpoint alloc_scan (cs : list XArenaChunk) (size : Z)
  : option (pointer * list XArenaChunk) :=
  match cs with
  | [] => None
  | chunk :: next =>
      let remaining := size_wrap (capacity chunk - used chunk) in
      if size <=? remaining
      then Some (ptr_add (data chunk) (used chunk),
                 set_used chunk (size_wrap (used chunk + size)) :: next)
      else match alloc_scan next size with
           | Some (p, next') => Some (p, chunk :: next')
           | None => None
           end
  end.

Definition x_arena_alloc (arena : option XArena) (size : Z)
  : M heap (pointer * option XArena) :=
  match arena with
  | None => ret (NULL, arena)
  | Some a =>
      if size =? 0 then ret (NULL, arena)
      else
        match alloc_scan (chunks a) size with
        | Some (p, cs) => ret (p, Some (set_chunks a cs))
        | None =>
            let chunk_size :=
              if chunk_size a <? size then size else chunk_size a in
            new_chunk <- x_arena_chunk_create chunk_size ;
            match new_chunk with
            | None => ret (NULL, arena)
            | Some c =>
                ret (data c, Some (set_chunks a (set_used c size :: chunks a)))
            end
        end
  end.

Definition x_arena_reset (arena : option XArena) : option XArena :=
  match arena with
  | None => None
  | Some a => Some (set_chunks a (map (fun chunk => set_used chunk 0) (chunks a)))
  end.

(** Every chunk of a live arena keeps [used <= capacity], both [size_t]. *)
Definition chunk_ok (c : XArenaChunk) : Prop :=
  0 <= used c <= capacity c /\ capacity c < SIZE_MODULUS.

Definition fits (size : Z) (c : XArenaChunk) : Prop :=
  size <= capacity c - used c.

(** [malloc] succeeds on the next two calls. *)
Definition two_mallocs_succeed (h : heap) : Prop :=
  match plan h with
  | [] => True
  | [b] => b = true
  | b1 :: b2 :: _ => b1 = true /\ b2 = true
  end.

(** [malloc] fails on the next call, or on the one after it. *)
Definition a_malloc_fails (h : heap) : Prop :=
  match plan h with
  | [] => False
  | [b] => b = false
  | b1 :: b2 :: _ => b1 = false \/ b2 = false
  end.

(** An arena of two chunks, the newer one nearly full. *)
Definition example_new_chunk : XArenaChunk :=
  {| capacity := 64; used := 60; data := Ptr 3 0 |}.
Definition example_old_chunk : XArenaChunk :=
  {| capacity := 64; used := 10; data := Ptr 1 0 |}.
Definition example_arena : XArena :=
  {| chunk_size := 64; chunks := [example_new_chunk; example_old_chunk] |}.
Definition example_heap : heap := {| plan := []; trace := [] |}.

(** ** Vocabulary of the further properties *)

(** Blocks obtained from [malloc] and not given back to [free]: a count
    over the calls made so far. *)
Fixpoint live_blocks (tr : list event) : Z :=
  match tr with
  | [] => 0
  | EvMalloc _ (Ptr _ _) :: tr' => live_blocks tr' + 1
  | EvMalloc _ NULL :: tr' => live_blocks tr'
  | EvFree (Ptr _ _) :: tr' => live_blocks tr' - 1
  | EvFree NULL :: tr' => live_blocks tr'
  end.

(** The sum of the [used] counters of a chain. *)
Fixpoint total_used (cs : list XArenaChunk) : Z :=
  match cs with
  | [] => 0
  | c :: cs' => used c + total_used cs'
  end.

(** An arena as [x_arena_create] and [x_arena_alloc] build it, in a heap
    [h]: every chunk has [used <= capacity], and the buffers of the chunks
    are the starts of different blocks that [malloc] has returned. *)
Definition arena_wf (a : XArena) (h : heap) : Prop :=
  Forall chunk_ok (chunks a) /\ is_size_t (chunk_size a) /\
  NoDup (map data (chunks a)) /\
  Forall (fun c => exists b, data c = Ptr b 0 /\ (b < length (trace h))%nat)
         (chunks a).

(** The [size] bytes at [p] lie in the used part of a chunk of [a]. *)
Definition allocated (a : XArena) (p : pointer) (size : Z) : Prop :=
  exists c b off,
    c ∈ chunks a /\ data c = Ptr b 0 /\ p = Ptr b off /\
    0 <= off /\ 0 <= size /\ off + size <= used c.

(** Two byte ranges share no byte. *)
Definition disjoint (p : pointer) (n : Z) (q : pointer) (m : Z) : Prop :=
  match p, q with
  | Ptr b o, Ptr b' o' => b <> b' \/ o + n <= o' \/ o' + m <= o
  | _, _ => True
  end.

(** The arena of [example_arena] in a heap where its blocks exist. *)
Definition example_heap4 : heap :=
  {| plan := [];
     trace := [EvMalloc 64 (Ptr 3 0); EvMalloc 32 (Ptr 2 0);
               EvMalloc 64 (Ptr 1 0); EvMalloc 32 (Ptr 0 0)] |}.

End Arena.

(** * The generic hashtable ([stdx_hashtable.h]) and the allocator
      capability ([stdx_allocator.h]) *)

Module Hashtable.

(** A [void*] given to the table, or owned by it, is modelled by what it
    points to: [None] is the null pointer, [Some b] a pointer to an object
    whose bytes are [b].  Every block the table owns is reached through
    exactly one slot, so no two of these pointers alias. *)
Definition block : Type := list byte.
Definition pointer : Type := option block.

Definition HashFn : Type := pointer -> Z.
Definition EqualsFn : Type := pointer -> pointer -> bool.

(** An [XAllocator*]: [None] is the null pointer, which selects
    [stdx_default_allocator]; [Some n] names an allocator object. *)
Definition XAllocator_ref : Type := option nat.

Record XHashEntry : Type :=
  { key : pointer; value : pointer; occupied : bool }.

(** [(XHashEntry){0}], also what [memset(.., 0, ..)] leaves in a slot. *)
Definition null_entry : XHashEntry :=
  {| key := None; value := None; occupied := false |}.

Definition set_value (e : XHashEntry) (v : pointer) : XHashEntry :=
  {| key := key e; value := v; occupied := occupied e |}.

Record XHashtable : Type :=
  { key_size : Z;
    value_size : Z;
    count : Z;
    capacity : Z;
    entries : list XHashEntry;
    hash_fn : HashFn;
    eq_fn : EqualsFn;
    allocator : XAllocator_ref }.

Definition set_count (t : XHashtable) (c : Z) : XHashtable :=
  {| key_size := key_size t; value_size := value_size t; count := c;
     capacity := capacity t; entries := entries t; hash_fn := hash_fn t;
     eq_fn := eq_fn t; allocator := allocator t |}.

Definition set_capacity (t : XHashtable) (c : Z) : XHashtable :=
  {| key_size := key_size t; value_size := value_size t; count := count t;
     capacity := c; entries := entries t; hash_fn := hash_fn t;
     eq_fn := eq_fn t; allocator := allocator t |}.

Definition set_entries (t : XHashtable) (es : list XHashEntry) : XHashtable :=
  {| key_size := key_size t; value_size := value_size t; count := count t;
     capacity := capacity t; entries := es; hash_fn := hash_fn t;
     eq_fn := eq_fn t; allocator := allocator t |}.

(** [sizeof(XHashEntry)] and [sizeof(XHashtable)] on an LP64 target. *)
Definition sizeof_XHashEntry : Z := 24.
Definition sizeof_XHashtable : Z := 64.

Definition INITIAL_CAPACITY : Z := 16.

(** ** The allocator capability *)

Inductive object : Type :=
| ObjBlock (p : pointer)
| ObjEntries (es : list XHashEntry)
| ObjTable.

(** Calls made through [stdx_alloc] and [stdx_free], most recent first. *)
Inductive event : Type :=
| EvAlloc (a : XAllocator_ref) (size : Z) (ok : bool)
| EvFree (a : XAllocator_ref) (o : object).

(** [plan] lists the outcomes of the coming allocations ([false] is a
    null result; once the list is used up allocations succeed). *)
Record heap : Type := { plan : list bool; trace : list event }.

(** [stdx_alloc(a, size)]: the block is new, its bytes are not read before
    they are written. *)
Definition stdx_alloc (a : XAllocator_ref) (size : Z) : M heap pointer := fun h =>
  let ok := match plan h with [] => true | b :: _ => b end in
  let p := if ok then Some (replicate (Z.to_nat size) x00) else None in
  Ok (p, {| plan := tail (plan h); trace := EvAlloc a size ok :: trace h |}).

Definition stdx_free (a : XAllocator_ref) (o : object) : M heap unit := fun h =>
  Ok (tt, {| plan := plan h; trace := EvFree a o :: trace h |}).

(** ** Pure results *)

Definition rbind {A B} (r : result A) (k : A -> result B) : result B :=
  match r with
  | Ok a => k a
  | Fault => Fault
  | OutOfFuel => OutOfFuel
  end.

Notation "x <~ r ; k" := (rbind r (fun x => k))
  (at level 20, r at level 100, k at level 200, only parsing).
Notation "' p <~ r ; k" := (rbind r (fun p => k))
  (at level 20, p pattern, r at level 100, k at level 200, only parsing).

(** [memcpy(dst, src, n)]: the object [dst] points to after the call.
    Copying [n > 0] bytes from or to a null pointer, or beyond the end of
    either object, is undefined. *)
Definition memcpy (dst src : pointer) (n : Z) : result pointer :=
  if n =? 0 then Ok dst
  else match dst, src with
       | Some d, Some s =>
           if (Z.of_nat (length s) <? n) || (Z.of_nat (length d) <? n)
           then Fault
           else Ok (Some (take (Z.to_nat n) s ++ drop (Z.to_nat n) d))
       | _, _ => Fault
       end.

(** [memset(p, 0, size)] on the result [p] of allocating [size] bytes for
    a slot array: the array of the [size / sizeof(XHashEntry)] entries
    that fit, all zero. *)
Definition memset_entries (p : pointer) (size : Z) : result (list XHashEntry) :=
  match p with
  | Some _ => Ok (replicate (Z.to_nat (size / sizeof_XHashEntry)) null_entry)
  | None => if size =? 0 then Ok [] else Fault
  end.

Definition alloc_entries (a : XAllocator_ref) (capacity : Z)
  : M heap (list XHashEntry) :=
  let size := size_wrap (capacity * sizeof_XHashEntry) in
  p <- stdx_alloc a size ;
  lift (memset_entries p size).

(** [a % b] on [size_t]. *)
Definition size_mod (a b : Z) : result Z :=
  if b =? 0 then Fault else Ok (a mod b).

(** [table->entries[idx]], read and written. *)
Definition entry_at (t : XHashtable) (idx : Z) : result XHashEntry :=
  match entries t !! Z.to_nat idx with
  | Some e => Ok e
  | None => Fault
  end.

Definition store_entry (t : XHashtable) (idx : Z) (e : XHashEntry)
  : result XHashtable :=
  match entries t !! Z.to_nat idx with
  | Some _ => Ok (set_entries t (<[Z.to_nat idx := e]> (entries t)))
  | None => Fault
  end.

(** ** Operations *)

Definition x_hashtable_create_ex (key_size value_size : Z)
    (hash_fn : HashFn) (eq_fn : EqualsFn) (allocator : XAllocator_ref)
  : M heap (option XHashtable) :=
  t <- stdx_alloc allocator sizeof_XHashtable ;
  match t with
  | None => ret None
  | Some _ =>
      es <- alloc_entries allocator INITIAL_CAPACITY ;
      ret (Some {| key_size := key_size; value_size := value_size;
                   count := 0; capacity := INITIAL_CAPACITY; entries := es;
                   hash_fn := hash_fn; eq_fn := eq_fn;
                   allocator := allocator |})
  end.

Definition x_hashtable_create (ks vs : Z) (hf : HashFn) (eqf : EqualsFn)
  : M heap (option XHashtable) :=
  x_hashtable_create_ex ks vs hf eqf None.

(** The [while] loop of [probe_index]; each test of the loop condition
    takes one unit of [fuel]. *)
Fixpoint probe_loop (fuel : nat) (table : XHashtable) (k : pointer)
    (start idx : Z) : result (Z * bool) :=
  match fuel with
  | O => OutOfFuel
  | S fuel' =>
      e <~ entry_at table idx ;
      if occupied e then
        if eq_fn table k (key e) then Ok (idx, true)
        else
          idx' <~ size_mod (size_wrap (idx + 1)) (capacity table) ;
          if idx' =? start then Ok (idx', false)
          else probe_loop fuel' table k start idx'
      else Ok (idx, false)
  end.

(** [probe_index(table, key, &found)]: the index and [*found]. *)
Definition probe_index (table : XHashtable) (k : pointer) : result (Z * bool) :=
  idx <~ size_mod (hash_fn table k) (capacity table) ;
  probe_loop (Z.to_nat (capacity table)) table k idx idx.

(** [(double)count / capacity >= LOAD_FACTOR] with [LOAD_FACTOR] 0.75.
    The quotient of two integers below [2^52] rounds to a double that is
    at least 0.75 exactly when the quotient is; a division by zero gives
    an infinity for a positive count and a NaN, which compares false,
    for a zero one. *)
Definition load_factor_reached (count capacity : Z) : bool :=
  if capacity =? 0 then 0 <? count else 3 * capacity <=? 4 * count.

(** The [for] loop of [x_hashtable_rehash], [n] iterations from index [i];
    [set] is the call to [x_hashtable_set] on the table, which is not
    null there. *)
Fixpoint rehash_loop (set : XHashtable -> pointer -> pointer -> M heap (bool * XHashtable))
    (a : XAllocator_ref) (old_entries : list XHashEntry) (n i : nat)
    (table : XHashtable) : M heap XHashtable :=
  match n with
  | O => ret table
  | S n' =>
      match old_entries !! i with
      | None => fun _ => Fault
      | Some e =>
          if negb (occupied e) then rehash_loop set a old_entries n' (S i) table
          else
            r <- set table (key e) (value e) ;
            u <- stdx_free a (ObjBlock (key e)) ;
            v <- stdx_free a (ObjBlock (value e)) ;
            rehash_loop set a old_entries n' (S i) (snd r)
      end
  end.

Definition x_hashtable_rehash
    (set : XHashtable -> pointer -> pointer -> M heap (bool * XHashtable))
    (table : XHashtable) : M heap XHashtable :=
  let old_cap := capacity table in
  let old_entries := entries table in
  let a := allocator table in
  let table := set_capacity table (size_wrap (capacity table * 2)) in
  es <- alloc_entries a (capacity table) ;
  let table := set_count (set_entries table es) 0 in
  table <- rehash_loop set a old_entries (Z.to_nat old_cap) 0 table ;
  u <- stdx_free a (ObjEntries old_entries) ;
  ret table.

(** [x_hashtable_set] after its load-factor test: the probe and the
    stores. *)
Definition set_store (table : XHashtable) (k v : pointer)
  : M heap (bool * XHashtable) :=
  r <- lift (probe_index table k) ;
  let idx := fst r in
  let found := snd r in
  let a := allocator table in
  table <- (if negb found then
              kp <- stdx_alloc a (key_size table) ;
              kp <- lift (memcpy kp k (key_size table)) ;
              vp <- stdx_alloc a (value_size table) ;
              table <- lift (store_entry table idx
                               {| key := kp; value := vp; occupied := true |}) ;
              ret (set_count table (size_wrap (count table + 1)))
            else ret table) ;
  e <- lift (entry_at table idx) ;
  vp <- lift (memcpy (value e) v (value_size table)) ;
  table <- lift (store_entry table idx (set_value e vp)) ;
  ret (true, table).

(** [x_hashtable_set] on a table that is not null.  [fuel] bounds the
    depth of the recursion through [x_hashtable_rehash]. *)
Fixpoint set_body (fuel : nat) (table : XHashtable) (k v : pointer)
  : M heap (bool * XHashtable) :=
  match fuel with
  | O => fun _ => OutOfFuel
  | S fuel' =>
      table <- (if load_factor_reached (count table) (capacity table)
                then x_hashtable_rehash (set_body fuel') table
                else ret table) ;
      set_store table k v
  end.

Definition x_hashtable_set (fuel : nat) (table : option XHashtable)
    (k v : pointer) : M heap (bool * option XHashtable) :=
  match table with
  | None => ret (false, None)
  | Some t => r <- set_body fuel t k v ; ret (fst r, Some (snd r))
  end.

(** [x_hashtable_get]: the result and the object [out_value] points to
    after the call. *)
Definition x_hashtable_get (table : option XHashtable) (k out_value : pointer)
  : result (bool * pointer) :=
  match table with
  | None => Ok (false, out_value)
  | Some t =>
      r <~ probe_index t k ;
      if negb (snd r) then Ok (false, out_value)
      else
        e <~ entry_at t (fst r) ;
        out <~ memcpy out_value (value e) (value_size t) ;
        Ok (true, out)
  end.

Definition x_hashtable_has (table : option XHashtable) (k : pointer)
  : result bool :=
  match table with
  | None => Fault
  | Some t => r <~ probe_index t k ; Ok (snd r)
  end.

Definition x_hashtable_remove (table : option XHashtable) (k : pointer)
  : M heap (bool * option XHashtable) :=
  match table with
  | None => fun _ => Fault
  | Some t =>
      r <- lift (probe_index t k) ;
      if negb (snd r) then ret (false, Some t)
      else
        let a := allocator t in
        e <- lift (entry_at t (fst r)) ;
        u <- stdx_free a (ObjBlock (key e)) ;
        v <- stdx_free a (ObjBlock (value e)) ;
        t <- lift (store_entry t (fst r) null_entry) ;
        ret (true, Some (set_count t (size_wrap (count t - 1))))
  end.

Definition x_hashtable_count (table : option XHashtable) : Z :=
  match table with
  | Some t => count t
  | None => 0
  end.



(** ** Sequences of operations *)

Inductive op : Type :=
| OpSet (k v : pointer)
| OpGet (k out_value : pointer)
| OpHas (k : pointer)
| OpRemove (k : pointer).

Definition step (fuel : nat) (table : option XHashtable) (o : op)
  : M heap (option XHashtable) :=
  match o with
  | OpSet k v => r <- x_hashtable_set fuel table k v ; ret (snd r)
  | OpGet k out => r <- lift (x_hashtable_get table k out) ; ret table
  | OpHas k => r <- lift (x_hashtable_has table k) ; ret table
  | OpRemove k => r <- x_hashtable_remove table k ; ret (snd r)
  end.

Fixpoint run (fuel : nat) (table : option XHashtable) (ops : list op)
  : M heap (option XHashtable) :=
  match ops with
  | [] => ret table
  | o :: ops' => table' <- step fuel table o ; run fuel table' ops'
  end.

Definition sets (kvs : list (pointer * pointer)) : list op :=
  map (fun kv => OpSet (fst kv) (snd kv)) kvs.

(** ** Vocabulary of the properties *)

(** Every coming allocation succeeds. *)
Definition allocations_succeed (h : heap) : Prop :=
  Forall (fun b => b = true) (plan h).

(** A pointer to an object of exactly [n] bytes. *)
Definition valid_block (n : Z) (p : pointer) : Prop :=
  exists b, p = Some b /\ Z.of_nat (length b) = n.

Definition op_ok (ks vs : Z) (o : op) : Prop :=
  match o with
  | OpSet k v => valid_block ks k /\ valid_block vs v
  | OpGet _ out => valid_block vs out
  | OpHas _ => True
  | OpRemove _ => True
  end.

Definition entry_ok (t : XHashtable) (e : XHashEntry) : Prop :=
  occupied e = true ->
  valid_block (key_size t) (key e) /\ valid_block (value_size t) (value e).

Fixpoint occupied_slots (es : list XHashEntry) : Z :=
  match es with
  | [] => 0
  | e :: es' => (if occupied e then 1 else 0) + occupied_slots es'
  end.

(** Sizes up to which the load-factor test and the byte size of the slot
    array are exact. *)
Definition MAX_CAPACITY : Z := 2 ^ 51.

(** The representation invariant every operation keeps. *)
Definition table_ok (t : XHashtable) : Prop :=
  INITIAL_CAPACITY <= capacity t <= MAX_CAPACITY /\
  length (entries t) = Z.to_nat (capacity t) /\
  count t = occupied_slots (entries t) /\
  4 * count t < 3 * capacity t + 4 /\
  Forall (entry_ok t) (entries t).

(** [hash_fn(key) % capacity], the slot a probe for [k] starts at. *)
Definition home (t : XHashtable) (k : pointer) : Z :=
  hash_fn t k mod capacity t.

(** The slot [d] steps after [start], wrapping at the capacity. *)
Definition pos (t : XHashtable) (start d : Z) : Z :=
  (start + d) mod capacity t.

(** A probe for [k] walks past the slot: it is occupied by another key. *)
Definition blocked (t : XHashtable) (k : pointer) (i : Z) : Prop :=
  exists e, entries t !! Z.to_nat i = Some e /\
            occupied e = true /\ eq_fn t k (key e) = false.

(** Some occupied slot holds a key equal to [k]. *)
Definition present (t : XHashtable) (k : pointer) : Prop :=
  exists i e, entries t !! i = Some e /\
              occupied e = true /\ eq_fn t k (key e) = true.

Definition absent (t : XHashtable) (k : pointer) : Prop :=
  forall i e, entries t !! i = Some e -> occupied e = true ->
              eq_fn t k (key e) = false.

(** Some occupied slot holds a key equal to [k], with value [v]. *)
Definition holds (t : XHashtable) (k v : pointer) : Prop :=
  exists i e, entries t !! i = Some e /\ occupied e = true /\
              eq_fn t k (key e) = true /\ value e = v.

(** No two occupied slots hold equal keys. *)
Definition distinct (t : XHashtable) : Prop :=
  forall i j ei ej,
    entries t !! i = Some ei -> entries t !! j = Some ej ->
    occupied ei = true -> occupied ej = true ->
    eq_fn t (key ei) (key ej) = true -> i = j.

(** Every slot between the home of a stored key and the slot that holds
    it is occupied. *)
Definition no_gap (t : XHashtable) : Prop :=
  forall j e,
    0 <= j < capacity t ->
    entries t !! Z.to_nat j = Some e -> occupied e = true ->
    forall d, 0 <= d < (j - home t (key e)) mod capacity t ->
      exists e', entries t !! Z.to_nat (pos t (home t (key e)) d) = Some e' /\
                 occupied e' = true.

(** The equality is an equivalence and equal keys have equal hashes. *)
Definition consistent (hf : HashFn) (ef : EqualsFn) : Prop :=
  (forall a, ef a a = true) /\
  (forall a b, ef a b = true -> ef b a = true) /\
  (forall a b c, ef a b = true -> ef b c = true -> ef a c = true) /\
  (forall a b, ef a b = true -> hf a = hf b).

(** The value of the most recent [set] of a key equal to [k]; the list
    has the most recent call first. *)
Fixpoint last_set (ef : EqualsFn) (recent : list (pointer * pointer))
    (k : pointer) : option pointer :=
  match recent with
  | [] => None
  | (k', v) :: older => if ef k k' then Some v else last_set ef older k
  end.

Definition pairwise_distinct (ef : EqualsFn) (ks : list pointer) : Prop :=
  forall i j ki kj, ks !! i = Some ki -> ks !! j = Some kj -> i <> j ->
                    ef ki kj = false.

(** ** Vocabulary of the proofs *)

(** Where a probe for [k] from [start] stops: at the first slot on the
    way that is free or holds a key equal to [k], or back at [start] when
    every slot is occupied by another key. *)
Definition probe_stops (t : XHashtable) (k : pointer) (start idx : Z)
    (found : bool) : Prop :=
  (exists d e,
      0 <= d < capacity t /\ idx = pos t start d /\
      (forall d', 0 <= d' < d -> blocked t k (pos t start d')) /\
      entries t !! Z.to_nat idx = Some e /\
      ((occupied e = true /\ eq_fn t k (key e) = true /\ found = true) \/
       (occupied e = false /\ found = false))) \/
  (idx = start /\ found = false /\
   forall d', 0 <= d' < capacity t -> blocked t k (pos t start d')).

(** The heap after a successful allocation. *)
Definition after_alloc (a : XAllocator_ref) (n : Z) (h : heap) : heap :=
  {| plan := tail (plan h); trace := EvAlloc a n true :: trace h |}.

Definition new_entry (k v : pointer) : XHashEntry :=
  {| key := k; value := v; occupied := true |}.

(** The table after [set] took the free slot [i] for a new key. *)
Definition insert_at (t : XHashtable) (i : Z) (k v : pointer) : XHashtable :=
  set_count (set_entries t (<[Z.to_nat i := new_entry k v]> (entries t)))
            (count t + 1).

(** The table after [set] replaced the value of the entry [e] in slot [i]. *)
Definition update_at (t : XHashtable) (i : Z) (e : XHashEntry) (v : pointer)
  : XHashtable :=
  set_entries t (<[Z.to_nat i := set_value e v]> (entries t)).

(** The table after [remove] cleared slot [i]. *)
Definition clear_at (t : XHashtable) (i : Z) : XHashtable :=
  set_count (set_entries t (<[Z.to_nat i := null_entry]> (entries t)))
            (count t - 1).

(** The part of the invariant that also holds inside a rehash. *)
Definition shape_ok (t : XHashtable) : Prop :=
  0 < capacity t <= 2 * MAX_CAPACITY /\
  length (entries t) = Z.to_nat (capacity t) /\
  count t = occupied_slots (entries t) /\
  Forall (entry_ok t) (entries t).

(** The fields no operation changes. *)
Definition same_params (t t' : XHashtable) : Prop :=
  key_size t' = key_size t /\ value_size t' = value_size t /\
  hash_fn t' = hash_fn t /\ eq_fn t' = eq_fn t /\ allocator t' = allocator t.

(** What a [set] that did not rehash did to the table: the probe walked
    [d] slots from the home of [k], all held by other keys, and stopped at
    slot [i], where it replaced the value of an equal key or took the free
    slot. *)
Definition set_lands (t : XHashtable) (k v : pointer) (t' : XHashtable) : Prop :=
  exists d i e,
    0 <= d < capacity t /\ i = pos t (home t k) d /\
    (forall d', 0 <= d' < d -> blocked t k (pos t (home t k) d')) /\
    entries t !! Z.to_nat i = Some e /\
    ((occupied e = true /\ eq_fn t k (key e) = true /\ t' = update_at t i e v) \/
     (occupied e = false /\ t' = insert_at t i k v)).

(** The empty table of doubled capacity a rehash starts from. *)
Definition doubled (t : XHashtable) : XHashtable :=
  set_count
    (set_entries (set_capacity t (2 * capacity t))
       (replicate (Z.to_nat (2 * capacity t)) null_entry))
    0.

(** The table [T] a rehash of [t] is building, after the slots of [t]
    before index [i] were moved. *)
Definition rehash_inv (t : XHashtable) (i : nat) (T : XHashtable) : Prop :=
  shape_ok T /\ capacity T = 2 * capacity t /\ same_params t T /\
  count T <= occupied_slots (take i (entries t)) /\
  (forall j e', entries T !! j = Some e' -> occupied e' = true ->
     exists j0 e0, (j0 < i)%nat /\ entries t !! j0 = Some e0 /\
                   occupied e0 = true /\ key e0 = key e') /\
  (distinct t -> count T = occupied_slots (take i (entries t))).

(** The table the probe of a [set] runs on: the table itself below the
    load factor, the rehashed table otherwise. *)
Definition set_probes (Inv : nat -> XHashtable -> Prop) (t tm : XHashtable) : Prop :=
  (4 * count t < 3 * capacity t /\ tm = t) \/
  (3 * capacity t <= 4 * count t /\ Inv (length (entries t)) tm).

(** The table [x_hashtable_create_ex] returns. *)
Definition empty_table (ks vs : Z) (hf : HashFn) (ef : EqualsFn)
    (a : XAllocator_ref) : XHashtable :=
  {| key_size := ks; value_size := vs; count := 0;
     capacity := INITIAL_CAPACITY;
     entries := replicate (Z.to_nat INITIAL_CAPACITY) null_entry;
     hash_fn := hf; eq_fn := ef; allocator := a |}.

(** Lengths of runs for which no capacity passes [MAX_CAPACITY]. *)
Definition MAX_OPS : Z := 2 ^ 48.

(** The invariant of a table after [m] operations. *)
Definition sized (m : Z) (t : XHashtable) : Prop :=
  table_ok t /\ count t <= m /\ 3 * capacity t <= Z.max 48 (8 * m).

Definition create_then_run (ks vs : Z) (hf : HashFn) (ef : EqualsFn)
    (a : XAllocator_ref) (fuel : nat) (ops : list op)
  : M heap (option XHashtable) :=
  t <- x_hashtable_create_ex ks vs hf ef a ; run fuel t ops.

(** After a [set] of [k], slot [i] holds a key equal to [k] with the
    value [v], and it is the only slot with a key equal to [k]. *)
Definition set_view (t : XHashtable) (k v : pointer) (t' : XHashtable) : Prop :=
  exists i x e,
    entries t !! i = Some e /\
    entries t' = <[i := x]> (entries t) /\
    occupied x = true /\ value x = v /\ eq_fn t k (key x) = true /\
    (forall j ej, j <> i -> entries t !! j = Some ej -> occupied ej = true ->
                  eq_fn t k (key ej) = false) /\
    ((occupied e = true /\ key x = key e /\ count t' = count t) \/
     (occupied e = false /\ key x = k /\ count t' = count t + 1 /\ absent t k)).

(** What the moved slots of [t] hold for a key equal to [k]. *)
Definition moved (t : XHashtable) (i : nat) (k v : pointer) : Prop :=
  exists j0 e0, (j0 < i)%nat /\ entries t !! j0 = Some e0 /\
                occupied e0 = true /\ eq_fn t k (key e0) = true /\
                value e0 = v.

(** [rehash_inv] for consistent hash and equality functions: the table
    being built has no gap and no key twice, and holds what was moved. *)
Definition rehash_strong (t : XHashtable) (i : nat) (T : XHashtable) : Prop :=
  rehash_inv t i T /\ no_gap T /\ distinct T /\
  (distinct t -> forall k v, holds T k v <-> moved t i k v).

(** A table built by [set] alone. *)
Definition table_strong (t : XHashtable) : Prop :=
  table_ok t /\ consistent (hash_fn t) (eq_fn t) /\ no_gap t /\ distinct t.

Definition kv_ok (ks vs : Z) (kv : pointer * pointer) : Prop :=
  valid_block ks (fst kv) /\ valid_block vs (snd kv).

(** The number of keys in a run of [set] calls, equal keys counted once;
    the list has the most recent call first. *)
Fixpoint count_keys (ef : EqualsFn) (recent : list (pointer * pointer)) : Z :=
  match recent with
  | [] => 0
  | (k, _) :: older =>
      count_keys ef older
      + (match last_set ef older k with Some _ => 0 | None => 1 end)
  end.

(** [absent], computed. *)
Definition absentb (t : XHashtable) (k : pointer) : bool :=
  forallb (fun e => negb (occupied e && eq_fn t k (key e))) (entries t).

(** ** Example instances *)

#[global] Instance byte_eq_dec : EqDecision byte := Byte.byte_eq_dec.

(** Keys of one byte: the hash is the byte, the equality compares the
    objects. *)
Definition byte_hash : HashFn := fun p =>
  match p with
  | Some (b :: _) => Z.of_N (Byte.to_N b)
  | _ => 0
  end.

Definition ptr_eqb : EqualsFn := fun a b => bool_decide (a = b).

Definition fresh_heap : heap := {| plan := []; trace := [] |}.

(** One-byte keys and values. *)
Definition key_of (b : byte) : pointer := Some [b].
Definition k1 : pointer := key_of x01.
Definition k2 : pointer := key_of x11.
Definition k3 : pointer := key_of x21.
Definition va : pointer := Some [x0a].
Definition vb : pointer := Some [x0b].
Definition vc : pointer := Some [x0c].
Definition out0 : pointer := Some [x00].

Definition byte_table : XHashtable := empty_table 1 1 byte_hash ptr_eqb None.

(** A heap whose next allocation fails. *)
Definition failing_heap : heap := {| plan := [false]; trace := [] |}.

(** Three keys with the same home, set in this order. *)
Definition colliding_sets : list (pointer * pointer) :=
  [(k1, va); (k2, vb); (k3, vc)].

(** Eleven keys, three of them colliding; the middle one of these is
    removed and the last one set again, which stores it a second time;
    one more key then brings the table to the load factor. *)
Definition twice_stored_ops : list op :=
  sets (colliding_sets ++
        map (fun b => (key_of b, va))
            [x04; x05; x06; x07; x08; x09; x0a; x0b])
  ++ [OpRemove k2; OpSet k3 vb; OpSet (key_of x0c) va].

(** Fourteen keys, enough to cross a rehash, then one of them again. *)
Definition crossing_sets : list (pointer * pointer) :=
  map (fun b => (key_of b, va))
      [x01; x11; x21; x04; x05; x06; x07; x08; x09; x0a; x0b; x0c; x0d; x0e]
  ++ [(k2, vc)].

(** A table whose two slots are both taken, neither by the key [x03]. *)
Definition full_table : XHashtable :=
  {| key_size := 1; value_size := 1; count := 2; capacity := 2;
     entries := [ {| key := Some [x01]; value := Some [x0a]; occupied := true |};
                  {| key := Some [x02]; value := Some [x0b]; occupied := true |} ];
     hash_fn := byte_hash; eq_fn := ptr_eqb; allocator := None |}.

(** ** The iterator *)

Record XHashIter : Type := { table : option XHashtable; index : Z }.

(** [x_hashtable_iter_init(iter, table)]; the state is the object [iter]
    points to. *)
Definition x_hashtable_iter_init (t : option XHashtable) : M XHashIter unit :=
  fun _ => Ok (tt, {| table := t; index := 0 |}).

(** [if (out) *out = p] for an out parameter [void** out]: [None] is a
    null [out], [Some q] a variable that holds [q]. *)
Definition write_out (out : option pointer) (p : pointer) : option pointer :=
  match out with
  | Some _ => Some p
  | None => None
  end.

(** [x_hashtable_iter_next(iter, out_key, out_value)]: the result and what
    the out parameters point to after the call.  Each test of the loop
    condition takes one unit of [fuel]. *)
Fixpoint x_hashtable_iter_next (fuel : nat) (out_key out_value : option pointer)
  : M XHashIter (bool * (option pointer * option pointer)) := fun iter =>
  match fuel with
  | O => OutOfFuel
  | S fuel' =>
      match table iter with
      | None => Fault
      | Some t =>
          if index iter <? capacity t then
            match entry_at t (index iter) with
            | Ok e =>
                let iter' := {| table := table iter;
                                index := size_wrap (index iter + 1) |} in
                if occupied e
                then Ok ((true, (write_out out_key (key e),
                                 write_out out_value (value e))), iter')
                else x_hashtable_iter_next fuel' out_key out_value iter'
            | Fault => Fault
            | OutOfFuel => OutOfFuel
            end
          else Ok ((false, (out_key, out_value)), iter)
      end
  end.

(** The caller's loop [while (x_hashtable_iter_next(&iter, &k, &v))]: the
    keys and values handed out, in order.  Each call takes one unit of
    [calls]; [k] and [v] start as variables that hold [k0] and [v0]. *)
Fixpoint iterate (calls fuel : nat) (k0 v0 : pointer)
  : M XHashIter (list (pointer * pointer)) := fun iter =>
  match calls with
  | O => OutOfFuel
  | S calls' =>
      match x_hashtable_iter_next fuel (Some k0) (Some v0) iter with
      | Ok ((true, (Some k, Some v)), iter') =>
          match iterate calls' fuel k v iter' with
          | Ok (rest, iter'') => Ok ((k, v) :: rest, iter'')
          | Fault => Fault
          | OutOfFuel => OutOfFuel
          end
      | Ok ((true, _), _) => Fault
      | Ok ((false, _), iter') => Ok ([], iter')
      | Fault => Fault
      | OutOfFuel => OutOfFuel
      end
  end.

(** The keys and values of the occupied slots, in slot order. *)
Fixpoint stored (es : list XHashEntry) : list (pointer * pointer) :=
  match es with
  | [] => []
  | e :: es' =>
      if occupied e then (key e, value e) :: stored es' else stored es'
  end.

(** The first occupied slot of [es] and its offset. *)
Fixpoint first_occupied (es : list XHashEntry) : option (nat * XHashEntry) :=
  match es with
  | [] => None
  | e :: es' =>
      if occupied e then Some (0%nat, e)
      else match first_occupied es' with
           | Some (j, x) => Some (S j, x)
           | None => None
           end
  end.

(** A table of the one-byte keys with two stored keys. *)
Definition two_key_table : XHashtable :=
  insert_at (insert_at byte_table 1 k1 va) 5 (key_of x05) vb.

(** ** Helpers for string keys *)

(** The loop of [stdx_hash_str] on the bytes from [str] on: it stops at
    the first zero byte; reading past the end of the object is
    undefined. *)
Fixpoint hash_str_loop (str : list byte) (hash : Z) : result Z :=
  match str with
  | [] => Fault
  | c :: str' =>
      if bool_decide (c = x00) then Ok hash
      else hash_str_loop str'
             (size_wrap (size_wrap (size_wrap (Z.shiftl hash 5) + hash)
                         + Z.of_N (Byte.to_N c)))
  end.

Definition stdx_hash_str (ptr : pointer) : result Z :=
  match ptr with
  | None => Fault
  | Some str => hash_str_loop str 5381
  end.

(** [strcmp(a, b)], of which only the sign is specified: bytes compare
    as [unsigned char]. *)
Fixpoint strcmp (a b : list byte) : result comparison :=
  match a, b with
  | ca :: a', cb :: b' =>
      match (Byte.to_N ca ?= Byte.to_N cb)%N with
      | Eq => if bool_decide (ca = x00) then Ok Eq else strcmp a' b'
      | c => Ok c
      end
  | _, _ => Fault
  end.

Definition stdx_str_eq (a b : pointer) : result bool :=
  match a, b with
  | Some sa, Some sb =>
      c <~ strcmp sa sb ;
      Ok (match c with Eq => true | _ => false end)
  | _, _ => Fault
  end.

(** The string an object holds: its bytes before the first zero byte,
    when it has one. *)
Fixpoint c_string (b : list byte) : option (list byte) :=
  match b with
  | [] => None
  | c :: b' =>
      if bool_decide (c = x00) then Some []
      else match c_string b' with
           | Some s => Some (c :: s)
           | None => None
           end
  end.

(** The hash of Bernstein, [hash * 33 + c] for each byte, without
    wrap-around. *)
Fixpoint djb2 (s : list byte) (hash : Z) : Z :=
  match s with
  | [] => hash
  | c :: s' => djb2 s' (hash * 33 + Z.of_N (Byte.to_N c))
  end.

(** The objects of the strings "ab" and "ab" followed by other bytes. *)
Definition str_ab : block := [x61; x62; x00].
Definition str_ab_more : block := [x61; x62; x00; x63; x00].

(** ** Vocabulary of the further properties *)

(** The heap after a release. *)
Definition after_free (a : XAllocator_ref) (o : object) (h : heap) : heap :=
  {| plan := plan h; trace := EvFree a o :: trace h |}.

(** The heap after a failed allocation. *)
Definition after_failed_alloc (a : XAllocator_ref) (n : Z) (h : heap) : heap :=
  {| plan := tail (plan h); trace := EvAlloc a n false :: trace h |}.

(** The number of blocks obtained through [stdx_alloc] and not yet passed
    to [stdx_free]; releasing a null pointer releases nothing. *)
Fixpoint outstanding (tr : list event) : Z :=
  match tr with
  | [] => 0
  | EvAlloc _ _ ok :: tr' => outstanding tr' + (if ok then 1 else 0)
  | EvFree _ (ObjBlock None) :: tr' => outstanding tr'
  | EvFree _ _ :: tr' => outstanding tr' - 1
  end.

(** The blocks of the heap that a table does not account for: each stored
    key and each stored value is one block. *)
Definition unaccounted (t : XHashtable) (h : heap) : Z :=
  outstanding (trace h) - 2 * count t.

(** The invariant of the loop of [x_hashtable_rehash] with the heap:
    the slots of [t] before index [i] were moved to [T] and released. *)
Definition rehash_heap_inv (t : XHashtable) (base : Z) (i : nat)
    (T : XHashtable) (h : heap) : Prop :=
  rehash_inv t i T /\ allocations_succeed h /\
  unaccounted T h = base - 2 * occupied_slots (take i (entries t)).

End Hashtable.

(** * Properties *)

Lemma size_wrap_small z : is_size_t z -> size_wrap z = z.
Proof. unfold is_size_t, size_wrap. intros. apply Z.mod_small. lia. Qed.

Lemma size_wrap_range z : is_size_t (size_wrap z).
Proof.
  unfold is_size_t, size_wrap, SIZE_MODULUS. apply Z.mod_pos_bound. lia.
Qed.

Lemma bind_Ok {S A B} (m : M S A) (k : A -> M S B) s a s' :
  m s = Ok (a, s') -> bind m k s = k a s'.
Proof. unfold bind. intros ->. reflexivity. Qed.

(** ** The arena *)

Section ArenaProperties.
Import Arena.

Lemma alloc_scan_first_fit pre c post size :
  is_size_t size -> size <> 0 ->
  Forall chunk_ok (pre ++ c :: post) ->
  Forall (fun c' => ~ fits size c') pre ->
  fits size c ->
  alloc_scan (pre ++ c :: post) size
  = Some (ptr_add (data c) (used c),
          pre ++ set_used c (used c + size) :: post).
Proof.
  intros Hsz Hnz. induction pre as [|p pre IH]; simpl; intros Hok Hpre Hfit.
  - apply Forall_cons_1 in Hok as [[Hu Hc] _]. unfold fits in Hfit.
    rewrite size_wrap_small by (unfold is_size_t in *; lia).
    destruct (Z.leb_spec size (capacity c - used c)); [|lia].
    rewrite size_wrap_small by (unfold is_size_t in *; lia). reflexivity.
  - apply Forall_cons_1 in Hok as [[Hu Hc] Hok].
    apply Forall_cons_1 in Hpre as [Hp Hpre]. unfold fits in Hp.
    rewrite size_wrap_small by (unfold is_size_t in *; lia).
    destruct (Z.leb_spec size (capacity p - used p)); [lia|].
    rewrite IH by assumption. reflexivity.
Qed.

Lemma alloc_scan_no_fit cs size :
  Forall chunk_ok cs ->
  Forall (fun c' => ~ fits size c') cs ->
  alloc_scan cs size = None.
Proof.
  induction cs as [|p cs IH]; simpl; intros Hok Hno; [reflexivity|].
  apply Forall_cons_1 in Hok as [[Hu Hc] Hok].
  apply Forall_cons_1 in Hno as [Hp Hno]. unfold fits in Hp.
  rewrite size_wrap_small by (unfold is_size_t; lia).
  destruct (Z.leb_spec size (capacity p - used p)); [lia|].
  rewrite IH by assumption. reflexivity.
Qed.

Lemma x_arena_chunk_create_ok size h :
  two_mallocs_succeed h ->
  exists blk h',
    x_arena_chunk_create size h
    = Ok (Some {| capacity := size; used := 0; data := Ptr blk 0 |}, h').
Proof.
  unfold two_mallocs_succeed, x_arena_chunk_create, bind, malloc, ret.
  destruct h as [[|b1 [|b2 pl]] tr]; simpl.
  - intros _. eauto.
  - intros ->. simpl. eauto.
  - intros [-> ->]. simpl. eauto.
Qed.

Lemma x_arena_chunk_create_fail size h :
  a_malloc_fails h ->
  exists h', x_arena_chunk_create size h = Ok (None, h').
Proof.
  unfold a_malloc_fails, x_arena_chunk_create, bind, malloc, free, ret.
  destruct h as [[|b1 [|b2 pl]] tr]; simpl.
  - intros [].
  - intros ->. simpl. eauto.
  - destruct b1; simpl; [|eauto]. intros [|]; [discriminate|subst]. simpl. eauto.
Qed.

(** [used <= capacity] is kept by every operation of the arena. *)
Lemma alloc_scan_keeps_chunk_ok cs size p cs' :
  is_size_t size -> Forall chunk_ok cs ->
  alloc_scan cs size = Some (p, cs') -> Forall chunk_ok cs'.
Proof.
  intros Hsz. revert p cs'.
  induction cs as [|c cs IH]; simpl; intros p cs' Hok H; [discriminate|].
  apply Forall_cons_1 in Hok as [[Hu Hc] Hok].
  rewrite size_wrap_small in H by (unfold is_size_t; lia).
  destruct (Z.leb_spec size (capacity c - used c)).
  - injection H as <- <-. constructor; [|assumption].
    unfold chunk_ok, set_used. simpl.
    rewrite size_wrap_small by (unfold is_size_t in *; lia).
    unfold is_size_t in Hsz. lia.
  - destruct (alloc_scan cs size) as [[q cs1]|] eqn:Hscan; [|discriminate].
    injection H as <- <-. constructor; [split; assumption|]. eapply IH; eauto.
Qed.

Lemma x_arena_chunk_create_shape size h c h' :
  x_arena_chunk_create size h = Ok (Some c, h') ->
  capacity c = size /\ used c = 0.
Proof.
  unfold x_arena_chunk_create, bind, malloc, free, ret.
  destruct (match plan h with [] => true | b :: _ => b end); simpl;
    [|discriminate].
  destruct (match tail (plan h) with [] => true | b :: _ => b end); simpl;
    [|discriminate].
  intros [= <- _]. auto.
Qed.

Lemma x_arena_alloc_keeps_chunk_ok a size h p a' h' :
  is_size_t size -> is_size_t (chunk_size a) ->
  Forall chunk_ok (chunks a) ->
  x_arena_alloc (Some a) size h = Ok ((p, Some a'), h') ->
  Forall chunk_ok (chunks a') /\ chunk_size a' = chunk_size a.
Proof.
  intros Hsz Hcs Hok. simpl. destruct (size =? 0).
  { intros [= _ <- _]. auto. }
  destruct (alloc_scan (chunks a) size) as [[q cs]|] eqn:Hscan.
  { intros [= _ <- _]. simpl. split; [|reflexivity].
    exact (alloc_scan_keeps_chunk_ok (chunks a) size q cs Hsz Hok Hscan). }
  unfold bind.
  destruct (x_arena_chunk_create _ h) as [[[c|] h1]| |] eqn:Hcr;
    try discriminate.
  - intros [= _ <- _]. simpl. split; [|reflexivity].
    apply x_arena_chunk_create_shape in Hcr as [Hc Hu].
    constructor; [|assumption]. unfold chunk_ok, set_used. simpl.
    rewrite Hc. unfold is_size_t in *.
    destruct (Z.ltb_spec (chunk_size a) size); lia.
  - intros [= _ <- _]. auto.
Qed.

Lemma x_arena_reset_keeps_chunk_ok a a' :
  Forall chunk_ok (chunks a) -> x_arena_reset (Some a) = Some a' ->
  Forall chunk_ok (chunks a').
Proof.
  intros Hok [= <-]. simpl. apply Forall_map. 
  eapply Forall_impl; [|exact Hok]. intros c [Hu Hc]. unfold chunk_ok. simpl. lia.
Qed.

(** C7: [x_arena_alloc] returns null for a null arena or a zero size;
    otherwise the first chunk of the chain with [capacity - used >= size]
    serves the request: its [used] grows by [size] and the pointer at the
    old offset is returned; when no chunk fits, a chunk of capacity
    [max(size, chunk_size)] is created and prepended with [used = size],
    and the start of its buffer is returned. *)
Theorem x_arena_alloc_spec (arena : option XArena) (size : Z) (h : heap)
    (Hsize : is_size_t size)
    (Hok : forall a, arena = Some a -> Forall chunk_ok (chunks a)) :
  ((size = 0 \/ arena = None) ->
     x_arena_alloc arena size h = Ok ((NULL, arena), h)) /\
  (forall a, arena = Some a -> size <> 0 ->
     (forall pre c post,
        chunks a = pre ++ c :: post ->
        Forall (fun c' => ~ fits size c') pre ->
        fits size c ->
        x_arena_alloc arena size h
        = Ok ((ptr_add (data c) (used c),
               Some (set_chunks a (pre ++ set_used c (used c + size) :: post))),
              h)) /\
     (Forall (fun c' => ~ fits size c') (chunks a) ->
        (two_mallocs_succeed h ->
           exists blk h',
             x_arena_alloc arena size h
             = Ok ((Ptr blk 0,
                    Some (set_chunks a
                            ({| capacity := Z.max size (chunk_size a);
                                used := size;
                                data := Ptr blk 0 |} :: chunks a))),
                   h')) /\
        (a_malloc_fails h ->
           exists h', x_arena_alloc arena size h = Ok ((NULL, arena), h')))).
Proof.
  split.
  - intros [-> | ->]; [|reflexivity].
    destruct arena; reflexivity.
  - intros a -> Hnz. specialize (Hok a eq_refl).
    assert (Hz : (size =? 0) = false) by (apply Z.eqb_neq; assumption).
    split.
    + intros pre c post Hc Hpre Hfit. simpl. rewrite Hz, Hc.
      rewrite alloc_scan_first_fit; try assumption; [reflexivity|].
      rewrite <- Hc. assumption.
    + intros Hno.
      assert (Hmax : (if chunk_size a <? size then size else chunk_size a)
                     = Z.max size (chunk_size a)).
      { destruct (Z.ltb_spec (chunk_size a) size); lia. }
      split.
      * intros Hm. simpl. rewrite Hz, alloc_scan_no_fit by assumption.
        rewrite Hmax.
        destruct (x_arena_chunk_create_ok (Z.max size (chunk_size a)) h Hm)
          as (blk & h' & Hcr).
        exists blk, h'. erewrite bind_Ok by exact Hcr. reflexivity.
      * intros Hm. simpl. rewrite Hz, alloc_scan_no_fit by assumption.
        rewrite Hmax.
        destruct (x_arena_chunk_create_fail (Z.max size (chunk_size a)) h Hm)
          as (h' & Hcr).
        exists h'. erewrite bind_Ok by exact Hcr. reflexivity.
Qed.

(** C8: [x_arena_reset] sets [used] to 0 in every chunk and changes
    nothing else: the chain keeps its length and its order, every chunk
    its capacity and its buffer, the arena its [chunk_size]. *)
Theorem x_arena_reset_spec (arena : option XArena) :
  match arena with
  | None => x_arena_reset arena = None
  | Some a =>
      exists a',
        x_arena_reset arena = Some a' /\
        chunk_size a' = chunk_size a /\
        length (chunks a') = length (chunks a) /\
        (forall i c, chunks a !! i = Some c ->
           exists c', chunks a' !! i = Some c' /\
                      used c' = 0 /\ capacity c' = capacity c /\
                      data c' = data c) /\
        chunks a' = map (fun c => set_used c 0) (chunks a)
  end.
Proof.
  destruct arena as [a|]; [|reflexivity].
  eexists. split; [reflexivity|]. simpl.
  split; [reflexivity|]. split; [apply length_map|]. split; [|reflexivity].
  intros i c Hc. exists (set_used c 0).
  rewrite list_lookup_fmap, Hc. auto.
Qed.

Lemma x_arena_alloc_spec_witness :
  x_arena_alloc (Some example_arena) 20 example_heap
  = Ok ((Ptr 1 10,
         Some (set_chunks example_arena
                 [example_new_chunk; set_used example_old_chunk 30])),
        example_heap).
Proof.
  assert (Hsize : is_size_t 20) by (unfold is_size_t, SIZE_MODULUS; lia).
  assert (Hok : forall a, Some example_arena = Some a -> Forall chunk_ok (chunks a)).
  { intros a [= <-]. repeat constructor; simpl; unfold SIZE_MODULUS; lia. }
  destruct (x_arena_alloc_spec (Some example_arena) 20 example_heap Hsize Hok)
    as [_ H].
  destruct (H example_arena eq_refl ltac:(lia)) as [Hfit _].
  apply (Hfit [example_new_chunk] example_old_chunk []).
  - reflexivity.
  - repeat constructor. unfold fits. simpl. lia.
  - unfold fits. simpl. lia.
Defined.

(** *** Creation, accounting and separation *)

(** What a successful scan did. *)
Lemma alloc_scan_Some cs size p cs' :
  is_size_t size -> Forall chunk_ok cs ->
  alloc_scan cs size = Some (p, cs') ->
  exists pre c post,
    cs = pre ++ c :: post /\
    Forall (fun c' => ~ fits size c') pre /\ fits size c /\
    p = ptr_add (data c) (used c) /\
    cs' = pre ++ set_used c (used c + size) :: post.
Proof.
  intros Hsz. revert p cs'.
  induction cs as [|c cs IH]; simpl; intros p cs' Hok H; [discriminate|].
  apply Forall_cons_1 in Hok as [[Hu Hc] Hok].
  rewrite size_wrap_small in H by (unfold is_size_t; lia).
  destruct (Z.leb_spec size (capacity c - used c)) as [Hfit|Hno].
  - injection H as <- <-. exists [], c, cs. simpl.
    rewrite size_wrap_small by (unfold is_size_t in *; lia).
    repeat split; auto.
  - destruct (alloc_scan cs size) as [[q cs1]|] eqn:Hscan; [|discriminate].
    injection H as <- <-.
    destruct (IH q cs1 Hok eq_refl) as (pre & c0 & post & -> & Hpre & Hfit & -> & ->).
    exists (c :: pre), c0, post. simpl. repeat split; auto.
    constructor; [unfold fits; lia|assumption].
Qed.

Lemma alloc_scan_None cs size :
  Forall chunk_ok cs -> alloc_scan cs size = None ->
  Forall (fun c' => ~ fits size c') cs.
Proof.
  induction cs as [|c cs IH]; simpl; intros Hok H; [constructor|].
  apply Forall_cons_1 in Hok as [[Hu Hc] Hok].
  rewrite size_wrap_small in H by (unfold is_size_t; lia).
  destruct (Z.leb_spec size (capacity c - used c)) as [Hfit|Hno]; [discriminate|].
  destruct (alloc_scan cs size) as [[q cs1]|] eqn:Hscan; [discriminate|].
  constructor; [unfold fits; lia|auto].
Qed.

Lemma total_used_app cs1 cs2 :
  total_used (cs1 ++ cs2) = total_used cs1 + total_used cs2.
Proof. induction cs1 as [|c cs1 IH]; simpl; lia. Qed.

Lemma x_arena_chunk_create_cases size h :
  exists r h',
    x_arena_chunk_create size h = Ok (r, h') /\
    (length (trace h) <= length (trace h'))%nat /\
    match r with
    | Some c =>
        exists b, c = {| capacity := size; used := 0; data := Ptr b 0 |} /\
                  (length (trace h) <= b < length (trace h'))%nat /\
                  live_blocks (trace h') = live_blocks (trace h) + 2
    | None => live_blocks (trace h') = live_blocks (trace h)
    end.
Proof.
  unfold x_arena_chunk_create, bind, malloc, free, ret.
  destruct (match plan h with [] => true | b :: _ => b end); simpl.
  - destruct (match tail (plan h) with [] => true | b :: _ => b end); simpl.
    + eexists _, _. split; [reflexivity|]. simpl. split; [lia|].
      eexists. split; [reflexivity|]. split; lia.
    + eexists _, _. split; [reflexivity|]. simpl. split; lia.
  - eexists _, _. split; [reflexivity|]. simpl. split; lia.
Qed.

(** X1: [x_arena_create] returns an arena of one empty chunk of the size asked
    for, or null; it never returns with a block it obtained still held
    when it returns null. *)
Theorem x_arena_create_result (chunk_size : Z) (h : heap)
    (Hsize : is_size_t chunk_size) :
  exists r h',
    x_arena_create chunk_size h = Ok (r, h') /\
    match r with
    | Some a =>
        exists b,
          a = {| Arena.chunk_size := chunk_size;
                 chunks := [ {| capacity := chunk_size; used := 0;
                                data := Ptr b 0 |} ] |} /\
          arena_wf a h' /\
          live_blocks (trace h') = live_blocks (trace h) + 3
    | None => live_blocks (trace h') = live_blocks (trace h)
    end.
Proof.
  unfold x_arena_create. unfold bind at 1. unfold malloc at 1.
  destruct (match plan h with [] => true | b :: _ => b end); cbn [fst snd].
  - set (h1 := {| plan := tail (plan h);
                  trace := EvMalloc sizeof_XArena (Ptr (length (trace h)) 0) :: trace h |}).
    destruct (x_arena_chunk_create_cases chunk_size h1) as (r & h2 & Hcr & Hlen & Hr).
    erewrite bind_Ok by exact Hcr. destruct r as [c|].
    + destruct Hr as (b & -> & Hb & Hlive). eexists _, _. split; [reflexivity|].
      exists b. split; [reflexivity|]. split.
      * unfold arena_wf. simpl. split.
        { repeat constructor; simpl; unfold is_size_t in Hsize; lia. }
        split; [assumption|]. split.
        { repeat constructor. intros H. inversion H. }
        repeat constructor. exists b. split; [reflexivity|lia].
      * rewrite Hlive. subst h1. simpl. lia.
    + unfold bind, free, ret. eexists _, _. split; [reflexivity|]. simpl.
      rewrite Hr. subst h1. simpl. lia.
  - unfold ret. eexists _, _. split; [reflexivity|]. reflexivity.
Qed.

Lemma x_arena_create_result_witness :
  exists r h',
    x_arena_create 64 example_heap = Ok (r, h') /\
    match r with
    | Some a =>
        exists b,
          a = {| Arena.chunk_size := 64;
                 chunks := [ {| capacity := 64; used := 0; data := Ptr b 0 |} ] |} /\
          arena_wf a h' /\
          live_blocks (trace h') = live_blocks (trace example_heap) + 3
    | None => live_blocks (trace h') = live_blocks (trace example_heap)
    end.
Proof.
  apply (x_arena_create_result 64 example_heap).
  unfold is_size_t, SIZE_MODULUS. lia.
Defined.

Lemma arena_wf_heap_grows a h h' :
  arena_wf a h -> (length (trace h) <= length (trace h'))%nat -> arena_wf a h'.
Proof.
  intros (Hok & Hcs & Hnd & Hb) Hlen. do 3 (split; [assumption|]).
  eapply Forall_impl; [|exact Hb]. intros c (b & ? & ?). exists b. split; [assumption|lia].
Qed.

Lemma example_arena_wf : arena_wf example_arena example_heap4.
Proof.
  unfold arena_wf, example_arena, example_heap4. simpl. split.
  { repeat constructor; simpl; unfold SIZE_MODULUS; lia. }
  split; [unfold is_size_t, SIZE_MODULUS; lia|]. split.
  { repeat constructor; intros H; inversion H; subst; try discriminate.
    inversion H2. }
  repeat constructor; eexists; (split; [reflexivity|simpl; lia]).
Qed.

Lemma Forall2_same_chunks (cs : list XArenaChunk) :
  Forall2 (fun c c' => capacity c' = capacity c /\ data c' = data c /\
                       used c <= used c') cs cs.
Proof. induction cs; constructor; auto. repeat split; lia. Qed.

Lemma arena_data_fresh a h c :
  arena_wf a h -> c ∈ chunks a ->
  exists b, data c = Ptr b 0 /\ (b < length (trace h))%nat.
Proof.
  intros (_ & _ & _ & Hb) Hin. rewrite Forall_forall in Hb. apply Hb.
  apply list_elem_of_In. assumption.
Qed.

(** X2: [x_arena_alloc] always returns; a null result leaves the arena as it
    was; any other result keeps the arena well formed, adds exactly
    [size] to the bytes in use, puts at most one new chunk in front of the
    chain, and changes no capacity and no buffer of a chunk that was
    there. *)
Theorem x_arena_alloc_accounts (a : XArena) (size : Z) (h : heap)
    (Hwf : arena_wf a h) (Hsize : is_size_t size) :
  exists p a' h',
    x_arena_alloc (Some a) size h = Ok ((p, Some a'), h') /\
    (p = NULL -> a' = a) /\
    (p <> NULL ->
       arena_wf a' h' /\
       Arena.chunk_size a' = Arena.chunk_size a /\
       total_used (chunks a') = total_used (chunks a) + size /\
       exists new old,
         chunks a' = new ++ old /\ (length new <= 1)%nat /\
         Forall2 (fun c c' => capacity c' = capacity c /\
                              data c' = data c /\ used c <= used c')
                 (chunks a) old).
Proof.
  pose proof Hwf as (Hok & Hcs & Hnd & Hb). simpl.
  destruct (Z.eqb_spec size 0) as [->|Hnz].
  { eexists _, _, _. split; [reflexivity|]. split; [auto|congruence]. }
  destruct (alloc_scan (chunks a) size) as [[p cs]|] eqn:Hscan.
  - destruct (alloc_scan_Some _ _ _ _ Hsize Hok Hscan)
      as (pre & c & post & Hcs0 & Hpre & Hfit & -> & ->).
    eexists _, _, _. split; [reflexivity|]. split.
    { intros Hnull. exfalso.
      destruct (arena_data_fresh a h c Hwf) as (b & Hd & _).
      { rewrite Hcs0. apply elem_of_app. right. left. }
      rewrite Hd in Hnull. discriminate. }
    intros _. split; [|split; [reflexivity|split]].
    + unfold arena_wf. cbn [chunks set_chunks Arena.chunk_size].
      split; [exact (alloc_scan_keeps_chunk_ok _ _ _ _ Hsize Hok Hscan)|].
      split; [assumption|].
      rewrite Hcs0 in Hnd, Hb. rewrite map_app in Hnd |- *. cbn [map] in Hnd |- *.
      split; [exact Hnd|].
      apply Forall_app in Hb as [Hb1 Hb2]. apply Forall_cons_1 in Hb2 as [Hbc Hb2].
      apply Forall_app. split; [assumption|]. constructor; assumption.
    + cbn [chunks set_chunks]. rewrite Hcs0, !total_used_app. simpl. lia.
    + exists [], (pre ++ set_used c (used c + size) :: post).
      split; [reflexivity|]. split; [simpl; lia|].
      rewrite Hcs0. apply Forall2_app; [apply Forall2_same_chunks|].
      constructor; [|apply Forall2_same_chunks].
      simpl. unfold is_size_t in Hsize. repeat split; lia.
  - destruct (x_arena_chunk_create_cases
                (if Arena.chunk_size a <? size then size else Arena.chunk_size a) h)
      as (r & h' & Hcr & Hlen & Hr).
    erewrite bind_Ok by exact Hcr. destruct r as [c|].
    + destruct Hr as (b & -> & Hbr & _). unfold ret.
      eexists _, _, _. split; [reflexivity|]. split; [discriminate|].
      intros _. cbn [chunks set_chunks Arena.chunk_size data set_used capacity used].
      split; [|split; [reflexivity|split]].
      * unfold arena_wf. cbn [chunks Arena.chunk_size map data].
        split.
        { constructor; [|assumption]. unfold chunk_ok. simpl.
          unfold is_size_t in *. destruct (Z.ltb_spec (Arena.chunk_size a) size); lia. }
        split; [assumption|]. split.
        { constructor; [|assumption]. intros Hin.
          apply list_elem_of_In, in_map_iff in Hin as (c0 & Hd0 & Hin0).
          rewrite Forall_forall in Hb. destruct (Hb c0 Hin0) as (b0 & Hd & Hlt).
          rewrite Hd in Hd0. injection Hd0 as ->. lia. }
        constructor; [exists b; split; [reflexivity|lia]|].
        eapply Forall_impl; [|exact Hb]. intros c0 (b0 & ? & ?).
        exists b0. split; [assumption|lia].
      * simpl. lia.
      * eexists [_], (chunks a). split; [reflexivity|]. split; [simpl; lia|].
        apply Forall2_same_chunks.
    + unfold ret. eexists _, _, _. split; [reflexivity|]. split; [auto|congruence].
Qed.

Lemma NoDup_map_eq {A B} (f : A -> B) (l : list A) x y :
  NoDup (map f l) -> x ∈ l -> y ∈ l -> f x = f y -> x = y.
Proof.
  induction l as [|z l IH]; simpl; intros Hnd Hx Hy Hf; [inversion Hx|].
  pose proof (NoDup_cons_1_1 _ _ Hnd) as Hz. apply NoDup_cons_1_2 in Hnd.
  apply elem_of_cons in Hx as [->|Hx]; apply elem_of_cons in Hy as [->|Hy].
  - reflexivity.
  - exfalso. apply Hz. rewrite Hf. apply (proj2 (list_elem_of_In _ _)).
    apply in_map. apply (proj1 (list_elem_of_In _ _)). exact Hy.
  - exfalso. apply Hz. rewrite <- Hf. apply (proj2 (list_elem_of_In _ _)).
    apply in_map. apply (proj1 (list_elem_of_In _ _)). exact Hx.
  - auto.
Qed.

(** X3: the bytes [x_arena_alloc] hands out lie in the used part of a chunk
    and share no byte with anything the arena handed out before, all of
    which stays handed out. *)
Theorem x_arena_alloc_disjoint (a : XArena) (size : Z) (h : heap)
    (p : pointer) (a' : XArena) (h' : heap)
    (Hwf : arena_wf a h) (Hsize : is_size_t size)
    (Hres : x_arena_alloc (Some a) size h = Ok ((p, Some a'), h'))
    (Hp : p <> NULL) :
  allocated a' p size /\
  forall q m, allocated a q m -> allocated a' q m /\ disjoint q m p size.
Proof.
  pose proof Hwf as (Hok & Hcs & Hnd & Hb). simpl in Hres.
  destruct (Z.eqb_spec size 0) as [->|Hnz].
  { injection Hres as <- _ _. congruence. }
  assert (H0 : 0 <= size) by (unfold is_size_t in Hsize; lia).
  destruct (alloc_scan (chunks a) size) as [[p0 cs]|] eqn:Hscan.
  - injection Hres as <- <- <-.
    destruct (alloc_scan_Some _ _ _ _ Hsize Hok Hscan)
      as (pre & c & post & Hcs0 & Hpre & Hfit & -> & ->).
    assert (Hcin : c ∈ chunks a).
    { rewrite Hcs0. apply elem_of_app. right. left. }
    destruct (arena_data_fresh a h c Hwf Hcin) as (b & Hd & _).
    assert (Hcu : 0 <= used c).
    { rewrite Forall_forall in Hok. apply Hok. apply list_elem_of_In, Hcin. }
    rewrite Hd. cbn [ptr_add chunks set_chunks]. split.
    + exists (set_used c (used c + size)), b, (0 + used c).
      split; [apply elem_of_app; right; left|]. simpl. repeat split; auto; lia.
    + intros q m (c0 & b0 & off0 & Hin0 & Hd0 & -> & Hoff0 & Hm & Hu0).
      split.
      * rewrite Hcs0 in Hin0. apply elem_of_app in Hin0 as [Hin0|Hin0].
        { exists c0, b0, off0. split; [apply elem_of_app; left; assumption|].
          repeat split; auto. }
        apply elem_of_cons in Hin0 as [->|Hin0].
        { exists (set_used c (used c + size)), b0, off0.
          split; [apply elem_of_app; right; left|]. simpl.
          repeat split; auto; lia. }
        exists c0, b0, off0.
        split; [apply elem_of_app; right; right; assumption|]. repeat split; auto.
      * simpl. destruct (decide (b0 = b)) as [->|]; [|left; assumption].
        right. left.
        assert (c0 = c).
        { apply (NoDup_map_eq data (chunks a)); try assumption. congruence. }
        subst c0. lia.
  - unfold bind in Hres.
    destruct (x_arena_chunk_create_cases
                (if Arena.chunk_size a <? size then size else Arena.chunk_size a) h)
      as (r & h1 & Hcr & Hlen & Hr).
    rewrite Hcr in Hres. destruct r as [c|].
    + destruct Hr as (b & -> & Hbr & _). unfold ret in Hres.
      injection Hres as <- <- <-. cbn [data chunks set_chunks]. split.
      * eexists _, b, 0. split; [left|]. simpl. repeat split; auto; lia.
      * intros q m (c0 & b0 & off0 & Hin0 & Hd0 & -> & Hoff0 & Hm & Hu0).
        split.
        { exists c0, b0, off0. split; [right; assumption|]. repeat split; auto. }
        simpl. left.
        destruct (arena_data_fresh a h c0 Hwf Hin0) as (b1 & Hd1 & Hlt).
        rewrite Hd1 in Hd0. injection Hd0 as ->. lia.
    + unfold ret in Hres. injection Hres as <- _ _. congruence.
Qed.

Lemma x_arena_alloc_disjoint_witness :
  allocated (set_chunks example_arena
               [example_new_chunk; set_used example_old_chunk 30])
            (Ptr 1 10) 20 /\
  forall q m,
    allocated example_arena q m ->
    allocated (set_chunks example_arena
                 [example_new_chunk; set_used example_old_chunk 30]) q m /\
    disjoint q m (Ptr 1 10) 20.
Proof.
  apply (x_arena_alloc_disjoint example_arena 20 example_heap4 (Ptr 1 10)
           (set_chunks example_arena
              [example_new_chunk; set_used example_old_chunk 30])
           example_heap4).
  - apply example_arena_wf.
  - unfold is_size_t, SIZE_MODULUS. lia.
  - reflexivity.
  - discriminate.
Defined.

Lemma x_arena_alloc_accounts_witness :
  exists p a' h',
    x_arena_alloc (Some example_arena) 20 example_heap4
    = Ok ((p, Some a'), h') /\
    (p = NULL -> a' = example_arena) /\
    (p <> NULL ->
       arena_wf a' h' /\
       Arena.chunk_size a' = Arena.chunk_size example_arena /\
       total_used (chunks a') = total_used (chunks example_arena) + 20 /\
       exists new old,
         chunks a' = new ++ old /\ (length new <= 1)%nat /\
         Forall2 (fun c c' => capacity c' = capacity c /\
                              data c' = data c /\ used c <= used c')
                 (chunks example_arena) old).
Proof.
  apply (x_arena_alloc_accounts example_arena 20 example_heap4).
  - apply example_arena_wf.
  - unfold is_size_t, SIZE_MODULUS. lia.
Defined.

(** X4: after [x_arena_reset] the arena serves a request from the start of the
    buffer of the first chunk whose capacity is enough, without a call to
    [malloc]; all other chunks stay empty. *)
Theorem x_arena_reset_then_alloc (a : XArena) (size : Z) (h : heap)
    (pre post : list XArenaChunk) (c : XArenaChunk)
    (Hwf : arena_wf a h) (Hsize : is_size_t size) (Hnz : size <> 0)
    (Hchain : chunks a = pre ++ c :: post)
    (Hpre : Forall (fun c' => capacity c' < size) pre)
    (Hc : size <= capacity c) :
  exists a',
    x_arena_alloc (x_arena_reset (Some a)) size h = Ok ((data c, Some a'), h) /\
    chunks a' = map (fun c' => set_used c' 0) pre ++ set_used c size
                :: map (fun c' => set_used c' 0) post /\
    total_used (chunks a') = size.
Proof.
  pose proof Hwf as (Hok & Hcs & Hnd & Hb).
  assert (Hcin : c ∈ chunks a).
  { rewrite Hchain. apply elem_of_app. right. left. }
  destruct (arena_data_fresh a h c Hwf Hcin) as (b & Hd & _).
  cbn [x_arena_reset x_arena_alloc set_chunks chunks].
  destruct (Z.eqb_spec size 0) as [|_]; [contradiction|].
  rewrite Hchain, map_app. cbn [map].
  rewrite Hchain in Hok. apply Forall_app in Hok as [Hok1 Hok2].
  apply Forall_cons_1 in Hok2 as [Hokc Hok2].
  assert (Hreset : forall l, Forall chunk_ok l ->
                             Forall chunk_ok (map (fun c' => set_used c' 0) l)).
  { intros l Hl. apply Forall_map. eapply Forall_impl; [|exact Hl].
    intros c' [? ?]. unfold chunk_ok. simpl. lia. }
  rewrite alloc_scan_first_fit.
  - cbn [data set_used used ptr_add]. rewrite Hd. cbn [ptr_add]. unfold ret.
    eexists. split; [reflexivity|]. cbn [chunks set_chunks]. split; [reflexivity|].
    rewrite total_used_app. cbn [total_used used set_used].
    assert (Hz : forall l, total_used (map (fun c' => set_used c' 0) l) = 0).
    { induction l as [|x l IH]; simpl; lia. }
    rewrite !Hz. lia.
  - assumption.
  - assumption.
  - apply Forall_app. split; [auto|]. constructor; [|auto].
    destruct Hokc. unfold chunk_ok. simpl. lia.
  - apply Forall_map. eapply Forall_impl; [|exact Hpre].
    intros c' Hc'. simpl in Hc'. unfold compose, fits, set_used. simpl. lia.
  - unfold fits. simpl. lia.
Qed.

Lemma x_arena_reset_then_alloc_witness :
  exists a',
    x_arena_alloc (x_arena_reset (Some example_arena)) 20 example_heap4
    = Ok ((Ptr 3 0, Some a'), example_heap4) /\
    chunks a' = [set_used example_new_chunk 20; set_used example_old_chunk 0] /\
    total_used (chunks a') = 20.
Proof.
  apply (x_arena_reset_then_alloc example_arena 20 example_heap4 []
           [example_old_chunk] example_new_chunk).
  - apply example_arena_wf.
  - unfold is_size_t, SIZE_MODULUS. lia.
  - lia.
  - reflexivity.
  - constructor.
  - simpl. lia.
Defined.

End ArenaProperties.

(** ** The hashtable *)

Section HashtableProperties.
Import Hashtable.

(** *** Arithmetic of probe positions *)

Lemma pos_range t s d : 0 < capacity t -> 0 <= pos t s d < capacity t.
Proof. intros. unfold pos. apply Z.mod_pos_bound. lia. Qed.

Lemma pos_0 t s : 0 <= s < capacity t -> pos t s 0 = s.
Proof. intros. unfold pos. rewrite Z.add_0_r. apply Z.mod_small. lia. Qed.

Lemma pos_succ t s d :
  0 < capacity t -> (pos t s d + 1) mod capacity t = pos t s (d + 1).
Proof.
  intros. unfold pos. rewrite Zplus_mod_idemp_l. f_equal. lia.
Qed.

Lemma pos_inj t s d1 d2 :
  0 <= d1 < capacity t -> 0 <= d2 < capacity t ->
  pos t s d1 = pos t s d2 -> d1 = d2.
Proof.
  unfold pos. intros H1 H2 E.
  assert (Hc : 0 < capacity t) by lia.
  assert (E' : (d1 - d2) mod capacity t = 0).
  { replace (d1 - d2) with ((s + d1) - (s + d2)) by lia.
    rewrite Zminus_mod, E, Z.sub_diag. apply Z.mod_0_l. lia. }
  apply Z.mod_divide in E'; [|lia]. destruct E' as [q Hq].
  assert (q = 0) by nia. lia.
Qed.

Lemma pos_offset t s j :
  0 <= s < capacity t -> 0 <= j < capacity t ->
  pos t s ((j - s) mod capacity t) = j.
Proof.
  intros Hs Hj. unfold pos. rewrite Zplus_mod_idemp_r.
  replace (s + (j - s)) with j by lia. apply Z.mod_small. lia.
Qed.

Lemma offset_pos t s d :
  0 <= s < capacity t -> 0 <= d < capacity t ->
  (pos t s d - s) mod capacity t = d.
Proof.
  intros Hs Hd. unfold pos. rewrite Zminus_mod_idemp_l.
  replace (s + d - s) with d by lia. apply Z.mod_small. lia.
Qed.

Lemma home_range t k : 0 < capacity t -> 0 <= home t k < capacity t.
Proof. intros. unfold home. apply Z.mod_pos_bound. lia. Qed.


(** *** The probe loop *)

Lemma slot_defined t i :
  length (entries t) = Z.to_nat (capacity t) -> 0 <= i < capacity t ->
  exists e, entries t !! Z.to_nat i = Some e.
Proof.
  intros Hlen Hi. apply lookup_lt_is_Some_2. lia.
Qed.

Lemma probe_loop_spec t k start :
  0 < capacity t < SIZE_MODULUS ->
  length (entries t) = Z.to_nat (capacity t) ->
  0 <= start < capacity t ->
  forall fuel d,
    0 <= d < capacity t -> capacity t - d <= Z.of_nat fuel ->
    (forall d', 0 <= d' < d -> blocked t k (pos t start d')) ->
    exists idx found,
      probe_loop fuel t k start (pos t start d) = Ok (idx, found) /\
      probe_stops t k start idx found.
Proof.
  intros Hcap Hlen Hstart. induction fuel as [|fuel IH]; intros d Hd Hfuel Hpre.
  { lia. }
  assert (Hp : 0 <= pos t start d < capacity t) by (apply pos_range; lia).
  destruct (slot_defined t _ Hlen Hp) as [e He].
  simpl. unfold entry_at. rewrite He. simpl.
  destruct (occupied e) eqn:Hocc.
  - destruct (eq_fn t k (key e)) eqn:Heq.
    + eexists _, _. split; [reflexivity|]. left. exists d, e. tauto.
    + unfold size_mod. destruct (Z.eqb_spec (capacity t) 0) as [|_]; [lia|].
      rewrite size_wrap_small by (unfold is_size_t; lia).
      rewrite pos_succ by lia. simpl.
      assert (Hblk : forall d', 0 <= d' < d + 1 -> blocked t k (pos t start d')).
      { intros d' Hd'. destruct (Z.eq_dec d' d) as [->|]; [|apply Hpre; lia].
        exists e. auto. }
      destruct (Z.eqb_spec (pos t start (d + 1)) start) as [Hw|Hw].
      * eexists _, _. split; [reflexivity|]. right.
        split; [assumption|]. split; [reflexivity|].
        intros d' Hd'. apply Hblk.
        destruct (Z.eq_dec (d + 1) (capacity t)) as [|Hne]; [lia|].
        exfalso. rewrite <- (pos_0 t start) in Hw at 2 by lia.
        apply pos_inj in Hw; lia.
      * assert (d + 1 < capacity t).
        { destruct (Z.eq_dec (d + 1) (capacity t)) as [E|]; [|lia].
          exfalso. apply Hw. unfold pos. rewrite E.
          rewrite <- Z.add_mod_idemp_r, Z.mod_same, Z.add_0_r by lia.
          apply Z.mod_small. lia. }
        apply IH; [lia|lia|assumption].
  - eexists _, _. split; [reflexivity|]. left. exists d, e. tauto.
Qed.

Lemma probe_loop_more_fuel t k start fuel :
  forall idx r fuel',
    probe_loop fuel t k start idx = Ok r -> (fuel <= fuel')%nat ->
    probe_loop fuel' t k start idx = Ok r.
Proof.
  induction fuel as [|fuel IH]; intros idx r fuel' H Hle; [discriminate|].
  destruct fuel' as [|fuel']; [lia|]. simpl in *.
  destruct (entry_at t idx) as [e| |]; simpl in *; try discriminate.
  destruct (occupied e); [|assumption].
  destruct (eq_fn t k (key e)); [assumption|].
  destruct (size_mod _ _) as [idx'| |]; simpl in *; try discriminate.
  destruct (idx' =? start); [assumption|]. apply IH; [assumption|lia].
Qed.

Lemma probe_stops_range t k start idx found :
  0 < capacity t -> 0 <= start < capacity t ->
  probe_stops t k start idx found -> 0 <= idx < capacity t.
Proof.
  intros Hc Hs [(d & e & _ & -> & _)|(-> & _)]; [apply pos_range|]; lia.
Qed.

Lemma probe_index_spec t k :
  0 < capacity t < SIZE_MODULUS ->
  length (entries t) = Z.to_nat (capacity t) ->
  exists idx found,
    probe_index t k = Ok (idx, found) /\
    probe_stops t k (home t k) idx found /\
    0 <= idx < capacity t.
Proof.
  intros Hcap Hlen. unfold probe_index, size_mod.
  destruct (Z.eqb_spec (capacity t) 0) as [|_]; [lia|]. simpl.
  fold (home t k).
  assert (Hh : 0 <= home t k < capacity t) by (apply home_range; lia).
  destruct (probe_loop_spec t k (home t k) Hcap Hlen Hh
              (Z.to_nat (capacity t)) 0) as (idx & found & Hrun & Hst).
  - lia.
  - lia.
  - intros d' ?. lia.
  - rewrite pos_0 in Hrun by lia. exists idx, found.
    split; [assumption|]. split; [assumption|].
    eapply probe_stops_range; eauto. lia.
Qed.

(** C9: the probe loop ends within [capacity] tests of its condition on
    every table, also on one whose slots are all occupied by other keys,
    where it stops on coming back to its start. *)
Theorem probe_index_terminates (t : XHashtable) (k : pointer)
    (Hcap : 0 < capacity t < SIZE_MODULUS)
    (Hlen : length (entries t) = Z.to_nat (capacity t)) :
  exists idx found,
    probe_index t k = Ok (idx, found) /\
    0 <= idx < capacity t /\
    (forall fuel, (Z.to_nat (capacity t) <= fuel)%nat ->
       probe_loop fuel t k (home t k) (home t k) = Ok (idx, found)) /\
    ((forall i, 0 <= i < capacity t -> blocked t k i) ->
       idx = home t k /\ found = false).
Proof.
  destruct (probe_index_spec t k Hcap Hlen) as (idx & found & Hrun & Hst & Hr).
  exists idx, found. split; [assumption|]. split; [assumption|]. split.
  - intros fuel Hf. unfold probe_index, size_mod in Hrun.
    destruct (Z.eqb_spec (capacity t) 0) as [|_]; [lia|]. simpl in Hrun.
    eapply probe_loop_more_fuel; eauto.
  - intros Hfull. destruct Hst as [(d & e & _ & _ & _ & He & Hcase)|(-> & -> & _)];
      [|split; reflexivity].
    exfalso. destruct (Hfull idx Hr) as (e' & He' & Hocc & Hne).
    rewrite He in He'. injection He' as <-.
    destruct Hcase as [(_ & Heq & _)|(Hfree & _)]; congruence.
Qed.

Lemma probe_index_terminates_witness :
  probe_index full_table (Some [x03]) = Ok (1, false).
Proof.
  assert (Hcap : 0 < capacity full_table < SIZE_MODULUS)
    by (simpl; unfold SIZE_MODULUS; lia).
  assert (Hlen : length (entries full_table) = Z.to_nat (capacity full_table))
    by reflexivity.
  destruct (probe_index_terminates full_table (Some [x03]) Hcap Hlen)
    as (idx & found & Hrun & _ & _ & Hfull).
  rewrite Hrun. destruct Hfull as [-> ->]; [|reflexivity].
  intros i Hi. simpl in Hi.
  assert (i = 0 \/ i = 1) as [-> | ->] by lia;
    eexists; (split; [reflexivity|]); split; reflexivity.
Defined.

(** *** Counting occupied slots *)

Lemma occupied_slots_range es :
  0 <= occupied_slots es <= Z.of_nat (length es).
Proof.
  induction es as [|e es IH]; simpl; [lia|]. destruct (occupied e); lia.
Qed.

Lemma occupied_slots_insert es i e e' :
  es !! i = Some e ->
  occupied_slots (<[i := e']> es)
  = occupied_slots es - (if occupied e then 1 else 0)
    + (if occupied e' then 1 else 0).
Proof.
  revert i. induction es as [|x es IH]; intros [|i] H; simpl in *; try discriminate.
  - injection H as ->. lia.
  - rewrite (IH i H). lia.
Qed.

Lemma occupied_slots_free es :
  occupied_slots es < Z.of_nat (length es) ->
  exists i e, es !! i = Some e /\ occupied e = false.
Proof.
  induction es as [|x es IH]; simpl; [lia|].
  destruct (occupied x) eqn:Hx.
  - intros H. destruct IH as (i & e & He & Hf); [lia|]. exists (S i), e. auto.
  - intros _. exists 0%nat, x. auto.
Qed.

Lemma occupied_slots_replicate n :
  occupied_slots (replicate n null_entry) = 0.
Proof. induction n as [|n IH]; simpl; lia. Qed.

Lemma occupied_slots_take es i e :
  es !! i = Some e ->
  occupied_slots (take (S i) es)
  = occupied_slots (take i es) + (if occupied e then 1 else 0).
Proof.
  revert i. induction es as [|x es IH]; intros [|i] H; simpl in *; try discriminate.
  - injection H as ->. destruct es; simpl; lia.
  - rewrite (IH i H). lia.
Qed.

Lemma occupied_slots_take_le es i :
  occupied_slots (take i es) <= occupied_slots es.
Proof.
  revert i. induction es as [|x es IH]; intros [|i]; simpl; try lia.
  - pose proof (occupied_slots_range es). destruct (occupied x); lia.
  - specialize (IH i). lia.
Qed.

(** *** Blocks and allocations *)

Lemma memcpy_valid n d s :
  valid_block n d -> valid_block n s -> memcpy d s n = Ok s.
Proof.
  intros (db & -> & Hd) (sb & -> & Hs). unfold memcpy.
  destruct (Z.eqb_spec n 0) as [->|Hn].
  - destruct db; [|simpl in Hd; lia]. destruct sb; [|simpl in Hs; lia].
    reflexivity.
  - destruct (Z.ltb_spec (Z.of_nat (length sb)) n); [lia|].
    destruct (Z.ltb_spec (Z.of_nat (length db)) n); [lia|]. simpl.
    rewrite take_ge, drop_ge by lia. rewrite app_nil_r. reflexivity.
Qed.

Lemma valid_block_replicate n :
  0 <= n -> valid_block n (Some (replicate (Z.to_nat n) x00)).
Proof.
  intros. eexists. split; [reflexivity|]. rewrite length_replicate. lia.
Qed.

Lemma valid_block_nonneg n p : valid_block n p -> 0 <= n.
Proof. intros (b & _ & <-). lia. Qed.

Lemma allocations_succeed_tail h a n :
  allocations_succeed h -> allocations_succeed (after_alloc a n h).
Proof.
  unfold allocations_succeed, after_alloc. simpl.
  destruct (plan h); simpl; [auto|]. intros H. apply Forall_cons_1 in H. tauto.
Qed.

Lemma stdx_alloc_ok a n h :
  allocations_succeed h ->
  stdx_alloc a n h = Ok (Some (replicate (Z.to_nat n) x00), after_alloc a n h).
Proof.
  unfold allocations_succeed, stdx_alloc, after_alloc.
  destruct (plan h) as [|b pl]; [reflexivity|].
  intros H. apply Forall_cons_1 in H as [-> _]. reflexivity.
Qed.

Lemma alloc_entries_ok a c h :
  allocations_succeed h -> 0 <= c <= 2 * MAX_CAPACITY ->
  exists h',
    alloc_entries a c h = Ok (replicate (Z.to_nat c) null_entry, h') /\
    allocations_succeed h'.
Proof.
  intros Hh Hc. unfold alloc_entries.
  erewrite bind_Ok by (apply stdx_alloc_ok; assumption).
  unfold lift, memset_entries.
  rewrite size_wrap_small
    by (unfold is_size_t, sizeof_XHashEntry, SIZE_MODULUS, MAX_CAPACITY in *; lia).
  unfold sizeof_XHashEntry. rewrite Z.div_mul by lia.
  eexists. split; [reflexivity|]. apply allocations_succeed_tail. assumption.
Qed.

(** *** A [set] below the load factor *)

Lemma set_body_no_rehash fuel t k v h i found e :
  load_factor_reached (count t) (capacity t) = false ->
  probe_index t k = Ok (i, found) ->
  entries t !! Z.to_nat i = Some e ->
  valid_block (key_size t) k -> valid_block (value_size t) v ->
  (found = true -> valid_block (value_size t) (value e)) ->
  is_size_t (count t + 1) ->
  allocations_succeed h ->
  exists h',
    set_body (S fuel) t k v h
    = Ok ((true, if found then update_at t i e v else insert_at t i k v), h') /\
    allocations_succeed h' /\ (found = true -> h' = h).
Proof.
  intros Hload Hprobe He Hk Hv Hev Hcnt Hh.
  simpl. rewrite Hload. unfold bind at 1. unfold ret at 1. unfold set_store.
  unfold bind at 1. unfold lift at 1. rewrite Hprobe. simpl.
  destruct found; simpl.
  - unfold bind, lift, ret. unfold entry_at. rewrite He.
    rewrite memcpy_valid by auto. unfold store_entry. rewrite He.
    eexists. split; [reflexivity|]. auto.
  - pose proof (valid_block_nonneg _ _ Hk) as Hks.
    pose proof (valid_block_nonneg _ _ Hv) as Hvs.
    unfold bind at 1. unfold bind at 1.
    rewrite stdx_alloc_ok by assumption.
    unfold bind at 1. unfold lift at 1.
    rewrite memcpy_valid by (auto using valid_block_replicate).
    unfold bind at 1.
    rewrite stdx_alloc_ok by (apply allocations_succeed_tail; assumption).
    unfold bind at 1. unfold lift at 1. unfold store_entry at 1. rewrite He.
    unfold ret at 1.
    unfold bind at 1. unfold lift at 1. unfold entry_at.
    cbn [entries set_count set_entries].
    rewrite list_lookup_insert_eq by (apply lookup_lt_Some in He; assumption).
    unfold bind at 1. unfold lift at 1. cbn [value value_size set_count set_entries].
    rewrite memcpy_valid by (auto using valid_block_replicate).
    unfold bind at 1. unfold lift at 1. unfold store_entry.
    cbn [entries set_count set_entries].
    rewrite list_lookup_insert_eq by (apply lookup_lt_Some in He; assumption).
    unfold ret. rewrite list_insert_insert_eq.
    rewrite size_wrap_small by assumption.
    eexists. split; [reflexivity|]. split; [|discriminate].
    do 2 apply allocations_succeed_tail. assumption.
Qed.

Lemma same_params_refl t : same_params t t.
Proof. unfold same_params. tauto. Qed.

Lemma same_params_trans t1 t2 t3 :
  same_params t1 t2 -> same_params t2 t3 -> same_params t1 t3.
Proof. unfold same_params. intuition congruence. Qed.

Lemma table_ok_shape t : table_ok t -> shape_ok t.
Proof.
  unfold table_ok, shape_ok, INITIAL_CAPACITY, MAX_CAPACITY.
  intros (? & ? & ? & ? & ?). repeat split; try assumption; lia.
Qed.

Lemma load_false count capacity :
  0 < capacity ->
  load_factor_reached count capacity = false <-> 4 * count < 3 * capacity.
Proof.
  intros. unfold load_factor_reached.
  destruct (Z.eqb_spec capacity 0); [lia|].
  destruct (Z.leb_spec (3 * capacity) (4 * count)); split; intros; try lia;
    congruence.
Qed.

Lemma load_true count capacity :
  0 < capacity ->
  load_factor_reached count capacity = true <-> 3 * capacity <= 4 * count.
Proof.
  intros. unfold load_factor_reached.
  destruct (Z.eqb_spec capacity 0); [lia|].
  destruct (Z.leb_spec (3 * capacity) (4 * count)); split; intros; try lia;
    congruence.
Qed.

Lemma shape_free_slot t :
  shape_ok t -> count t < capacity t ->
  exists j e, 0 <= j < capacity t /\
              entries t !! Z.to_nat j = Some e /\ occupied e = false.
Proof.
  intros (Hcap & Hlen & Hcnt & _) Hlt.
  destruct (occupied_slots_free (entries t)) as (i & e & He & Hf); [lia|].
  exists (Z.of_nat i), e. rewrite Nat2Z.id.
  apply lookup_lt_Some in He as Hi. split; [lia|]. auto.
Qed.

Lemma shape_size_mod t : shape_ok t -> 0 < capacity t < SIZE_MODULUS.
Proof.
  unfold shape_ok, MAX_CAPACITY, SIZE_MODULUS. intros (? & _). lia.
Qed.

(** A [set] on a table below the load factor. *)
Lemma set_body_lands fuel t k v h :
  shape_ok t -> 4 * count t < 3 * capacity t ->
  valid_block (key_size t) k -> valid_block (value_size t) v ->
  allocations_succeed h ->
  exists t' h',
    set_body (S fuel) t k v h = Ok ((true, t'), h') /\
    allocations_succeed h' /\ set_lands t k v t'.
Proof.
  intros Hshape Hload Hk Hv Hh.
  pose proof (shape_size_mod t Hshape) as Hsz.
  pose proof Hshape as (Hcap & Hlen & Hcnt & Hent).
  destruct (probe_index_spec t k Hsz Hlen) as (i & found & Hrun & Hst & Hi).
  assert (Hcount : is_size_t (count t + 1)).
  { pose proof (occupied_slots_range (entries t)).
    unfold is_size_t, SIZE_MODULUS, MAX_CAPACITY in *. lia. }
  assert (Hl : load_factor_reached (count t) (capacity t) = false)
    by (apply load_false; lia).
  destruct Hst as [(d & e & Hd & -> & Hpre & He & Hcase)|(-> & -> & Hfull)].
  - assert (Hev : found = true -> valid_block (value_size t) (value e)).
    { intros ->. destruct Hcase as [(Hocc & _)|(_ & ?)]; [|discriminate].
      eapply Forall_lookup_1 in Hent; [|exact He]. apply Hent. assumption. }
    destruct (set_body_no_rehash fuel t k v h _ found e Hl Hrun He Hk Hv Hev
                Hcount Hh) as (h' & Hset & Hh' & _).
    eexists _, h'. split; [exact Hset|]. split; [assumption|].
    exists d, (pos t (home t k) d), e. repeat split; try assumption; try lia.
    destruct Hcase as [(? & ? & ->)|(? & ->)]; [left|right]; auto.
  - exfalso. destruct (shape_free_slot t Hshape) as (j & e & Hj & He & Hfree); [lia|].
    pose proof (home_range t k ltac:(lia)) as Hh0.
    destruct (Hfull ((j - home t k) mod capacity t)) as (e' & He' & Hocc & _).
    { apply Z.mod_pos_bound. lia. }
    rewrite pos_offset in He' by lia. congruence.
Qed.

Lemma entry_ok_params t t' e :
  same_params t t' -> entry_ok t e -> entry_ok t' e.
Proof.
  unfold entry_ok. intros (Hk & Hv & _) H Ho. rewrite Hk, Hv. auto.
Qed.

Lemma Forall_entry_ok_params t t' es :
  same_params t t' -> Forall (entry_ok t) es -> Forall (entry_ok t') es.
Proof.
  intros Hp. apply Forall_impl. intros e. apply entry_ok_params. assumption.
Qed.

Lemma set_lands_frame t k v t' :
  set_lands t k v t' ->
  same_params t t' /\ capacity t' = capacity t /\
  length (entries t') = length (entries t).
Proof.
  intros (d & i & e & _ & _ & _ & _ & [(_ & _ & ->)|(_ & ->)]);
    (split; [unfold same_params; cbn; tauto|]); (split; [reflexivity|]);
    cbn; apply length_insert.
Qed.

Lemma set_lands_count t k v t' :
  shape_ok t -> set_lands t k v t' ->
  count t' = occupied_slots (entries t') /\
  count t <= count t' <= count t + 1.
Proof.
  intros (_ & _ & Hcnt & _) (d & i & e & _ & _ & _ & He & [(Ho & _ & ->)|(Ho & ->)]);
    cbn; rewrite (occupied_slots_insert _ _ e) by assumption; cbn;
    rewrite Ho; lia.
Qed.

Lemma set_lands_shape t k v t' :
  shape_ok t ->
  valid_block (key_size t) k -> valid_block (value_size t) v ->
  set_lands t k v t' -> shape_ok t'.
Proof.
  intros Hs Hk Hv Hl.
  destruct (set_lands_frame _ _ _ _ Hl) as (Hp & Hc & Hlen).
  destruct (set_lands_count _ _ _ _ Hs Hl) as (Hcnt & _).
  pose proof Hs as (Hcap & Hlen0 & _ & Hent).
  unfold shape_ok. rewrite Hc, Hlen. repeat split; try assumption; try lia.
  destruct Hl as (d & i & e & _ & _ & _ & He & [(Ho & _ & ->)|(Ho & ->)]); cbn.
  - apply Forall_insert; [assumption|].
    eapply Forall_lookup_1 in Hent; [|exact He].
    intros _. cbn. split; [apply Hent; assumption|assumption].
  - apply Forall_insert; [assumption|]. intros _. cbn. auto.
Qed.

(** Where the keys of the table after a [set] come from. *)
Lemma set_lands_keys t k v t' j e' :
  set_lands t k v t' ->
  entries t' !! j = Some e' -> occupied e' = true ->
  (key e' = k /\ value e' = v /\
   exists e, entries t !! j = Some e /\ occupied e = false) \/
  (exists e, entries t !! j = Some e /\ occupied e = true /\ key e = key e').
Proof.
  intros (d & i & e & _ & _ & _ & He & [(Ho & _ & ->)|(Ho & ->)]); cbn;
    intros Hj Hocc; apply list_lookup_insert_Some in Hj
      as [(<- & <- & _)|(_ & Hj)]; eauto 10.
Qed.

(** A slot that was occupied stays occupied, with its key. *)
Lemma set_lands_keeps t k v t' j e :
  set_lands t k v t' ->
  entries t !! j = Some e -> occupied e = true ->
  exists e', entries t' !! j = Some e' /\ occupied e' = true /\ key e' = key e.
Proof.
  intros (d & i & e0 & _ & _ & _ & He & [(Ho & _ & ->)|(Ho & ->)]) Hj Hocc; cbn.
  - destruct (decide (Z.to_nat i = j)) as [<-|Hne].
    + rewrite list_lookup_insert_eq by (eapply lookup_lt_Some; eauto).
      rewrite He in Hj. injection Hj as ->. eauto.
    + rewrite list_lookup_insert_ne by assumption. eauto.
  - destruct (decide (Z.to_nat i = j)) as [<-|Hne]; [congruence|].
    rewrite list_lookup_insert_ne by assumption. eauto.
Qed.

(** *** The rehash *)

Lemma rehash_loop_inv (Inv : nat -> XHashtable -> Prop) set a old :
  (forall i T e, Inv i T -> old !! i = Some e -> occupied e = false ->
     Inv (S i) T) ->
  (forall i T e h,
     Inv i T -> allocations_succeed h ->
     old !! i = Some e -> occupied e = true ->
     exists b T' h',
       set T (key e) (value e) h = Ok ((b, T'), h') /\
       allocations_succeed h' /\ Inv (S i) T') ->
  forall n i T h,
    (i + n = length old)%nat -> Inv i T -> allocations_succeed h ->
    exists T' h',
      rehash_loop set a old n i T h = Ok (T', h') /\
      Inv (length old) T' /\ allocations_succeed h'.
Proof.
  intros Hskip Hmove. induction n as [|n IH]; intros i T h Hlen HI Hh.
  - simpl. replace (length old) with i by lia. unfold ret. eauto.
  - simpl. destruct (lookup_lt_is_Some_2 old i ltac:(lia)) as [e He].
    rewrite He. destruct (occupied e) eqn:Ho; simpl.
    + destruct (Hmove i T e h HI Hh He Ho) as (b & T' & h' & Hset & Hh' & HI').
      erewrite bind_Ok by exact Hset. unfold bind at 1. unfold stdx_free at 1.
      unfold bind at 1. unfold stdx_free at 1. simpl.
      apply IH; [lia|assumption|]. exact Hh'.
    + apply IH; [lia| |assumption]. eapply Hskip; eauto.
Qed.

Lemma occupied_slots_take_bound es i :
  occupied_slots (take i es) <= Z.of_nat i.
Proof.
  pose proof (occupied_slots_range (take i es)) as H.
  rewrite length_take in H. lia.
Qed.

Lemma doubled_inv t :
  shape_ok t -> capacity t <= MAX_CAPACITY -> rehash_inv t 0 (doubled t).
Proof.
  intros (Hcap & _) Hmax. unfold rehash_inv, doubled.
  split.
  { unfold shape_ok. cbn.
    rewrite length_replicate, occupied_slots_replicate.
    split; [lia|]. split; [reflexivity|]. split; [reflexivity|].
    apply Forall_replicate. intros ?. discriminate. }
  split; [reflexivity|]. split; [unfold same_params; cbn; tauto|].
  rewrite take_0. split; [cbn; lia|]. split.
  - intros j e' [-> _]%lookup_replicate. discriminate.
  - intros _. reflexivity.
Qed.

(** Moving one occupied slot, with a [set] that does not rehash. *)
Lemma rehash_move fuel t i T e h :
  shape_ok t ->
  rehash_inv t i T -> allocations_succeed h ->
  entries t !! i = Some e -> occupied e = true ->
  exists b T' h',
    set_body (S fuel) T (key e) (value e) h = Ok ((b, T'), h') /\
    allocations_succeed h' /\ rehash_inv t (S i) T' /\
    set_lands T (key e) (value e) T'.
Proof.
  intros Ht (Hs & Hc & Hp & Hcnt & Hkeys & Hdist) Hh He Ho.
  pose proof Ht as (Htcap & Htlen & _ & Htent).
  eapply Forall_lookup_1 in Htent as Hek; [|exact He].
  destruct (Hek Ho) as [Hk Hv].
  pose proof Hp as (Hpk & Hpv & _ & Hpe & _).
  pose proof (occupied_slots_take_bound (entries t) i) as Hb.
  apply lookup_lt_Some in He as Hi.
  destruct (set_body_lands fuel T (key e) (value e) h Hs) as (T' & h' & Hset & Hh' & Hl).
  { lia. }
  { rewrite Hpk. assumption. }
  { rewrite Hpv. assumption. }
  { assumption. }
  exists true, T', h'. split; [assumption|]. split; [assumption|].
  split; [|assumption].
  destruct (set_lands_frame _ _ _ _ Hl) as (Hp' & Hc' & _).
  destruct (set_lands_count _ _ _ _ Hs Hl) as (_ & Hcnt').
  unfold rehash_inv.
  rewrite (occupied_slots_take _ _ e) by assumption. rewrite Ho.
  split; [eapply set_lands_shape; eauto; [rewrite Hpk|rewrite Hpv]; assumption|].
  split; [lia|]. split; [eapply same_params_trans; eauto|].
  split; [lia|]. split.
  - intros j e' Hj Hoe'.
    destruct (set_lands_keys _ _ _ _ _ _ Hl Hj Hoe')
      as [(Hke & _)|(e1 & He1 & Ho1 & Hke)].
    + exists i, e. split; [lia|]. auto.
    + destruct (Hkeys j e1 He1 Ho1) as (j0 & e0 & ? & ? & ? & ?).
      exists j0, e0. split; [lia|]. split; [assumption|].
      split; [assumption|]. congruence.
  - intros Hd. specialize (Hdist Hd).
    destruct Hl as (d & ix & e1 & _ & _ & _ & He1 & [(Ho1 & Heq & ->)|(Ho1 & ->)]).
    + exfalso. destruct (Hkeys _ e1 He1 Ho1) as (j0 & e0 & Hj0 & He0 & Ho0 & Hk0).
      assert (i = j0); [|lia].
      apply (Hd i j0 e e0); try assumption.
      rewrite Hk0, <- Hpe. assumption.
    + cbn. lia.
Qed.

Lemma rehash_skip t i T e :
  rehash_inv t i T -> entries t !! i = Some e -> occupied e = false ->
  rehash_inv t (S i) T.
Proof.
  intros (Hs & Hc & Hp & Hcnt & Hkeys & Hdist) He Ho. unfold rehash_inv.
  rewrite (occupied_slots_take _ _ e) by assumption. rewrite Ho, Z.add_0_r.
  do 4 (split; [assumption|]). split; [|assumption].
  intros j e' Hj Hoe'. destruct (Hkeys j e' Hj Hoe') as (j0 & e0 & ? & ?).
  exists j0, e0. split; [lia|assumption].
Qed.

Lemma x_hashtable_rehash_inv (Inv : nat -> XHashtable -> Prop) fuel t h :
  shape_ok t -> capacity t <= MAX_CAPACITY -> allocations_succeed h ->
  Inv 0%nat (doubled t) ->
  (forall i T e, Inv i T -> entries t !! i = Some e -> occupied e = false ->
     Inv (S i) T) ->
  (forall i T e h,
     Inv i T -> allocations_succeed h ->
     entries t !! i = Some e -> occupied e = true ->
     exists b T' h',
       set_body (S fuel) T (key e) (value e) h = Ok ((b, T'), h') /\
       allocations_succeed h' /\ Inv (S i) T') ->
  exists T' h',
    x_hashtable_rehash (set_body (S fuel)) t h = Ok (T', h') /\
    Inv (length (entries t)) T' /\ allocations_succeed h'.
Proof.
  intros Hs Hmax Hh H0 Hskip Hmove. pose proof Hs as (Hcap & Hlen & _).
  unfold x_hashtable_rehash. cbn [capacity set_capacity].
  rewrite size_wrap_small
    by (unfold is_size_t, SIZE_MODULUS, MAX_CAPACITY in *; lia).
  replace (capacity t * 2) with (2 * capacity t) by lia.
  destruct (alloc_entries_ok (allocator t) (2 * capacity t) h Hh)
    as (h1 & Hal & Hh1); [lia|].
  cbn [allocator set_capacity]. erewrite bind_Ok by exact Hal.
  destruct (rehash_loop_inv Inv (set_body (S fuel)) (allocator t) (entries t)
              Hskip Hmove (Z.to_nat (capacity t)) 0%nat (doubled t) h1)
    as (T' & h2 & Hloop & HI & Hh2); [lia|assumption|assumption|].
  fold (doubled t). erewrite bind_Ok by exact Hloop.
  unfold bind, stdx_free, ret. simpl. eauto.
Qed.

Lemma set_body_via (Inv : nat -> XHashtable -> Prop) fuel t k v h :
  table_ok t -> 2 * capacity t <= MAX_CAPACITY ->
  valid_block (key_size t) k -> valid_block (value_size t) v ->
  allocations_succeed h ->
  (forall i T, Inv i T -> rehash_inv t i T) ->
  Inv 0%nat (doubled t) ->
  (forall i T e, Inv i T -> entries t !! i = Some e -> occupied e = false ->
     Inv (S i) T) ->
  (forall i T e h,
     Inv i T -> allocations_succeed h ->
     entries t !! i = Some e -> occupied e = true ->
     exists b T' h',
       set_body (S fuel) T (key e) (value e) h = Ok ((b, T'), h') /\
       allocations_succeed h' /\ Inv (S i) T') ->
  exists tm t' h',
    set_body (S (S fuel)) t k v h = Ok ((true, t'), h') /\
    allocations_succeed h' /\ set_probes Inv t tm /\ set_lands tm k v t'.
Proof.
  intros Hok Hmax Hk Hv Hh Hweak H0 Hskip Hmove.
  pose proof (table_ok_shape t Hok) as Hs.
  pose proof Hok as (Hcap & Hlen & Hcnt & Hload & Hent).
  unfold INITIAL_CAPACITY in Hcap.
  destruct (load_factor_reached (count t) (capacity t)) eqn:Hl.
  - apply load_true in Hl; [|lia].
    destruct (x_hashtable_rehash_inv Inv fuel t h Hs ltac:(lia) Hh H0 Hskip Hmove)
      as (tm & h1 & Hre & HI & Hh1).
    destruct (Hweak _ _ HI) as (Hsm & Hcm & Hpm & Hcntm & _).
    pose proof Hpm as (Hpk & Hpv & _).
    rewrite firstn_all in Hcntm.
    destruct (set_body_lands fuel tm k v h1 Hsm) as (t' & h' & Hset & Hh' & Hl');
      [lia|rewrite Hpk; assumption|rewrite Hpv; assumption|assumption|].
    exists tm, t', h'. split; [|split; [assumption|split; [right; auto|assumption]]].
    assert (Hlm : load_factor_reached (count tm) (capacity tm) = false)
      by (apply load_false; lia).
    cbn [set_body] in Hset |- *. rewrite Hlm in Hset.
    assert (Hlt : load_factor_reached (count t) (capacity t) = true)
      by (apply load_true; lia).
    rewrite Hlt. erewrite bind_Ok by exact Hre. exact Hset.
  - apply load_false in Hl; [|lia].
    destruct (set_body_lands (S fuel) t k v h Hs) as (t' & h' & Hset & Hh' & Hl');
      try assumption.
    exists t, t', h'. split; [assumption|]. split; [assumption|].
    split; [left; auto|assumption].
Qed.

(** *** [set] on a table that satisfies the invariant *)

(** A [set] on any table that satisfies the invariant. *)
Lemma set_body_ok fuel t k v h :
  table_ok t -> 2 * capacity t <= MAX_CAPACITY ->
  valid_block (key_size t) k -> valid_block (value_size t) v ->
  allocations_succeed h ->
  exists tm t' h',
    set_body (S (S fuel)) t k v h = Ok ((true, t'), h') /\
    allocations_succeed h' /\
    set_probes (rehash_inv t) t tm /\ set_lands tm k v t'.
Proof.
  intros Hok Hmax Hk Hv Hh. pose proof (table_ok_shape t Hok) as Hs.
  apply (set_body_via (rehash_inv t)); try assumption.
  - auto.
  - apply doubled_inv; [assumption|apply Hok].
  - apply rehash_skip.
  - intros i T e h0 HI Hh0 He Ho.
    destruct (rehash_move fuel t i T e h0 Hs HI Hh0 He Ho)
      as (b & T' & h' & ? & ? & ? & _).
    eauto 10.
Qed.

Lemma set_probes_frame t tm :
  table_ok t -> set_probes (rehash_inv t) t tm ->
  shape_ok tm /\ same_params t tm /\ 4 * count tm < 3 * capacity tm /\
  count tm <= count t /\
  (capacity tm = capacity t \/
   (capacity tm = 2 * capacity t /\ 3 * capacity t <= 4 * count t)).
Proof.
  intros Hok [(Hl & ->)|(Hl & (Hs & Hc & Hp & Hcnt & _))].
  - split; [apply table_ok_shape; assumption|].
    split; [apply same_params_refl|]. split; [lia|]. split; [lia|].
    left. reflexivity.
  - destruct Hok as (Hcap & Hlen & Hcount & _).
    rewrite firstn_all in Hcnt.
    pose proof (occupied_slots_range (entries t)).
    unfold INITIAL_CAPACITY in Hcap.
    split; [assumption|]. split; [assumption|]. split; [lia|]. split; [lia|].
    right. lia.
Qed.

Lemma set_body_table_ok t tm k v t' :
  table_ok t -> 2 * capacity t <= MAX_CAPACITY ->
  valid_block (key_size t) k -> valid_block (value_size t) v ->
  set_probes (rehash_inv t) t tm -> set_lands tm k v t' ->
  table_ok t' /\ same_params t t' /\ count t' <= count t + 1 /\
  (capacity t' = capacity t \/
   (capacity t' = 2 * capacity t /\ 3 * capacity t <= 4 * count t)).
Proof.
  intros Hok Hmax Hk Hv Hpr Hl.
  destruct (set_probes_frame t tm Hok Hpr) as (Hs & Hp & Hload & Hcnt & Hcap).
  pose proof Hp as (Hpk & Hpv & _).
  destruct (set_lands_frame _ _ _ _ Hl) as (Hp' & Hc' & Hlen').
  destruct (set_lands_count _ _ _ _ Hs Hl) as (Hcnt' & Hle).
  assert (Hs' : shape_ok t').
  { eapply set_lands_shape; eauto; [rewrite Hpk|rewrite Hpv]; assumption. }
  destruct Hs' as (_ & Hlen2 & _ & Hent2).
  destruct Hok as (Hcap0 & _).
  split; [|split; [eapply same_params_trans; eauto|split; [lia|lia]]].
  unfold table_ok, INITIAL_CAPACITY in *. split; [lia|]. split; [assumption|].
  split; [assumption|]. split; [lia|assumption].
Qed.

(** *** [remove], [get] and [has] *)

Lemma table_ok_size_mod t : table_ok t -> 0 < capacity t < SIZE_MODULUS.
Proof. intros H. apply shape_size_mod, table_ok_shape, H. Qed.

Lemma x_hashtable_remove_cases t k h :
  table_ok t ->
  exists i found,
    probe_index t k = Ok (i, found) /\
    probe_stops t k (home t k) i found /\ 0 <= i < capacity t /\
    if found
    then exists h', x_hashtable_remove (Some t) k h
                    = Ok ((true, Some (clear_at t i)), h') /\
                    plan h' = plan h
    else x_hashtable_remove (Some t) k h = Ok ((false, Some t), h).
Proof.
  intros Hok. pose proof (table_ok_size_mod t Hok) as Hsz.
  pose proof Hok as (Hcap & Hlen & Hcnt & Hload & _).
  destruct (probe_index_spec t k Hsz Hlen) as (i & found & Hrun & Hst & Hi).
  exists i, found. do 3 (split; [assumption|]).
  unfold x_hashtable_remove. unfold bind at 1. unfold lift at 1.
  rewrite Hrun. simpl. destruct found; simpl; [|reflexivity].
  destruct (slot_defined t i Hlen Hi) as [e He].
  unfold bind, lift, entry_at, store_entry, stdx_free, ret. rewrite He. simpl.
  assert (He' : entries t !! Z.to_nat i = Some e) by assumption.
  assert (Hc : 0 < count t).
  { destruct Hst as [(d & e0 & _ & _ & _ & He0 & [(Ho & _)|(_ & ?)])|(_ & ? & _)];
      try discriminate.
    pose proof (occupied_slots_insert (entries t) _ e0 null_entry He0) as Hins.
    rewrite Ho in Hins. simpl in Hins.
    pose proof (occupied_slots_range (<[Z.to_nat i:=null_entry]> (entries t))).
    lia. }
  rewrite size_wrap_small.
  - eexists. split; [reflexivity|reflexivity].
  - pose proof (occupied_slots_range (entries t)).
    unfold is_size_t, SIZE_MODULUS, MAX_CAPACITY in *. lia.
Qed.

Lemma clear_at_table_ok t k i :
  table_ok t -> probe_stops t k (home t k) i true -> table_ok (clear_at t i).
Proof.
  intros (Hcap & Hlen & Hcnt & Hload & Hent) Hst.
  destruct Hst as [(d & e0 & _ & _ & _ & He0 & [(Ho & _)|(_ & ?)])|(_ & ? & _)];
    try discriminate.
  unfold table_ok, clear_at. cbn.
  rewrite length_insert, (occupied_slots_insert _ _ e0) by assumption.
  rewrite Ho. simpl.
  split; [assumption|]. split; [assumption|]. split; [lia|]. split; [lia|].
  apply Forall_insert.
  - eapply Forall_impl; [|exact Hent]. intros e He. exact He.
  - intros ?. discriminate.
Qed.

Lemma x_hashtable_get_ok t k out :
  table_ok t -> valid_block (value_size t) out ->
  exists i found,
    probe_index t k = Ok (i, found) /\
    probe_stops t k (home t k) i found /\
    if found
    then exists e, entries t !! Z.to_nat i = Some e /\
                   x_hashtable_get (Some t) k out = Ok (true, value e)
    else x_hashtable_get (Some t) k out = Ok (false, out).
Proof.
  intros Hok Hout. pose proof (table_ok_size_mod t Hok) as Hsz.
  pose proof Hok as (Hcap & Hlen & Hcnt & Hload & Hent).
  destruct (probe_index_spec t k Hsz Hlen) as (i & found & Hrun & Hst & Hi).
  exists i, found. do 2 (split; [assumption|]).
  unfold x_hashtable_get. rewrite Hrun. simpl.
  destruct found; simpl; [|reflexivity].
  destruct Hst as [(d & e0 & _ & _ & _ & He0 & [(Ho & _)|(_ & ?)])|(_ & ? & _)];
    try discriminate.
  exists e0. split; [assumption|]. unfold entry_at. rewrite He0. simpl.
  eapply Forall_lookup_1 in Hent; [|exact He0]. destruct (Hent Ho) as [_ Hv].
  rewrite memcpy_valid by assumption. reflexivity.
Qed.

Lemma x_hashtable_has_ok t k :
  table_ok t ->
  exists i found,
    probe_index t k = Ok (i, found) /\
    probe_stops t k (home t k) i found /\
    x_hashtable_has (Some t) k = Ok found.
Proof.
  intros Hok. pose proof (table_ok_size_mod t Hok) as Hsz.
  pose proof Hok as (Hcap & Hlen & _).
  destruct (probe_index_spec t k Hsz Hlen) as (i & found & Hrun & Hst & Hi).
  exists i, found. do 2 (split; [assumption|]).
  unfold x_hashtable_has. rewrite Hrun. reflexivity.
Qed.

(** *** Runs of operations from [create] *)

Lemma empty_table_ok ks vs hf ef a : table_ok (empty_table ks vs hf ef a).
Proof.
  unfold table_ok, empty_table, INITIAL_CAPACITY, MAX_CAPACITY. cbn.
  split; [lia|]. split; [reflexivity|]. split; [reflexivity|]. split; [lia|].
  apply Forall_replicate. intros ?. discriminate.
Qed.

Lemma x_hashtable_create_ex_ok ks vs hf ef a h :
  allocations_succeed h ->
  exists h',
    x_hashtable_create_ex ks vs hf ef a h
    = Ok (Some (empty_table ks vs hf ef a), h') /\
    allocations_succeed h'.
Proof.
  intros Hh. unfold x_hashtable_create_ex.
  erewrite bind_Ok by (apply stdx_alloc_ok; assumption).
  destruct (alloc_entries_ok a INITIAL_CAPACITY (after_alloc a sizeof_XHashtable h))
    as (h' & Hal & Hh').
  { apply allocations_succeed_tail. assumption. }
  { unfold INITIAL_CAPACITY, MAX_CAPACITY. lia. }
  erewrite bind_Ok by exact Hal. unfold ret. eauto.
Qed.

Lemma sized_doubling m t :
  sized m t -> m < MAX_OPS -> 2 * capacity t <= MAX_CAPACITY.
Proof.
  unfold sized, MAX_OPS, MAX_CAPACITY. intros (_ & _ & H) Hm. lia.
Qed.

Lemma step_ok fuel t o h m :
  sized m t -> 0 <= m < MAX_OPS ->
  op_ok (key_size t) (value_size t) o -> allocations_succeed h ->
  exists t' h',
    step (S (S fuel)) (Some t) o h = Ok (Some t', h') /\
    allocations_succeed h' /\ sized (m + 1) t' /\ same_params t t'.
Proof.
  intros Hsz Hm Hop Hh. pose proof (sized_doubling m t Hsz ltac:(lia)) as Hmax.
  destruct Hsz as (Hok & Hcnt & Hcapm).
  destruct o as [k v|k out|k|k]; simpl in Hop.
  - destruct Hop as [Hk Hv].
    destruct (set_body_ok fuel t k v h Hok Hmax Hk Hv Hh)
      as (tm & t' & h' & Hset & Hh' & Hpr & Hl).
    destruct (set_body_table_ok t tm k v t' Hok Hmax Hk Hv Hpr Hl)
      as (Hok' & Hp' & Hc' & Hcap').
    exists t', h'. split.
    { unfold step, x_hashtable_set. unfold bind at 1. unfold bind at 1.
      rewrite Hset. reflexivity. }
    split; [assumption|]. split; [|assumption].
    unfold sized. split; [assumption|]. split; [lia|]. lia.
  - destruct (x_hashtable_get_ok t k out Hok Hop) as (i & found & _ & _ & Hget).
    exists t, h. split.
    { unfold step, bind, lift. destruct found.
      - destruct Hget as (e & _ & ->). reflexivity.
      - rewrite Hget. reflexivity. }
    split; [assumption|]. split; [|apply same_params_refl].
    unfold sized. split; [assumption|]. split; lia.
  - destruct (x_hashtable_has_ok t k Hok) as (i & found & _ & _ & Hhas).
    exists t, h. split.
    { unfold step, bind, lift. rewrite Hhas. reflexivity. }
    split; [assumption|]. split; [|apply same_params_refl].
    unfold sized. split; [assumption|]. split; lia.
  - destruct (x_hashtable_remove_cases t k h Hok) as (i & found & _ & Hst & _ & Hrm).
    destruct found.
    + destruct Hrm as (h' & Hrm & Hpl). exists (clear_at t i), h'. split.
      { unfold step. unfold bind at 1. rewrite Hrm. reflexivity. }
      split; [unfold allocations_succeed in *; rewrite Hpl; assumption|].
      split; [|unfold same_params; cbn; tauto].
      unfold sized. split; [eapply clear_at_table_ok; eauto|].
      cbn. split; lia.
    + exists t, h. split.
      { unfold step. unfold bind at 1. rewrite Hrm. reflexivity. }
      split; [assumption|]. split; [|apply same_params_refl].
      unfold sized. split; [assumption|]. split; lia.
Qed.

Lemma run_ok fuel ops :
  forall t h m,
    sized m t -> 0 <= m -> m + Z.of_nat (length ops) <= MAX_OPS ->
    Forall (op_ok (key_size t) (value_size t)) ops ->
    allocations_succeed h ->
    exists t' h',
      run (S (S fuel)) (Some t) ops h = Ok (Some t', h') /\
      allocations_succeed h' /\
      sized (m + Z.of_nat (length ops)) t' /\ same_params t t'.
Proof.
  induction ops as [|o ops IH]; intros t h m Hsz Hm Hlen Hops Hh.
  - exists t, h. simpl. rewrite Z.add_0_r. unfold ret.
    split; [reflexivity|]. split; [assumption|]. split; [assumption|].
    apply same_params_refl.
  - simpl length in *. apply Forall_cons_1 in Hops as [Ho Hops].
    destruct (step_ok fuel t o h m Hsz ltac:(lia) Ho Hh)
      as (t1 & h1 & Hstep & Hh1 & Hsz1 & Hp1).
    pose proof Hp1 as (Hpk & Hpv & _).
    destruct (IH t1 h1 (m + 1) Hsz1 ltac:(lia) ltac:(lia)) as (t' & h' & Hrun & Hh' & Hsz' & Hp');
      [rewrite Hpk, Hpv; assumption|assumption|].
    exists t', h'. split.
    { cbn [run]. erewrite bind_Ok by exact Hstep. exact Hrun. }
    split; [assumption|]. split; [|eapply same_params_trans; eauto].
    replace (m + Z.of_nat (S (length ops))) with (m + 1 + Z.of_nat (length ops)) by lia.
    assumption.
Qed.

(** C3: in every state reached from [create] by [set], [get], [has] and
    [remove], [count <= capacity], and the table is never full. *)
Theorem count_below_capacity (ks vs : Z) (hf : HashFn) (ef : EqualsFn)
    (a : XAllocator_ref) (fuel : nat) (ops : list op) (h : heap)
    (Hheap : allocations_succeed h)
    (Hops : Forall (op_ok ks vs) ops)
    (Hlen : Z.of_nat (length ops) <= MAX_OPS) :
  exists t h',
    create_then_run ks vs hf ef a (S (S fuel)) ops h = Ok (Some t, h') /\
    count t <= capacity t /\ count t < capacity t.
Proof.
  destruct (x_hashtable_create_ex_ok ks vs hf ef a h Hheap) as (h0 & Hcr & Hh0).
  destruct (run_ok fuel ops (empty_table ks vs hf ef a) h0 0) as (t & h' & Hrun & _ & Hsz & _).
  - unfold sized. split; [apply empty_table_ok|]. cbn. unfold INITIAL_CAPACITY. lia.
  - lia.
  - lia.
  - exact Hops.
  - exact Hh0.
  - exists t, h'. split.
    { unfold create_then_run. erewrite bind_Ok by exact Hcr. exact Hrun. }
    destruct Hsz as ((Hcap & _ & _ & Hload & _) & _).
    unfold INITIAL_CAPACITY in Hcap. lia.
Qed.

(** *** Tables built by [set] alone: no gap, no key twice *)

Lemma home_frame t t' k :
  same_params t t' -> capacity t' = capacity t -> home t' k = home t k.
Proof. intros (_ & _ & Hh & _) Hc. unfold home. rewrite Hh, Hc. reflexivity. Qed.

Lemma pos_frame t t' s d : capacity t' = capacity t -> pos t' s d = pos t s d.
Proof. intros Hc. unfold pos. rewrite Hc. reflexivity. Qed.

Lemma slot_index t j e :
  shape_ok t -> entries t !! j = Some e ->
  0 <= Z.of_nat j < capacity t /\ Z.to_nat (Z.of_nat j) = j.
Proof.
  intros (Hcap & Hlen & _) He. apply lookup_lt_Some in He. lia.
Qed.

(** A [set] keeps the slots between a key's home and its slot occupied. *)
Lemma set_lands_no_gap t k v t' :
  shape_ok t -> no_gap t -> set_lands t k v t' -> no_gap t'.
Proof.
  intros Hs Hng Hl.
  destruct (set_lands_frame _ _ _ _ Hl) as (Hp & Hc & _).
  pose proof Hs as (Hcap & Hlen & _).
  assert (Hold : forall j e0 e', 0 <= j < capacity t ->
            entries t !! Z.to_nat j = Some e0 -> occupied e0 = true ->
            key e' = key e0 ->
            forall d, 0 <= d < (j - home t' (key e')) mod capacity t' ->
              exists e'', entries t' !! Z.to_nat (pos t' (home t' (key e')) d)
                          = Some e'' /\ occupied e'' = true).
  { intros j e0 e' Hj He0 Ho0 Hk d Hd.
    rewrite (home_frame t t') in * by assumption.
    rewrite (pos_frame t t') by assumption. rewrite Hc, Hk in *.
    destruct (Hng j e0 Hj He0 Ho0 d Hd) as (e1 & He1 & Ho1).
    destruct (set_lands_keeps _ _ _ _ _ _ Hl He1 Ho1) as (e2 & ? & ? & _).
    eauto. }
  intros j e' Hj He' Ho' d Hd. rewrite Hc in Hj.
  destruct Hl as (d0 & i & e & Hd0 & Hi & Hpre & He & [(Ho & Heq & ->)|(Ho & ->)]);
    cbn [entries update_at insert_at set_entries set_count] in He'.
  - apply list_lookup_insert_Some in He' as [(Hij & Hx & _)|(_ & He')].
    + apply (Hold j e e'); try assumption.
      * rewrite <- Hij. assumption.
      * rewrite <- Hx. reflexivity.
    + apply (Hold j e' e'); auto.
  - apply list_lookup_insert_Some in He' as [(Hij & Hx & _)|(_ & He')].
    + assert (Hi0 : 0 <= i < capacity t) by (subst i; apply pos_range; lia).
      assert (j = i) by lia. subst j. subst e'.
      cbn [key new_entry] in *.
      rewrite (home_frame t) in * by assumption.
      rewrite (pos_frame t) by assumption.
      cbn [capacity insert_at set_entries set_count] in Hd.
      rewrite Hi, offset_pos in Hd by (try apply home_range; lia).
      destruct (Hpre d Hd) as (e1 & He1 & Ho1 & _).
      exists e1. split; [|assumption].
      cbn [entries insert_at set_entries set_count].
      rewrite list_lookup_insert_ne; [assumption|].
      intros Heq. rewrite Heq in He. congruence.
    + apply (Hold j e' e'); auto.
Qed.

(** A probe that stopped at a free slot saw every slot where a key equal
    to [k] could be. *)
Lemma probe_miss_absent t k d e :
  shape_ok t -> consistent (hash_fn t) (eq_fn t) -> no_gap t ->
  0 <= d < capacity t ->
  (forall d', 0 <= d' < d -> blocked t k (pos t (home t k) d')) ->
  entries t !! Z.to_nat (pos t (home t k) d) = Some e -> occupied e = false ->
  absent t k.
Proof.
  intros Hs (_ & _ & _ & Hhash) Hng Hd Hpre He Ho j ej Hej Hoj.
  destruct (eq_fn t k (key ej)) eqn:Heq; [exfalso|reflexivity].
  destruct (slot_index t j ej Hs Hej) as [Hj Hjj].
  pose proof Hs as (Hcap & _).
  assert (Hhome : home t (key ej) = home t k).
  { unfold home. rewrite (Hhash _ _ Heq). reflexivity. }
  pose proof (home_range t k ltac:(lia)) as Hh.
  set (dj := (Z.of_nat j - home t k) mod capacity t).
  assert (Hdj : 0 <= dj < capacity t) by (apply Z.mod_pos_bound; lia).
  assert (Hpos : pos t (home t k) dj = Z.of_nat j) by (apply pos_offset; lia).
  destruct (Z.lt_trichotomy dj d) as [Hlt|[Heqd|Hgt]].
  - destruct (Hpre dj ltac:(lia)) as (e1 & He1 & _ & Hne).
    rewrite Hpos, Hjj in He1. congruence.
  - rewrite <- Heqd, Hpos, Hjj in He. congruence.
  - rewrite <- Hjj in Hej.
    destruct (Hng (Z.of_nat j) ej Hj Hej Hoj d) as (e1 & He1 & Ho1).
    { rewrite Hhome. fold dj. lia. }
    rewrite Hhome in He1. congruence.
Qed.

Lemma set_lands_view t k v t' :
  shape_ok t -> consistent (hash_fn t) (eq_fn t) ->
  no_gap t -> distinct t ->
  set_lands t k v t' -> set_view t k v t'.
Proof.
  intros Hs Hcons Hng Hdis (d & i & e & Hd & Hi & Hpre & He & Hcase).
  pose proof Hcons as (Hrefl & Hsym & Htrans & _).
  destruct Hcase as [(Ho & Heq & ->)|(Ho & ->)].
  - exists (Z.to_nat i), (set_value e v), e.
    split; [assumption|]. split; [reflexivity|]. split; [assumption|].
    split; [reflexivity|]. split; [assumption|]. split; [|left; auto].
    intros j ej Hne Hej Hoj.
    destruct (eq_fn t k (key ej)) eqn:Hkj; [exfalso|reflexivity].
    apply Hne. apply (Hdis j (Z.to_nat i) ej e); try assumption.
    eapply Htrans; [apply Hsym; eassumption|assumption].
  - assert (Habs : absent t k).
    { subst i. eapply probe_miss_absent; eauto. }
    exists (Z.to_nat i), (new_entry k v), e.
    split; [assumption|]. split; [reflexivity|]. split; [reflexivity|].
    split; [reflexivity|]. split; [apply Hrefl|]. split; [|right; auto].
    intros j ej _ Hej Hoj. eapply Habs; eauto.
Qed.

Lemma set_view_distinct t k v t' :
  consistent (hash_fn t) (eq_fn t) -> eq_fn t' = eq_fn t ->
  distinct t -> set_view t k v t' -> distinct t'.
Proof.
  intros (Hrefl & Hsym & Htrans & _) Hef Hdis
    (i & x & e & He & Hent & Hox & Hvx & Hkx & Hothers & _).
  intros a b ea eb Ha Hb Hoa Hob Heq. rewrite Hent in Ha, Hb. rewrite Hef in Heq.
  apply list_lookup_insert_Some in Ha as [(<- & <- & _)|(Hai & Ha)];
    apply list_lookup_insert_Some in Hb as [(Hbi & Hxb & _)|(Hbi & Hb)].
  - assumption.
  - exfalso.
    assert (H : eq_fn t k (key eb) = true)
      by (eapply Htrans; [exact Hkx|exact Heq]).
    rewrite (Hothers b eb) in H; [discriminate|congruence|assumption|assumption].
  - exfalso. subst b. subst eb.
    assert (H : eq_fn t k (key ea) = true).
    { eapply Htrans; [exact Hkx|]. apply Hsym. assumption. }
    rewrite (Hothers a ea) in H; [discriminate|congruence|assumption|assumption].
  - eapply Hdis; eauto.
Qed.

Lemma set_view_holds t k v t' :
  consistent (hash_fn t) (eq_fn t) -> eq_fn t' = eq_fn t ->
  set_view t k v t' ->
  forall k' v',
    holds t' k' v' <->
    (if eq_fn t k' k then v' = v else holds t k' v').
Proof.
  intros (Hrefl & Hsym & Htrans & _) Hef
    (i & x & e & He & Hent & Hox & Hvx & Hkx & Hothers & Hcase) k' v'.
  unfold holds. rewrite Hef, Hent. split.
  - intros (j & ej & Hj & Hoj & Hkj & Hvj).
    apply list_lookup_insert_Some in Hj as [(<- & <- & _)|(Hji & Hj)].
    + assert (Hk'k : eq_fn t k' k = true).
      { eapply Htrans; [exact Hkj|]. apply Hsym. assumption. }
      rewrite Hk'k. congruence.
    + destruct (eq_fn t k' k) eqn:Hk'k.
      * exfalso. assert (eq_fn t k (key ej) = true).
        { eapply Htrans; [apply Hsym; exact Hk'k|assumption]. }
        rewrite (Hothers j ej) in H; [discriminate|congruence|assumption|assumption].
      * eauto 10.
  - destruct (eq_fn t k' k) eqn:Hk'k.
    + intros ->. exists i, x. split.
      { apply list_lookup_insert_eq. eapply lookup_lt_Some; eauto. }
      split; [assumption|]. split; [eapply Htrans; eauto|assumption].
    + intros (j & ej & Hj & Hoj & Hkj & Hvj). exists j, ej.
      split; [|auto]. apply list_lookup_insert_Some. right. split; [|assumption].
      intros <-. rewrite He in Hj. injection Hj as <-.
      destruct Hcase as [(_ & Hke & _)|(Hf & _)]; [|congruence].
      assert (eq_fn t k' k = true); [|congruence].
      eapply Htrans; [exact Hkj|]. apply Hsym. rewrite <- Hke. assumption.
Qed.

Lemma set_view_count t k v t' :
  consistent (hash_fn t) (eq_fn t) ->
  set_view t k v t' ->
  (present t k -> count t' = count t) /\
  (absent t k -> count t' = count t + 1).
Proof.
  intros (Hrefl & Hsym & Htrans & _)
    (i & x & e & He & Hent & Hox & Hvx & Hkx & Hothers & Hcase).
  destruct Hcase as [(Ho & Hke & Hc)|(Ho & Hke & Hc & Habs)].
  - split; [auto|]. intros Habs. exfalso.
    rewrite Hke, (Habs i e) in Hkx; [discriminate|assumption|assumption].
  - split; [|auto]. intros (j & ej & Hj & Hoj & Hkj). exfalso.
    rewrite (Habs j ej) in Hkj; [discriminate|assumption|assumption].
Qed.

Lemma doubled_strong t :
  shape_ok t -> capacity t <= MAX_CAPACITY -> rehash_strong t 0 (doubled t).
Proof.
  intros Hs Hmax. split; [apply doubled_inv; assumption|].
  assert (Hempty : forall j e, entries (doubled t) !! j = Some e ->
                               occupied e = true -> False).
  { unfold doubled. cbn. intros j e [-> _]%lookup_replicate. discriminate. }
  split; [|split; [|intros _ k v; split]].
  - intros j e _ He Ho. exfalso. eauto.
  - intros a b ea eb Ha _ Hoa. exfalso. eauto.
  - intros (j & e & He & Ho & _). exfalso. eauto.
  - intros (j0 & _ & Hlt & _). lia.
Qed.

Lemma rehash_skip_strong t i T e :
  rehash_strong t i T -> entries t !! i = Some e -> occupied e = false ->
  rehash_strong t (S i) T.
Proof.
  intros (Hinv & Hng & Hdis & Hholds) He Ho.
  split; [eapply rehash_skip; eauto|]. split; [assumption|].
  split; [assumption|]. intros Hd k v. rewrite (Hholds Hd k v).
  unfold moved. split; intros (j0 & e0 & Hlt & He0 & Ho0 & Hrest).
  - exists j0, e0. split; [lia|auto].
  - exists j0, e0. split; [|auto].
    destruct (decide (j0 = i)) as [->|]; [congruence|lia].
Qed.

Lemma consistent_params t T :
  same_params t T -> consistent (hash_fn t) (eq_fn t) ->
  consistent (hash_fn T) (eq_fn T).
Proof. intros (_ & _ & -> & -> & _). auto. Qed.

Lemma rehash_move_strong fuel t i T e h :
  shape_ok t -> consistent (hash_fn t) (eq_fn t) ->
  rehash_strong t i T -> allocations_succeed h ->
  entries t !! i = Some e -> occupied e = true ->
  exists b T' h',
    set_body (S fuel) T (key e) (value e) h = Ok ((b, T'), h') /\
    allocations_succeed h' /\ rehash_strong t (S i) T'.
Proof.
  intros Hs Hcons (Hinv & Hng & Hdis & Hholds) Hh He Ho.
  destruct (rehash_move fuel t i T e h Hs Hinv Hh He Ho)
    as (b & T' & h' & Hset & Hh' & Hinv' & Hl).
  exists b, T', h'. split; [assumption|]. split; [assumption|].
  pose proof Hinv as (HsT & _ & HpT & _).
  pose proof (consistent_params t T HpT Hcons) as HconsT.
  destruct (set_lands_frame _ _ _ _ Hl) as ((_ & _ & _ & Hef & _) & _ & _).
  pose proof (set_lands_view T _ _ T' HsT HconsT Hng Hdis Hl) as Hview.
  split; [assumption|]. split; [eapply set_lands_no_gap; eauto|].
  split; [eapply set_view_distinct; eauto|].
  intros Hd k v. rewrite (set_view_holds T _ _ T' HconsT Hef Hview k v).
  pose proof HpT as (_ & _ & _ & HefT & _). rewrite HefT.
  pose proof Hcons as (Hrefl & Hsym & Htrans & _).
  destruct (eq_fn t k (key e)) eqn:Hke.
  - split.
    + intros ->. exists i, e. split; [lia|auto].
    + intros (j0 & e0 & Hlt & He0 & Ho0 & Hk0 & Hv0).
      assert (j0 = i); [|subst j0; congruence].
      apply (Hd j0 i e0 e); try assumption.
      eapply Htrans; [apply Hsym; exact Hk0|exact Hke].
  - rewrite (Hholds Hd k v). unfold moved.
    split; intros (j0 & e0 & Hlt & He0 & Ho0 & Hk0 & Hv0).
    + exists j0, e0. split; [lia|auto].
    + exists j0, e0. split; [|auto].
      destruct (decide (j0 = i)) as [->|]; [congruence|lia].
Qed.

Lemma moved_all t k v :
  moved t (length (entries t)) k v <-> holds t k v.
Proof.
  unfold moved, holds. split.
  - intros (j & e & _ & H). eauto.
  - intros (j & e & He & H). exists j, e. split; [|auto].
    eapply lookup_lt_Some; eauto.
Qed.

Lemma present_holds t k : present t k <-> exists v, holds t k v.
Proof.
  unfold present, holds. split.
  - intros (i & e & ? & ? & ?). eauto 10.
  - intros (v & i & e & ? & ? & ? & _). eauto.
Qed.

Lemma absent_not_present t k : absent t k <-> ~ present t k.
Proof.
  unfold absent, present. split.
  - intros H (i & e & He & Ho & Hk). rewrite (H i e He Ho) in Hk. discriminate.
  - intros H i e He Ho. destruct (eq_fn t k (key e)) eqn:Hk; [|reflexivity].
    exfalso. apply H. exists i, e. auto.
Qed.

(** A [set] on a table built by [set] alone. *)
Lemma set_body_strong fuel t k v h :
  table_strong t -> 2 * capacity t <= MAX_CAPACITY ->
  valid_block (key_size t) k -> valid_block (value_size t) v ->
  allocations_succeed h ->
  exists t' h',
    set_body (S (S fuel)) t k v h = Ok ((true, t'), h') /\
    allocations_succeed h' /\ table_strong t' /\ same_params t t' /\
    (capacity t' = capacity t \/
     (capacity t' = 2 * capacity t /\ 3 * capacity t <= 4 * count t)) /\
    (forall k' v', holds t' k' v' <->
                   (if eq_fn t k' k then v' = v else holds t k' v')) /\
    (present t k -> count t' = count t) /\
    (absent t k -> count t' = count t + 1).
Proof.
  intros (Hok & Hcons & Hng & Hdis) Hmax Hk Hv Hh.
  pose proof (table_ok_shape t Hok) as Hs.
  destruct (set_body_via (rehash_strong t) fuel t k v h Hok Hmax Hk Hv Hh)
    as (tm & t' & h' & Hset & Hh' & Hpr & Hl).
  { intros i T H. apply H. }
  { apply doubled_strong; [assumption|apply Hok]. }
  { apply rehash_skip_strong. }
  { intros. eapply rehash_move_strong; eauto. }
  exists t', h'. split; [assumption|]. split; [assumption|].
  assert (Hweak : set_probes (rehash_inv t) t tm).
  { destruct Hpr as [?|(? & H)]; [left; assumption|right]. split; [assumption|apply H]. }
  destruct (set_body_table_ok t tm k v t' Hok Hmax Hk Hv Hweak Hl)
    as (Hok' & Hp' & _ & Hcap').
  destruct (set_probes_frame t tm Hok Hweak) as (Hsm & Hpm & _).
  pose proof (consistent_params t tm Hpm Hcons) as Hconsm.
  assert (Hmid : no_gap tm /\ distinct tm /\ count tm = count t /\
                 forall k' v', holds tm k' v' <-> holds t k' v').
  { destruct Hpr as [(_ & ->)|(_ & (Hinv & Hngm & Hdism & Hholds))].
    - repeat split; auto.
    - destruct Hinv as (_ & _ & _ & _ & _ & Hcnt).
      split; [assumption|]. split; [assumption|]. split.
      + rewrite (Hcnt Hdis), firstn_all. symmetry. apply Hok.
      + intros k' v'. rewrite (Hholds Hdis). apply moved_all. }
  destruct Hmid as (Hngm & Hdism & Hcntm & Hholdsm).
  destruct (set_lands_frame _ _ _ _ Hl) as ((_ & _ & _ & Hef & _) & _ & _).
  pose proof (set_lands_view tm _ _ t' Hsm Hconsm Hngm Hdism Hl) as Hview.
  pose proof Hpm as (_ & _ & _ & Hefm & _).
  split.
  { split; [assumption|]. split; [eapply consistent_params; eauto|].
    split; [eapply set_lands_no_gap; eauto|eapply set_view_distinct; eauto]. }
  split; [assumption|]. split; [assumption|]. split.
  { intros k' v'. rewrite (set_view_holds tm _ _ t' Hconsm Hef Hview k' v').
    rewrite Hefm. destruct (eq_fn t k' k); [reflexivity|apply Hholdsm]. }
  destruct (set_view_count tm k v t' Hconsm Hview) as (Hpres & Habs).
  assert (Hpeq : present tm k <-> present t k).
  { rewrite !present_holds. split; intros (v0 & H0); exists v0; apply Hholdsm; assumption. }
  split.
  - intros Hp. rewrite <- Hcntm. apply Hpres, Hpeq, Hp.
  - intros Ha. rewrite <- Hcntm. apply Habs.
    apply absent_not_present. rewrite Hpeq. apply absent_not_present, Ha.
Qed.

(** *** Runs of [set] calls *)

Lemma probe_not_found_absent t k i :
  shape_ok t -> consistent (hash_fn t) (eq_fn t) -> no_gap t ->
  probe_stops t k (home t k) i false -> absent t k.
Proof.
  intros Hs Hcons Hng [(d & e & Hd & -> & Hpre & He & Hcase)|(_ & _ & Hfull)].
  - destruct Hcase as [(_ & _ & ?)|(Ho & _)]; [discriminate|].
    eapply probe_miss_absent; eauto.
  - intros j ej Hej Hoj. destruct (slot_index t j ej Hs Hej) as [Hj Hjj].
    pose proof Hs as (Hcap & _).
    pose proof (home_range t k ltac:(lia)) as Hh.
    destruct (Hfull ((Z.of_nat j - home t k) mod capacity t))
      as (e1 & He1 & _ & Hne).
    { apply Z.mod_pos_bound. lia. }
    rewrite pos_offset, Hjj in He1 by lia. congruence.
Qed.

Lemma run_app fuel ops1 ops2 :
  forall t h,
    run fuel t (ops1 ++ ops2) h
    = bind (run fuel t ops1) (fun t' => run fuel t' ops2) h.
Proof.
  induction ops1 as [|o ops1 IH]; intros t h; [reflexivity|].
  simpl. unfold bind. destruct (step fuel t o h) as [[t1 h1]| |];
    [|reflexivity|reflexivity].
  rewrite IH. reflexivity.
Qed.

Lemma empty_table_strong ks vs hf ef a :
  consistent hf ef -> table_strong (empty_table ks vs hf ef a).
Proof.
  intros Hcons.
  assert (Hempty : forall j e, entries (empty_table ks vs hf ef a) !! j = Some e ->
                               occupied e = true -> False).
  { cbn. intros j e [-> _]%lookup_replicate. discriminate. }
  split; [apply empty_table_ok|]. split; [assumption|]. split.
  - intros j e _ He Ho. exfalso. eauto.
  - intros i j ei ej Hi _ Hoi. exfalso. eauto.
Qed.

(** The table after a run of [set] calls on the empty table. *)
Lemma run_sets_strong ks vs hf ef a fuel kvs :
  consistent hf ef ->
  Forall (kv_ok ks vs) kvs -> Z.of_nat (length kvs) <= MAX_OPS ->
  forall h, allocations_succeed h ->
  exists t h',
    run (S (S fuel)) (Some (empty_table ks vs hf ef a)) (sets kvs) h
    = Ok (Some t, h') /\
    allocations_succeed h' /\ table_strong t /\
    sized (Z.of_nat (length kvs)) t /\
    same_params (empty_table ks vs hf ef a) t /\
    (forall k v, holds t k v <-> last_set ef (rev kvs) k = Some v) /\
    count t = count_keys ef (rev kvs).
Proof.
  intros Hcons. induction kvs as [|[k v] kvs IH] using rev_ind;
    intros Hkvs Hlen h Hh.
  - exists (empty_table ks vs hf ef a), h. split; [reflexivity|].
    split; [assumption|]. split; [apply empty_table_strong; assumption|].
    split.
    { split; [apply empty_table_ok|]. cbn. unfold INITIAL_CAPACITY. lia. }
    split; [apply same_params_refl|]. split; [|reflexivity].
    intros k v. cbn. split; [|discriminate].
    intros (j & e & [-> _]%lookup_replicate & ? & _). discriminate.
  - apply Forall_app in Hkvs as [Hkvs Hkv].
    apply Forall_cons_1 in Hkv as [[Hk Hv] _]. cbn [fst snd] in Hk, Hv.
    rewrite length_app in Hlen |- *. cbn [length] in Hlen |- *.
    destruct (IH Hkvs ltac:(lia) h Hh)
      as (t1 & h1 & Hrun & Hh1 & Hst1 & Hsz1 & Hp1 & Hholds1 & Hcnt1).
    pose proof Hp1 as (Hpk & Hpv & _ & Hpe & _). cbn in Hpk, Hpv, Hpe.
    pose proof (sized_doubling _ t1 Hsz1 ltac:(unfold MAX_OPS in *; lia)) as Hmax.
    destruct (set_body_strong fuel t1 k v h1 Hst1 Hmax)
      as (t' & h' & Hset & Hh' & Hst' & Hp' & Hcap' & Hholds' & Hpres & Habs);
      [rewrite Hpk; assumption|rewrite Hpv; assumption|assumption|].
    exists t', h'. split.
    { unfold sets. rewrite map_app, run_app. erewrite bind_Ok by exact Hrun.
      cbn [map run step fst snd x_hashtable_set]. unfold bind, ret.
      rewrite Hset. reflexivity. }
    split; [assumption|]. split; [assumption|].
    destruct Hsz1 as (_ & Hc1 & Hcap1).
    assert (Hcnt' : count t' = count t1
                    + match last_set ef (rev kvs) k with Some _ => 0 | None => 1 end).
    { destruct (last_set ef (rev kvs) k) as [v0|] eqn:Hlast.
      - rewrite Z.add_0_r. apply Hpres. apply present_holds. exists v0.
        apply Hholds1. assumption.
      - apply Habs. apply absent_not_present. rewrite present_holds.
        intros (v0 & H0). apply Hholds1 in H0. congruence. }
    split.
    { split; [apply Hst'|].
      destruct (last_set ef (rev kvs) k); lia. }
    split; [eapply same_params_trans; eauto|].
    rewrite rev_app_distr. cbn [rev app last_set count_keys]. split.
    + intros k' v'. rewrite (Hholds' k' v'), Hpe.
      destruct (ef k' k); [|apply Hholds1].
      split; [intros ->; reflexivity|intros [= ->]; reflexivity].
    + rewrite Hcnt', Hcnt1. reflexivity.
Qed.

Lemma elem_of_rev {A} (x : A) (l : list A) : x ∈ rev l <-> x ∈ l.
Proof. rewrite !list_elem_of_In. symmetry. apply in_rev. Qed.

Lemma last_set_None ef l k :
  (forall kv0, kv0 ∈ l -> ef k (fst kv0) = false) -> last_set ef l k = None.
Proof.
  induction l as [|[k0 v0] l IH]; intros H; [reflexivity|]. simpl.
  pose proof (H (k0, v0) ltac:(left)) as H0. cbn [fst] in H0. rewrite H0.
  apply IH. intros kv0 Hin. apply H. right. assumption.
Qed.

Lemma count_keys_distinct ef kvs :
  pairwise_distinct ef (map fst kvs) ->
  count_keys ef (rev kvs) = Z.of_nat (length kvs).
Proof.
  induction kvs as [|[k v] kvs IH] using rev_ind; intros Hd; [reflexivity|].
  rewrite rev_app_distr, length_app. cbn [rev app count_keys length].
  rewrite map_app in Hd. cbn [map fst] in Hd.
  rewrite last_set_None, IH.
  - lia.
  - intros i j ki kj Hi Hj Hne. apply (Hd i j); try assumption.
    + apply lookup_app_l_Some. assumption.
    + apply lookup_app_l_Some. assumption.
  - intros [k0 v0] Hin. cbn [fst]. apply (proj1 (elem_of_rev _ _)) in Hin.
    apply list_elem_of_lookup in Hin as [i Hi].
    assert (Hi' : map fst kvs !! i = Some k0).
    { change (map fst kvs) with (fst <$> kvs). rewrite list_lookup_fmap, Hi. reflexivity. }
    apply (Hd (length (map fst kvs)) i).
    + rewrite lookup_app_r by lia. rewrite Nat.sub_diag. reflexivity.
    + apply lookup_app_l_Some. assumption.
    + apply lookup_lt_Some in Hi'. lia.
Qed.

(** C1: after any run of [set] calls on a new table, across any number of
    rehashes, [get(k)] finds every key that was set and copies out the
    value of the most recent [set] of a key equal to [k] (and reports a
    key that was never set as not found). *)
Theorem get_returns_last_set (ks vs : Z) (hf : HashFn) (ef : EqualsFn)
    (a : XAllocator_ref) (fuel : nat) (kvs : list (pointer * pointer))
    (h : heap)
    (Hcons : consistent hf ef)
    (Hheap : allocations_succeed h)
    (Hkvs : Forall (kv_ok ks vs) kvs)
    (Hlen : Z.of_nat (length kvs) <= MAX_OPS) :
  exists t h',
    create_then_run ks vs hf ef a (S (S fuel)) (sets kvs) h = Ok (Some t, h') /\
    forall k out,
      valid_block vs out ->
      x_hashtable_get (Some t) k out
      = match last_set ef (rev kvs) k with
        | Some v => Ok (true, v)
        | None => Ok (false, out)
        end.
Proof.
  destruct (x_hashtable_create_ex_ok ks vs hf ef a h Hheap) as (h0 & Hcr & Hh0).
  destruct (run_sets_strong ks vs hf ef a fuel kvs Hcons Hkvs Hlen h0 Hh0)
    as (t & h' & Hrun & _ & (Hok & Hcons' & Hng & Hdis) & _ & Hp & Hholds & _).
  exists t, h'. split.
  { unfold create_then_run. erewrite bind_Ok by exact Hcr. exact Hrun. }
  intros k out Hout. pose proof Hp as (_ & Hpv & _). cbn in Hpv.
  destruct (x_hashtable_get_ok t k out Hok) as (i & found & _ & Hst & Hget);
    [rewrite Hpv; assumption|].
  destruct found.
  - destruct Hget as (e & He & ->).
    destruct Hst as [(d & e0 & _ & _ & _ & He0 & [(Ho & Hk & _)|(_ & ?)])|(_ & ? & _)];
      try discriminate.
    assert (e0 = e) by congruence. subst e0.
    assert (Hh : holds t k (value e)) by (exists (Z.to_nat i), e; auto).
    apply Hholds in Hh. rewrite Hh. reflexivity.
  - rewrite Hget.
    pose proof (probe_not_found_absent t k i (table_ok_shape t Hok) Hcons' Hng Hst)
      as Habs.
    destruct (last_set ef (rev kvs) k) as [v|] eqn:Hlast; [exfalso|reflexivity].
    apply Hholds in Hlast. apply absent_not_present in Habs. apply Habs.
    apply present_holds. eauto.
Qed.

(** C5: after [set] calls with pairwise distinct keys on a new table the
    count is the number of calls, and a further [set] of a key that is
    present in the table leaves the count as it is. *)
Theorem count_after_sets (ks vs : Z) (hf : HashFn) (ef : EqualsFn)
    (a : XAllocator_ref) (fuel : nat) (kvs : list (pointer * pointer))
    (h : heap)
    (Hcons : consistent hf ef)
    (Hheap : allocations_succeed h)
    (Hkvs : Forall (kv_ok ks vs) kvs)
    (Hlen : Z.of_nat (length kvs) < MAX_OPS) :
  exists t h',
    create_then_run ks vs hf ef a (S (S fuel)) (sets kvs) h = Ok (Some t, h') /\
    (pairwise_distinct ef (map fst kvs) ->
       x_hashtable_count (Some t) = Z.of_nat (length kvs)) /\
    (forall k v,
       kv_ok ks vs (k, v) -> present t k ->
       exists t' h'',
         x_hashtable_set (S (S fuel)) (Some t) k v h'
         = Ok ((true, Some t'), h'') /\
         x_hashtable_count (Some t') = x_hashtable_count (Some t)).
Proof.
  destruct (x_hashtable_create_ex_ok ks vs hf ef a h Hheap) as (h0 & Hcr & Hh0).
  destruct (run_sets_strong ks vs hf ef a fuel kvs Hcons Hkvs ltac:(lia) h0 Hh0)
    as (t & h' & Hrun & Hh' & Hst & Hsz & Hp & Hholds & Hcnt).
  exists t, h'. split.
  { unfold create_then_run. erewrite bind_Ok by exact Hcr. exact Hrun. }
  split.
  - intros Hd. cbn. rewrite Hcnt. apply count_keys_distinct. assumption.
  - intros k v [Hk Hv] Hpr. cbn [fst snd] in Hk, Hv.
    pose proof Hp as (Hpk & Hpv & _). cbn in Hpk, Hpv.
    pose proof (sized_doubling _ t Hsz ltac:(lia)) as Hmax.
    destruct (set_body_strong fuel t k v h' Hst Hmax)
      as (t' & h'' & Hset & _ & _ & _ & _ & _ & Hpres & _);
      [rewrite Hpk; assumption|rewrite Hpv; assumption|assumption|].
    exists t', h''. split.
    { unfold x_hashtable_set, bind, ret. rewrite Hset. reflexivity. }
    cbn. apply Hpres. assumption.
Qed.

(** *** [set] followed by [remove] *)

Lemma blocked_not_stop t k i e :
  blocked t k i -> entries t !! Z.to_nat i = Some e ->
  (occupied e = true /\ eq_fn t k (key e) = true) \/ occupied e = false ->
  False.
Proof.
  intros (e' & He' & Ho & Hne) He Hcase.
  assert (e' = e) by congruence. subst e'.
  destruct Hcase as [(_ & ?)|?]; congruence.
Qed.

Lemma probe_stops_unique t k s i f i' f' :
  probe_stops t k s i f -> probe_stops t k s i' f' -> i = i' /\ f = f'.
Proof.
  intros [(d & e & Hd & -> & Hpre & He & Hc)|(-> & -> & Hfull)]
         [(d' & e' & Hd' & -> & Hpre' & He' & Hc')|(-> & -> & Hfull')].
  - destruct (Z.lt_trichotomy d d') as [Hlt|[<-|Hgt]].
    + exfalso. eapply (blocked_not_stop t k _ e (Hpre' d ltac:(lia)) He).
      destruct Hc as [(? & ? & _)|(? & _)]; auto.
    + assert (e' = e) by congruence. subst e'. split; [reflexivity|].
      destruct Hc as [(? & ? & ->)|(? & ->)], Hc' as [(? & ? & ->)|(? & ->)];
        congruence.
    + exfalso. eapply (blocked_not_stop t k _ e' (Hpre d' ltac:(lia)) He').
      destruct Hc' as [(? & ? & _)|(? & _)]; auto.
  - exfalso. eapply (blocked_not_stop t k _ e (Hfull' d Hd) He).
    destruct Hc as [(? & ? & _)|(? & _)]; auto.
  - exfalso. eapply (blocked_not_stop t k _ e' (Hfull d' Hd') He').
    destruct Hc' as [(? & ? & _)|(? & _)]; auto.
  - auto.
Qed.

Lemma probe_found_present t k s i :
  probe_stops t k s i true -> present t k.
Proof.
  intros [(d & e & _ & _ & _ & He & [(Ho & Hk & _)|(_ & ?)])|(_ & ? & _)];
    try discriminate.
  exists (Z.to_nat i), e. auto.
Qed.

(** The keys of the table a [set] probes are keys of the table it was
    called on. *)
Lemma set_probes_absent t tm k :
  table_ok t -> set_probes (rehash_inv t) t tm -> absent t k -> absent tm k.
Proof.
  intros Hok [(_ & ->)|(_ & (_ & _ & Hp & _ & Hkeys & _))] Habs; [assumption|].
  intros j e He Ho. destruct (Hkeys j e He Ho) as (j0 & e0 & _ & He0 & Ho0 & Hk0).
  destruct Hp as (_ & _ & _ & -> & _). rewrite <- Hk0. eapply Habs; eauto.
Qed.

Lemma set_probes_count t tm :
  table_ok t -> set_probes (rehash_inv t) t tm -> distinct t ->
  count tm = count t.
Proof.
  intros Hok [(_ & ->)|(_ & (_ & _ & _ & _ & _ & Hcnt))] Hd; [reflexivity|].
  rewrite (Hcnt Hd), firstn_all. symmetry. apply Hok.
Qed.

(** C6, as the code has it: on a table where [k] is absent, [set(k, v)]
    then [remove(k)] makes [remove] return true and a following [has(k)]
    return false, and the [remove] takes one off the count; the count is
    back at its value before the [set] when no key was stored twice. *)
Theorem set_remove_roundtrip (fuel : nat) (t : XHashtable) (k v : pointer)
    (h : heap)
    (Hok : table_ok t)
    (Hmax : 2 * capacity t <= MAX_CAPACITY)
    (Hk : valid_block (key_size t) k)
    (Hv : valid_block (value_size t) v)
    (Hheap : allocations_succeed h)
    (Hrefl : eq_fn t k k = true)
    (Habs : absent t k) :
  exists t1 h1 t2 h2,
    x_hashtable_set (S (S fuel)) (Some t) k v h = Ok ((true, Some t1), h1) /\
    x_hashtable_remove (Some t1) k h1 = Ok ((true, Some t2), h2) /\
    x_hashtable_has (Some t2) k = Ok false /\
    x_hashtable_count (Some t2) = x_hashtable_count (Some t1) - 1 /\
    (distinct t -> x_hashtable_count (Some t2) = x_hashtable_count (Some t)).
Proof.
  destruct (set_body_ok fuel t k v h Hok Hmax Hk Hv Hheap)
    as (tm & t1 & h1 & Hset & Hh1 & Hpr & Hl).
  destruct (set_body_table_ok t tm k v t1 Hok Hmax Hk Hv Hpr Hl)
    as (Hok1 & Hp1 & _ & _).
  destruct (set_probes_frame t tm Hok Hpr) as (Hsm & Hpm & _).
  pose proof (set_probes_absent t tm k Hok Hpr Habs) as Habsm.
  pose proof Hpm as (_ & _ & _ & Hefm & _).
  destruct Hl as (d & i & e & Hd & Hi & Hpre & He & [(Ho & Heq & _)|(Ho & Ht1)]).
  { rewrite (Habsm _ e He Ho) in Heq. discriminate. }
  assert (Hi0 : (Z.to_nat i < length (entries tm))%nat)
    by (eapply lookup_lt_Some; eauto).
  assert (Hstop : probe_stops t1 k (home t1 k) i true).
  { left. exists d, (new_entry k v). rewrite Ht1.
    assert (Hhome : home (insert_at tm i k v) k = home tm k) by reflexivity.
    assert (Hpos : forall s x, pos (insert_at tm i k v) s x = pos tm s x)
      by reflexivity.
    rewrite Hhome. cbn [capacity entries eq_fn insert_at set_entries set_count].
    split; [assumption|]. split; [rewrite Hpos; assumption|]. split.
    - intros d' Hd'. rewrite Hpos.
      destruct (Hpre d' Hd') as (e1 & He1 & Ho1 & Hne1).
      exists e1. cbn [entries eq_fn insert_at set_entries set_count].
      split; [|auto].
      rewrite list_lookup_insert_ne; [assumption|].
      intros Heq. rewrite Heq in He. congruence.
    - split; [apply list_lookup_insert_eq; assumption|].
      left. cbn [occupied key new_entry]. rewrite Hefm. auto. }
  destruct (x_hashtable_remove_cases t1 k h1 Hok1)
    as (i' & found & _ & Hst' & _ & Hrm).
  destruct (probe_stops_unique _ _ _ _ _ _ _ Hstop Hst') as [<- <-].
  destruct Hrm as (h2 & Hrm & _).
  assert (Hok2 : table_ok (clear_at t1 i)) by (eapply clear_at_table_ok; eauto).
  assert (Habs2 : absent (clear_at t1 i) k).
  { subst t1. intros j ej. cbn. rewrite list_insert_insert_eq.
    intros Hj Hoj. apply list_lookup_insert_Some in Hj as [(_ & <- & _)|(_ & Hj)];
      [discriminate|]. eapply Habsm; eauto. }
  destruct (x_hashtable_has_ok (clear_at t1 i) k Hok2) as (i2 & f2 & _ & Hst2 & Hhas).
  assert (f2 = false).
  { destruct f2; [exfalso|reflexivity].
    apply probe_found_present in Hst2. apply absent_not_present in Habs2. auto. }
  subst f2.
  exists t1, h1, (clear_at t1 i), h2.
  split. { unfold x_hashtable_set, bind, ret. rewrite Hset. reflexivity. }
  split; [assumption|]. split; [assumption|]. split; [reflexivity|].
  intros Hdis. cbn. subst t1. cbn.
  rewrite (set_probes_count t tm Hok Hpr Hdis). lia.
Qed.

(** *** What single calls return *)

Lemma bind_inv {S A B} (m : M S A) (k : A -> M S B) s r :
  bind m k s = Ok r -> exists a s', m s = Ok (a, s') /\ k a s' = Ok r.
Proof.
  unfold bind. destruct (m s) as [[a s']| |]; [eauto|discriminate|discriminate].
Qed.

Lemma lift_inv {S A} (r : result A) (s : S) a s' :
  lift r s = Ok (a, s') -> r = Ok a /\ s' = s.
Proof. unfold lift. destruct r; [|discriminate|discriminate]. intros [= -> ->]. auto. Qed.

Lemma set_store_true t k v h r h' :
  set_store t k v h = Ok (r, h') -> fst r = true.
Proof.
  unfold set_store. intros H.
  apply bind_inv in H as (r1 & s1 & _ & H).
  apply bind_inv in H as (t2 & s2 & _ & H).
  apply bind_inv in H as (e & s3 & _ & H).
  apply bind_inv in H as (vp & s4 & _ & H).
  apply bind_inv in H as (t5 & s5 & _ & H).
  unfold ret in H. injection H as <- _. reflexivity.
Qed.

Lemma set_body_true fuel t k v h r h' :
  set_body fuel t k v h = Ok (r, h') -> fst r = true.
Proof.
  destruct fuel as [|fuel]; [discriminate|]. cbn [set_body]. intros H.
  apply bind_inv in H as (tm & s1 & _ & H). eapply set_store_true; eauto.
Qed.

Lemma absentb_absent t k : absentb t k = true -> absent t k.
Proof.
  unfold absentb, absent. rewrite forallb_forall. intros H i e He Ho.
  specialize (H e). rewrite Ho in H. simpl in H.
  destruct (eq_fn t k (key e)); [|reflexivity].
  discriminate H. apply list_elem_of_In. eapply list_elem_of_lookup_2; eauto.
Qed.

Lemma byte_functions_consistent : consistent byte_hash ptr_eqb.
Proof.
  unfold consistent, ptr_eqb. split; [|split; [|split]].
  - intros a. apply bool_decide_eq_true_2. reflexivity.
  - intros a b H. apply bool_decide_eq_true_1 in H. subst.
    apply bool_decide_eq_true_2. reflexivity.
  - intros a b c H1 H2. apply bool_decide_eq_true_1 in H1, H2. subst.
    apply bool_decide_eq_true_2. reflexivity.
  - intros a b H. apply bool_decide_eq_true_1 in H. subst. reflexivity.
Qed.

Lemma key_value_ok b v : kv_ok 1 1 (key_of b, Some [v]).
Proof. split; eexists; (split; [reflexivity|reflexivity]). Qed.

(** C10: a [remove] that returns false leaves the table as it was, slot
    array, count and capacity, and makes no call to the allocator; this is
    what [remove] does for an absent key. *)
Theorem x_hashtable_remove_absent_unchanged (t : XHashtable) (k : pointer)
    (h : heap) :
  (forall t' h',
     x_hashtable_remove (Some t) k h = Ok ((false, t'), h') ->
     t' = Some t /\ h' = h) /\
  (table_ok t -> absent t k ->
     x_hashtable_remove (Some t) k h = Ok ((false, Some t), h)).
Proof.
  split.
  - intros t' h' H. unfold x_hashtable_remove in H.
    apply bind_inv in H as (r & s1 & Hp & H). apply lift_inv in Hp as [_ ->].
    destruct (snd r); simpl in H.
    + exfalso.
      apply bind_inv in H as (e & s2 & _ & H).
      apply bind_inv in H as (u & s3 & _ & H).
      apply bind_inv in H as (u' & s4 & _ & H).
      apply bind_inv in H as (t5 & s5 & _ & H).
      unfold ret in H. discriminate.
    + unfold ret in H. injection H as <- <-. auto.
  - intros Hok Habs.
    destruct (x_hashtable_remove_cases t k h Hok) as (i & found & _ & Hst & _ & Hrm).
    destruct found; [exfalso|assumption].
    apply probe_found_present in Hst. apply absent_not_present in Habs. auto.
Qed.

Lemma x_hashtable_remove_absent_unchanged_witness :
  x_hashtable_remove (Some byte_table) k1 fresh_heap
  = Ok ((false, Some byte_table), fresh_heap).
Proof.
  destruct (x_hashtable_remove_absent_unchanged byte_table k1 fresh_heap)
    as [_ H].
  apply H.
  - apply empty_table_ok.
  - apply absentb_absent. vm_compute. reflexivity.
Defined.

(** C4, as the code has it: [x_hashtable_set] returns false for a null
    table; for any other table a call that returns returns true, and the
    call returns when the table satisfies its invariant, the key and the
    value are valid and the allocations succeed. *)
Theorem x_hashtable_set_returns (fuel : nat) (table : option XHashtable)
    (k v : pointer) (h : heap) :
  match table with
  | None => x_hashtable_set fuel table k v h = Ok ((false, None), h)
  | Some t =>
      (forall b t' h',
         x_hashtable_set fuel table k v h = Ok ((b, t'), h') -> b = true) /\
      (table_ok t -> 2 * capacity t <= MAX_CAPACITY ->
       valid_block (key_size t) k -> valid_block (value_size t) v ->
       allocations_succeed h -> (2 <= fuel)%nat ->
       exists t' h',
         x_hashtable_set fuel table k v h = Ok ((true, Some t'), h'))
  end.
Proof.
  destruct table as [t|]; [|reflexivity]. split.
  - intros b t' h' H. unfold x_hashtable_set in H.
    apply bind_inv in H as (r & s1 & Hset & H).
    apply set_body_true in Hset. unfold ret in H. injection H as <- _ _.
    assumption.
  - intros Hok Hmax Hk Hv Hh Hfuel.
    destruct fuel as [|[|fuel]]; try lia.
    destruct (set_body_ok fuel t k v h Hok Hmax Hk Hv Hh)
      as (tm & t' & h' & Hset & _).
    exists t', h'. unfold x_hashtable_set, bind, ret. rewrite Hset. reflexivity.
Qed.

Lemma x_hashtable_set_returns_witness :
  exists t' h',
    x_hashtable_set 2 (Some byte_table) k1 va fresh_heap
    = Ok ((true, Some t'), h').
Proof.
  destruct (x_hashtable_set_returns 2 (Some byte_table) k1 va fresh_heap)
    as [_ H].
  apply H.
  - apply empty_table_ok.
  - vm_compute. discriminate.
  - apply (key_value_ok x01 x0a).
  - apply (key_value_ok x01 x0a).
  - constructor.
  - lia.
Defined.

(** The claim C4 as stated fails: with a key of one byte and a failing
    allocation, [set] stores through the null pointer it was given. *)
Lemma x_hashtable_set_allocation_failure :
  x_hashtable_set 2 (Some byte_table) k1 va failing_heap = Fault /\
  forall fuel t' h',
    x_hashtable_set fuel (Some byte_table) k1 va failing_heap
    <> Ok ((true, t'), h').
Proof.
  split; [vm_compute; reflexivity|].
  intros [|fuel] t' h'; vm_compute; discriminate.
Qed.

(** C2: three keys with the same home, set in the order [k1], [k2], [k3],
    take three slots in a row; after [remove(k2)], [get(k3)] and [has(k3)]
    report the key as not found although a later slot on the way still
    holds it. *)
Theorem remove_hides_displaced_key :
  exists t3 h3 t4 h4,
    create_then_run 1 1 byte_hash ptr_eqb None 2 (sets colliding_sets) fresh_heap
    = Ok (Some t3, h3) /\
    home t3 k1 = 1 /\ home t3 k2 = 1 /\ home t3 k3 = 1 /\
    key <$> entries t3 !! 1%nat = Some k1 /\
    key <$> entries t3 !! 2%nat = Some k2 /\
    key <$> entries t3 !! 3%nat = Some k3 /\
    x_hashtable_remove (Some t3) k2 h3 = Ok ((true, Some t4), h4) /\
    x_hashtable_get (Some t4) k3 out0 = Ok (false, out0) /\
    x_hashtable_has (Some t4) k3 = Ok false /\
    entries t4 !! 2%nat = Some null_entry /\
    exists e, entries t4 !! 3%nat = Some e /\
              occupied e = true /\ key e = k3 /\ value e = vc.
Proof.
  eexists _, _, _, _.
  split; [vm_compute; reflexivity|].
  do 6 (split; [vm_compute; reflexivity|]).
  split; [vm_compute; reflexivity|].
  do 3 (split; [vm_compute; reflexivity|]).
  eexists. split; [vm_compute; reflexivity|].
  repeat split; reflexivity.
Qed.

(** The claim C6 as stated fails on a table that stores a key twice: the
    rehash that [set] runs first stores it once, and the count after the
    [remove] is one less than before the [set]. *)
Lemma set_remove_count_not_restored :
  exists t h t1 h1 t2 h2,
    create_then_run 1 1 byte_hash ptr_eqb None 2 twice_stored_ops fresh_heap
    = Ok (Some t, h) /\
    absent t (key_of x0d) /\
    x_hashtable_set 2 (Some t) (key_of x0d) va h = Ok ((true, Some t1), h1) /\
    x_hashtable_remove (Some t1) (key_of x0d) h1 = Ok ((true, Some t2), h2) /\
    x_hashtable_has (Some t2) (key_of x0d) = Ok false /\
    x_hashtable_count (Some t) = 12 /\
    x_hashtable_count (Some t2) = 11.
Proof.
  eexists _, _, _, _, _, _.
  split; [vm_compute; reflexivity|].
  split; [apply absentb_absent; vm_compute; reflexivity|].
  do 2 (split; [vm_compute; reflexivity|]).
  repeat split; vm_compute; reflexivity.
Qed.

(** *** Instances *)

Lemma fresh_heap_succeeds : allocations_succeed fresh_heap.
Proof. constructor. Qed.

Lemma crossing_sets_ok : Forall (kv_ok 1 1) crossing_sets.
Proof. repeat constructor; apply key_value_ok. Qed.

Lemma colliding_sets_ok : Forall (kv_ok 1 1) colliding_sets.
Proof. repeat constructor; apply key_value_ok. Qed.

Lemma colliding_sets_distinct :
  pairwise_distinct ptr_eqb (map fst colliding_sets).
Proof.
  intros i j ki kj Hi Hj Hne.
  destruct i as [|[|[|i]]], j as [|[|[|j]]]; simpl in Hi, Hj;
    try discriminate; try congruence;
    injection Hi as <-; injection Hj as <-; vm_compute; reflexivity.
Qed.

Lemma twice_stored_ops_ok : Forall (op_ok 1 1) twice_stored_ops.
Proof.
  repeat constructor; try apply (key_value_ok _ x0a);
    try apply (key_value_ok _ x0b); apply (key_value_ok _ x0c).
Qed.

Lemma get_returns_last_set_witness :
  exists t h',
    create_then_run 1 1 byte_hash ptr_eqb None 2 (sets crossing_sets) fresh_heap
    = Ok (Some t, h') /\
    forall k out,
      valid_block 1 out ->
      x_hashtable_get (Some t) k out
      = match last_set ptr_eqb (rev crossing_sets) k with
        | Some v => Ok (true, v)
        | None => Ok (false, out)
        end.
Proof.
  apply (get_returns_last_set 1 1 byte_hash ptr_eqb None 0 crossing_sets
           fresh_heap).
  - apply byte_functions_consistent.
  - apply fresh_heap_succeeds.
  - apply crossing_sets_ok.
  - vm_compute. discriminate.
Defined.

(** The run of the witness crosses a rehash, and the key set twice has the
    later value. *)
Example get_after_rehash :
  exists t h',
    create_then_run 1 1 byte_hash ptr_eqb None 2 (sets crossing_sets) fresh_heap
    = Ok (Some t, h') /\
    capacity t = 32 /\ count t = 14 /\
    x_hashtable_get (Some t) k2 out0 = Ok (true, vc) /\
    x_hashtable_get (Some t) (key_of x0e) out0 = Ok (true, va) /\
    x_hashtable_get (Some t) (key_of x0f) out0 = Ok (false, out0).
Proof.
  eexists _, _. split; [vm_compute; reflexivity|].
  repeat split; vm_compute; reflexivity.
Qed.

Lemma count_below_capacity_witness :
  exists t h',
    create_then_run 1 1 byte_hash ptr_eqb None 2 twice_stored_ops fresh_heap
    = Ok (Some t, h') /\
    count t <= capacity t /\ count t < capacity t.
Proof.
  apply (count_below_capacity 1 1 byte_hash ptr_eqb None 0 twice_stored_ops
           fresh_heap).
  - apply fresh_heap_succeeds.
  - apply twice_stored_ops_ok.
  - vm_compute. discriminate.
Defined.

Lemma count_after_sets_witness :
  exists t h',
    create_then_run 1 1 byte_hash ptr_eqb None 2 (sets colliding_sets) fresh_heap
    = Ok (Some t, h') /\
    x_hashtable_count (Some t) = 3.
Proof.
  destruct (count_after_sets 1 1 byte_hash ptr_eqb None 0 colliding_sets
              fresh_heap)
    as (t & h' & Hrun & Hd & _).
  - apply byte_functions_consistent.
  - apply fresh_heap_succeeds.
  - apply colliding_sets_ok.
  - vm_compute. reflexivity.
  - exists t, h'. split; [exact Hrun|].
    apply (Hd colliding_sets_distinct).
Defined.

Lemma set_remove_roundtrip_witness :
  exists t1 h1 t2 h2,
    x_hashtable_set 2 (Some byte_table) k1 va fresh_heap
    = Ok ((true, Some t1), h1) /\
    x_hashtable_remove (Some t1) k1 h1 = Ok ((true, Some t2), h2) /\
    x_hashtable_has (Some t2) k1 = Ok false /\
    x_hashtable_count (Some t2) = x_hashtable_count (Some t1) - 1 /\
    (distinct byte_table ->
       x_hashtable_count (Some t2) = x_hashtable_count (Some byte_table)).
Proof.
  apply (set_remove_roundtrip 0 byte_table k1 va fresh_heap).
  - apply empty_table_ok.
  - vm_compute. discriminate.
  - apply (key_value_ok x01 x0a).
  - apply (key_value_ok x01 x0a).
  - apply fresh_heap_succeeds.
  - vm_compute. reflexivity.
  - apply absentb_absent. vm_compute. reflexivity.
Defined.

(** *** Creation, [has] and [get] *)

Lemma empty_table_absent ks vs hf ef a k : absent (empty_table ks vs hf ef a) k.
Proof.
  intros i e. cbn. intros [-> _]%lookup_replicate. discriminate.
Qed.

Lemma absent_not_found t k i found :
  absent t k -> probe_stops t k (home t k) i found -> found = false.
Proof.
  intros Habs Hst. destruct found; [exfalso|reflexivity].
  apply probe_found_present in Hst. apply absent_not_present in Habs. auto.
Qed.

(** X5: [x_hashtable_create_ex] returns null when the allocation of the table
    fails and stores through a null pointer when the allocation of the
    slot array fails; otherwise it returns a table of capacity 16 and
    count 0 in which no key is found. *)
Theorem x_hashtable_create_ex_cases (ks vs : Z) (hf : HashFn) (ef : EqualsFn)
    (a : XAllocator_ref) (h : heap) :
  match plan h with
  | false :: _ =>
      x_hashtable_create_ex ks vs hf ef a h
      = Ok (None, after_failed_alloc a sizeof_XHashtable h)
  | true :: false :: _ => x_hashtable_create_ex ks vs hf ef a h = Fault
  | _ =>
      exists t h',
        x_hashtable_create_ex ks vs hf ef a h = Ok (Some t, h') /\
        capacity t = INITIAL_CAPACITY /\ x_hashtable_count (Some t) = 0 /\
        table_ok t /\
        forall k out,
          x_hashtable_has (Some t) k = Ok false /\
          x_hashtable_get (Some t) k out = Ok (false, out)
  end.
Proof.
  assert (Hfresh : forall k out,
            x_hashtable_has (Some (empty_table ks vs hf ef a)) k = Ok false /\
            x_hashtable_get (Some (empty_table ks vs hf ef a)) k out
            = Ok (false, out)).
  { intros k out. pose proof (empty_table_ok ks vs hf ef a) as Hok.
    pose proof (empty_table_absent ks vs hf ef a k) as Habs.
    destruct (x_hashtable_has_ok _ k Hok) as (i & found & Hrun & Hst & Hhas).
    pose proof (absent_not_found _ _ _ _ Habs Hst). subst found.
    split; [assumption|]. unfold x_hashtable_get. rewrite Hrun. reflexivity. }
  destruct h as [[|[|] [|[|] pl]] tr]; cbn [plan];
    try reflexivity;
    (eexists (empty_table ks vs hf ef a), _; split; [reflexivity|];
     split; [reflexivity|]; split; [reflexivity|];
     split; [apply empty_table_ok|apply Hfresh]).
Qed.

(** X6: [has] and [get] agree on every table that satisfies the invariant:
    both find the key or neither does; [get] leaves the caller's buffer
    as it was for a key it does not find and fills it with the value of a
    slot holding an equal key otherwise. *)
Theorem x_hashtable_has_get_agree (t : XHashtable) (k out : pointer)
    (Hok : table_ok t) (Hout : valid_block (value_size t) out) :
  exists found out',
    x_hashtable_has (Some t) k = Ok found /\
    x_hashtable_get (Some t) k out = Ok (found, out') /\
    (found = false -> out' = out) /\
    (found = true -> holds t k out').
Proof.
  destruct (x_hashtable_get_ok t k out Hok Hout) as (i & found & Hrun & Hst & Hget).
  destruct found.
  - destruct Hget as (e & He & Hget). exists true, (value e).
    split; [unfold x_hashtable_has; rewrite Hrun; reflexivity|].
    split; [assumption|]. split; [discriminate|]. intros _.
    destruct Hst as [(d & e0 & _ & _ & _ & He0 & [(Ho & Hk & _)|(_ & ?)])|(_ & ? & _)];
      try discriminate.
    assert (e0 = e) by congruence. subst e0.
    exists (Z.to_nat i), e. auto.
  - exists false, out.
    split; [unfold x_hashtable_has; rewrite Hrun; reflexivity|].
    split; [assumption|]. split; [reflexivity|discriminate].
Qed.

Lemma x_hashtable_has_get_agree_witness :
  exists found out',
    x_hashtable_has (Some byte_table) k1 = Ok found /\
    x_hashtable_get (Some byte_table) k1 out0 = Ok (found, out') /\
    (found = false -> out' = out0) /\
    (found = true -> holds byte_table k1 out').
Proof.
  apply (x_hashtable_has_get_agree byte_table k1 out0).
  - apply empty_table_ok.
  - eexists. split; reflexivity.
Defined.

(** *** [remove] of a present key *)


Lemma probe_found_slot t k s i :
  probe_stops t k s i true ->
  exists e, entries t !! Z.to_nat i = Some e /\
            occupied e = true /\ eq_fn t k (key e) = true.
Proof.
  intros [(d & e & _ & _ & _ & He & [(Ho & Hk & _)|(_ & ?)])|(_ & ? & _)];
    try discriminate.
  eauto.
Qed.

(** What [remove] does for a key it finds, with the calls it makes. *)
Lemma x_hashtable_remove_found t k h i :
  table_ok t -> probe_index t k = Ok (i, true) ->
  exists e,
    entries t !! Z.to_nat i = Some e /\ 0 < count t /\
    x_hashtable_remove (Some t) k h
    = Ok ((true, Some (clear_at t i)),
          after_free (allocator t) (ObjBlock (value e))
            (after_free (allocator t) (ObjBlock (key e)) h)).
Proof.
  intros Hok Hrun.
  destruct (x_hashtable_remove_cases t k h Hok) as (i' & found & Hrun' & Hst & Hi & _).
  rewrite Hrun in Hrun'. injection Hrun' as <- <-.
  destruct (probe_found_slot _ _ _ _ Hst) as (e & He & Ho & _).
  exists e. split; [assumption|].
  pose proof Hok as (Hcap & Hlen & Hcnt & _).
  assert (Hc : 0 < count t).
  { pose proof (occupied_slots_insert (entries t) _ e null_entry He) as Hins.
    rewrite Ho in Hins. simpl in Hins.
    pose proof (occupied_slots_range (<[Z.to_nat i:=null_entry]> (entries t))).
    lia. }
  split; [assumption|].
  unfold x_hashtable_remove. unfold bind at 1. unfold lift at 1.
  rewrite Hrun. simpl.
  unfold bind, lift, entry_at, store_entry, stdx_free, ret. rewrite He. simpl.
  rewrite size_wrap_small.
  - reflexivity.
  - pose proof (occupied_slots_range (entries t)).
    unfold is_size_t, SIZE_MODULUS, MAX_CAPACITY in *. lia.
Qed.




(** *** The allocator calls of [set] *)

(** [set_body_no_rehash] with the heap the call leaves. *)
Lemma set_body_no_rehash_heap fuel t k v h i found e :
  load_factor_reached (count t) (capacity t) = false ->
  probe_index t k = Ok (i, found) ->
  entries t !! Z.to_nat i = Some e ->
  valid_block (key_size t) k -> valid_block (value_size t) v ->
  (found = true -> valid_block (value_size t) (value e)) ->
  is_size_t (count t + 1) ->
  allocations_succeed h ->
  set_body (S fuel) t k v h
  = Ok ((true, if found then update_at t i e v else insert_at t i k v),
        if found then h
        else after_alloc (allocator t) (value_size t)
               (after_alloc (allocator t) (key_size t) h)).
Proof.
  intros Hload Hprobe He Hk Hv Hev Hcnt Hh.
  simpl. rewrite Hload. unfold bind at 1. unfold ret at 1. unfold set_store.
  unfold bind at 1. unfold lift at 1. rewrite Hprobe. simpl.
  destruct found; simpl.
  - unfold bind, lift, ret. unfold entry_at. rewrite He.
    rewrite memcpy_valid by auto. unfold store_entry. rewrite He.
    reflexivity.
  - pose proof (valid_block_nonneg _ _ Hk) as Hks.
    pose proof (valid_block_nonneg _ _ Hv) as Hvs.
    unfold bind at 1. unfold bind at 1.
    rewrite stdx_alloc_ok by assumption.
    unfold bind at 1. unfold lift at 1.
    rewrite memcpy_valid by (auto using valid_block_replicate).
    unfold bind at 1.
    rewrite stdx_alloc_ok by (apply allocations_succeed_tail; assumption).
    unfold bind at 1. unfold lift at 1. unfold store_entry at 1. rewrite He.
    unfold ret at 1.
    unfold bind at 1. unfold lift at 1. unfold entry_at.
    cbn [entries set_count set_entries].
    rewrite list_lookup_insert_eq by (apply lookup_lt_Some in He; assumption).
    unfold bind at 1. unfold lift at 1. cbn [value value_size set_count set_entries].
    rewrite memcpy_valid by (auto using valid_block_replicate).
    unfold bind at 1. unfold lift at 1. unfold store_entry.
    cbn [entries set_count set_entries].
    rewrite list_lookup_insert_eq by (apply lookup_lt_Some in He; assumption).
    unfold ret. rewrite list_insert_insert_eq.
    rewrite size_wrap_small by assumption.
    reflexivity.
Qed.

(** A [set] below the load factor, with the slot the probe stopped at and
    the heap the call leaves. *)
Lemma set_body_lands_heap fuel t k v h :
  shape_ok t -> 4 * count t < 3 * capacity t ->
  valid_block (key_size t) k -> valid_block (value_size t) v ->
  allocations_succeed h ->
  exists i found e,
    probe_index t k = Ok (i, found) /\
    probe_stops t k (home t k) i found /\
    entries t !! Z.to_nat i = Some e /\ occupied e = found /\
    set_body (S fuel) t k v h
    = Ok ((true, if found then update_at t i e v else insert_at t i k v),
          if found then h
          else after_alloc (allocator t) (value_size t)
                 (after_alloc (allocator t) (key_size t) h)).
Proof.
  intros Hshape Hload Hk Hv Hh.
  pose proof (shape_size_mod t Hshape) as Hsz.
  pose proof Hshape as (Hcap & Hlen & Hcnt & Hent).
  destruct (probe_index_spec t k Hsz Hlen) as (i & found & Hrun & Hst & Hi).
  assert (Hcount : is_size_t (count t + 1)).
  { pose proof (occupied_slots_range (entries t)).
    unfold is_size_t, SIZE_MODULUS, MAX_CAPACITY in *. lia. }
  assert (Hl : load_factor_reached (count t) (capacity t) = false)
    by (apply load_false; lia).
  pose proof Hst as [(d & e & Hd & -> & Hpre & He & Hcase)|(-> & -> & Hfull)].
  - assert (Hocc : occupied e = found).
    { destruct Hcase as [(-> & _ & ->)|(-> & ->)]; reflexivity. }
    assert (Hev : found = true -> valid_block (value_size t) (value e)).
    { intros ->. eapply Forall_lookup_1 in Hent; [|exact He].
      apply Hent. assumption. }
    exists (pos t (home t k) d), found, e.
    split; [assumption|]. split; [assumption|]. split; [assumption|].
    split; [assumption|].
    apply set_body_no_rehash_heap; assumption.
  - exfalso. destruct (shape_free_slot t Hshape) as (j & e & Hj & He & Hfree); [lia|].
    pose proof (home_range t k ltac:(lia)) as Hh0.
    destruct (Hfull ((j - home t k) mod capacity t)) as (e' & He' & Hocc & _).
    { apply Z.mod_pos_bound. lia. }
    rewrite pos_offset in He' by lia. congruence.
Qed.

(** X8: below the load factor, [set] makes no call to the allocator for a key
    that [has] finds, and exactly two for any other key: a block of
    [key_size] bytes, then one of [value_size] bytes, from the table's
    allocator.  The capacity stays and the count grows only in the second
    case. *)
Theorem x_hashtable_set_allocator_calls (fuel : nat) (t : XHashtable)
    (k v : pointer) (h : heap)
    (Hok : table_ok t) (Hload : 4 * count t < 3 * capacity t)
    (Hk : valid_block (key_size t) k) (Hv : valid_block (value_size t) v)
    (Hheap : allocations_succeed h) :
  exists found t',
    x_hashtable_has (Some t) k = Ok found /\
    x_hashtable_set (S fuel) (Some t) k v h
    = Ok ((true, Some t'),
          if found then h
          else after_alloc (allocator t) (value_size t)
                 (after_alloc (allocator t) (key_size t) h)) /\
    capacity t' = capacity t /\
    x_hashtable_count (Some t')
    = x_hashtable_count (Some t) + (if found then 0 else 1).
Proof.
  destruct (set_body_lands_heap fuel t k v h (table_ok_shape t Hok) Hload Hk Hv Hheap)
    as (i & found & e & Hrun & _ & He & _ & Hset).
  exists found, (if found then update_at t i e v else insert_at t i k v).
  split; [unfold x_hashtable_has; rewrite Hrun; reflexivity|].
  split.
  { unfold x_hashtable_set. erewrite bind_Ok by exact Hset. reflexivity. }
  destruct found; cbn; split; (reflexivity || lia).
Qed.

Lemma x_hashtable_set_allocator_calls_witness :
  exists t',
    x_hashtable_set 1 (Some byte_table) k1 va fresh_heap
    = Ok ((true, Some t'),
          after_alloc None 1 (after_alloc None 1 fresh_heap)) /\
    x_hashtable_count (Some t') = 1.
Proof.
  destruct (x_hashtable_set_allocator_calls 0 byte_table k1 va fresh_heap)
    as (found & t' & Hhas & Hset & _ & Hcnt).
  - apply empty_table_ok.
  - vm_compute. reflexivity.
  - apply (key_value_ok x01 x0a).
  - apply (key_value_ok x01 x0a).
  - apply fresh_heap_succeeds.
  - assert (found = false) by (vm_compute in Hhas; congruence). subst found.
    exists t'. split; [exact Hset|exact Hcnt].
Defined.

(** After a [set] that did not rehash, a probe for the key stops at the
    slot the [set] wrote, which holds the value. *)
Lemma set_lands_found t k v t' :
  shape_ok t -> eq_fn t k k = true ->
  set_lands t k v t' ->
  exists i e,
    probe_stops t' k (home t' k) i true /\
    entries t' !! Z.to_nat i = Some e /\ value e = v.
Proof.
  intros Hs Hrefl Hl.
  destruct (set_lands_frame t k v t' Hl) as (Hp & Hcap & Hlen).
  pose proof Hp as (_ & _ & _ & Heq & _).
  pose proof Hs as (Hc & _).
  destruct Hl as (d & i & e & Hd & Hi & Hpre & He & Hcase).
  pose proof (home_range t k ltac:(lia)) as Hh0.
  assert (Hnew : exists x, entries t' = <[Z.to_nat i := x]> (entries t) /\
                           occupied x = true /\ eq_fn t k (key x) = true /\
                           value x = v).
  { destruct Hcase as [(Ho & Hk & ->)|(Ho & ->)].
    - exists (set_value e v). cbn. auto.
    - exists (new_entry k v). cbn. auto. }
  destruct Hnew as (x & Hes & Hox & Hkx & Hvx).
  assert (Hx : entries t' !! Z.to_nat i = Some x).
  { rewrite Hes. apply list_lookup_insert_eq. eapply lookup_lt_Some; eauto. }
  exists i, x. split; [|auto].
  left. exists d, x. rewrite (home_frame t t' k Hp Hcap).
  split; [lia|]. split; [rewrite (pos_frame t t') by assumption; assumption|].
  split.
  - intros d' Hd'. rewrite (pos_frame t t') by assumption.
    destruct (Hpre d' Hd') as (e' & He' & Ho' & Hk').
    exists e'. rewrite Heq. split; [|auto].
    rewrite Hes. rewrite list_lookup_insert_ne; [assumption|].
    intros Heqi. apply Z2Nat.inj in Heqi.
    + subst i. apply pos_inj in Heqi; lia.
    + subst i. apply pos_range. lia.
    + apply pos_range. lia.
  - split; [assumption|]. left. rewrite Heq. auto.
Qed.

(** X9: in every state that satisfies the invariant, a key that was just set
    is found, with the value that was set: [has] returns true and [get]
    copies the value, whether or not the [set] rehashed the table. *)
Theorem x_hashtable_set_then_get (fuel : nat) (t : XHashtable)
    (k v out : pointer) (h : heap)
    (Hok : table_ok t) (Hmax : 2 * capacity t <= MAX_CAPACITY)
    (Hk : valid_block (key_size t) k) (Hv : valid_block (value_size t) v)
    (Hout : valid_block (value_size t) out)
    (Hrefl : eq_fn t k k = true)
    (Hheap : allocations_succeed h) :
  exists t' h',
    x_hashtable_set (S (S fuel)) (Some t) k v h = Ok ((true, Some t'), h') /\
    x_hashtable_has (Some t') k = Ok true /\
    x_hashtable_get (Some t') k out = Ok (true, v).
Proof.
  destruct (set_body_ok fuel t k v h Hok Hmax Hk Hv Hheap)
    as (tm & t' & h' & Hset & _ & Hpr & Hl).
  destruct (set_body_table_ok t tm k v t' Hok Hmax Hk Hv Hpr Hl)
    as (Hok' & Hp' & _).
  destruct (set_probes_frame t tm Hok Hpr) as (Hsm & Hpm & _).
  pose proof Hpm as (_ & _ & _ & Heqm & _).
  pose proof Hp' as (_ & Hvs' & _).
  destruct (set_lands_found tm k v t' Hsm ltac:(rewrite Heqm; assumption) Hl)
    as (i & e & Hst & He & Hval).
  exists t', h'. split.
  { unfold x_hashtable_set. erewrite bind_Ok by exact Hset. reflexivity. }
  destruct (x_hashtable_get_ok t' k out Hok' ltac:(rewrite Hvs'; assumption))
    as (i' & found' & Hrun & Hst' & Hget).
  destruct (probe_stops_unique _ _ _ _ _ _ _ Hst Hst') as [<- <-].
  split; [unfold x_hashtable_has; rewrite Hrun; reflexivity|].
  destruct Hget as (e' & He' & Hget). rewrite Hget.
  assert (e' = e) by congruence. subst e'. rewrite Hval. reflexivity.
Qed.

Lemma x_hashtable_set_then_get_witness :
  exists t' h',
    x_hashtable_set 2 (Some byte_table) k1 va fresh_heap
    = Ok ((true, Some t'), h') /\
    x_hashtable_has (Some t') k1 = Ok true /\
    x_hashtable_get (Some t') k1 out0 = Ok (true, va).
Proof.
  apply (x_hashtable_set_then_get 0 byte_table k1 va out0 fresh_heap).
  - apply empty_table_ok.
  - vm_compute. discriminate.
  - apply (key_value_ok x01 x0a).
  - apply (key_value_ok x01 x0a).
  - apply (key_value_ok x01 x00).
  - vm_compute. reflexivity.
  - apply fresh_heap_succeeds.
Defined.

(** X10: [set] doubles the capacity exactly when it is called on a table whose
    count has reached three quarters of the capacity, and leaves the
    capacity as it is otherwise; the table it returns is below that load
    again, up to the key just stored. *)
Theorem x_hashtable_set_grows_at_load_factor (fuel : nat) (t : XHashtable)
    (k v : pointer) (h : heap)
    (Hok : table_ok t) (Hmax : 2 * capacity t <= MAX_CAPACITY)
    (Hk : valid_block (key_size t) k) (Hv : valid_block (value_size t) v)
    (Hheap : allocations_succeed h) :
  exists t' h',
    x_hashtable_set (S (S fuel)) (Some t) k v h = Ok ((true, Some t'), h') /\
    capacity t'
    = (if 3 * capacity t <=? 4 * count t then 2 * capacity t else capacity t) /\
    table_ok t' /\ x_hashtable_count (Some t') <= x_hashtable_count (Some t) + 1.
Proof.
  destruct (set_body_ok fuel t k v h Hok Hmax Hk Hv Hheap)
    as (tm & t' & h' & Hset & _ & Hpr & Hl).
  destruct (set_body_table_ok t tm k v t' Hok Hmax Hk Hv Hpr Hl)
    as (Hok' & _ & Hcnt & _).
  destruct (set_lands_frame tm k v t' Hl) as (_ & Hcap & _).
  exists t', h'. split.
  { unfold x_hashtable_set. erewrite bind_Ok by exact Hset. reflexivity. }
  split; [|split; [assumption|exact Hcnt]].
  rewrite Hcap.
  destruct Hpr as [(Hlt & ->)|(Hge & (_ & Hc & _))].
  - destruct (Z.leb_spec (3 * capacity t) (4 * count t)); [lia|reflexivity].
  - destruct (Z.leb_spec (3 * capacity t) (4 * count t)); [assumption|lia].
Qed.

Lemma x_hashtable_set_grows_at_load_factor_witness :
  exists t' h',
    x_hashtable_set 2 (Some byte_table) k1 va fresh_heap
    = Ok ((true, Some t'), h') /\
    capacity t' = 16 /\
    table_ok t' /\ x_hashtable_count (Some t') <= 0 + 1.
Proof.
  apply (x_hashtable_set_grows_at_load_factor 0 byte_table k1 va fresh_heap).
  - apply empty_table_ok.
  - vm_compute. discriminate.
  - apply (key_value_ok x01 x0a).
  - apply (key_value_ok x01 x0a).
  - apply fresh_heap_succeeds.
Defined.

(** *** The balance of blocks *)

Lemma alloc_entries_heap a c h :
  allocations_succeed h -> 0 <= c <= 2 * MAX_CAPACITY ->
  alloc_entries a c h
  = Ok (replicate (Z.to_nat c) null_entry,
        after_alloc a (c * sizeof_XHashEntry) h).
Proof.
  intros Hh Hc. unfold alloc_entries.
  erewrite bind_Ok by (apply stdx_alloc_ok; assumption).
  unfold lift, memset_entries.
  rewrite size_wrap_small
    by (unfold is_size_t, sizeof_XHashEntry, SIZE_MODULUS, MAX_CAPACITY in *; lia).
  unfold sizeof_XHashEntry. rewrite Z.div_mul by lia. reflexivity.
Qed.

Lemma entry_blocks t e :
  entry_ok t e -> occupied e = true ->
  exists bk bv, key e = Some bk /\ value e = Some bv.
Proof.
  intros He Ho. destruct (He Ho) as [(bk & -> & _) (bv & -> & _)]. eauto.
Qed.

(** A [set] below the load factor keeps the blocks in balance. *)
Lemma set_body_lands_balance fuel t k v h b t' h' :
  shape_ok t -> 4 * count t < 3 * capacity t ->
  valid_block (key_size t) k -> valid_block (value_size t) v ->
  allocations_succeed h ->
  set_body (S fuel) t k v h = Ok ((b, t'), h') ->
  unaccounted t' h' = unaccounted t h.
Proof.
  intros Hs Hl Hk Hv Hh Hset.
  destruct (set_body_lands_heap fuel t k v h Hs Hl Hk Hv Hh)
    as (i & found & e & _ & _ & _ & _ & Heq).
  rewrite Heq in Hset. injection Hset as _ <- <-.
  unfold unaccounted. destruct found; cbn; lia.
Qed.

Lemma rehash_loop_heap (Inv : nat -> XHashtable -> heap -> Prop) set a old :
  (forall i T e h, Inv i T h -> old !! i = Some e -> occupied e = false ->
     Inv (S i) T h) ->
  (forall i T e h,
     Inv i T h -> old !! i = Some e -> occupied e = true ->
     exists b T' h',
       set T (key e) (value e) h = Ok ((b, T'), h') /\
       Inv (S i) T' (after_free a (ObjBlock (value e))
                       (after_free a (ObjBlock (key e)) h'))) ->
  forall n i T h,
    (i + n = length old)%nat -> Inv i T h ->
    exists T' h',
      rehash_loop set a old n i T h = Ok (T', h') /\ Inv (length old) T' h'.
Proof.
  intros Hskip Hmove. induction n as [|n IH]; intros i T h Hlen HI.
  - simpl. replace (length old) with i by lia. unfold ret. eauto.
  - simpl. destruct (lookup_lt_is_Some_2 old i ltac:(lia)) as [e He].
    rewrite He. destruct (occupied e) eqn:Ho; simpl.
    + destruct (Hmove i T e h HI He Ho) as (b & T' & h' & Hset & HI').
      erewrite bind_Ok by exact Hset. unfold bind at 1. unfold stdx_free at 1.
      unfold bind at 1. unfold stdx_free at 1. simpl.
      apply IH; [lia|]. exact HI'.
    + apply IH; [lia|]. eapply Hskip; eauto.
Qed.

(** A rehash keeps the blocks in balance: it obtains the new slot array
    and releases the old one, and each moved slot costs two blocks or
    none and releases two. *)
Lemma x_hashtable_rehash_balance fuel t h :
  shape_ok t -> capacity t <= MAX_CAPACITY -> allocations_succeed h ->
  exists T' h',
    x_hashtable_rehash (set_body (S fuel)) t h = Ok (T', h') /\
    rehash_inv t (length (entries t)) T' /\ allocations_succeed h' /\
    unaccounted T' h' = unaccounted t h.
Proof.
  intros Hs Hmax Hh. pose proof Hs as (Hcap & Hlen & Hcnt & Hent).
  unfold x_hashtable_rehash. cbn [capacity set_capacity].
  rewrite size_wrap_small
    by (unfold is_size_t, SIZE_MODULUS, MAX_CAPACITY in *; lia).
  replace (capacity t * 2) with (2 * capacity t) by lia.
  cbn [allocator set_capacity].
  erewrite bind_Ok by (apply alloc_entries_heap; [assumption|lia]).
  set (h1 := after_alloc (allocator t) (2 * capacity t * sizeof_XHashEntry) h).
  fold (doubled t).
  destruct (rehash_loop_heap (rehash_heap_inv t (outstanding (trace h1)))
              (set_body (S fuel)) (allocator t) (entries t))
    with (n := Z.to_nat (capacity t)) (i := 0%nat) (T := doubled t) (h := h1)
    as (T' & h2 & Hloop & HI & Hh2 & Hbal).
  - intros i T e h0 (HI & Hh0 & Hb) He Ho.
    split; [eapply rehash_skip; eauto|]. split; [assumption|].
    rewrite (occupied_slots_take _ _ e) by assumption. rewrite Ho, Z.add_0_r.
    assumption.
  - intros i T e h0 (HI & Hh0 & Hb) He Ho.
    destruct (rehash_move fuel t i T e h0 Hs HI Hh0 He Ho)
      as (b & T' & h' & Hset & Hh' & HI' & _).
    exists b, T', h'. split; [assumption|].
    split; [assumption|]. split; [exact Hh'|].
    pose proof HI as (HsT & HcT & HpT & HcntT & _).
    pose proof HpT as (Hpk & Hpv & _).
    eapply Forall_lookup_1 in Hent as Hek; [|exact He].
    destruct (Hek Ho) as [Hk Hv].
    destruct (entry_blocks t e Hek Ho) as (bk & bv & Hbk & Hbv).
    pose proof (occupied_slots_take_le (entries t) i) as Hle.
    pose proof (occupied_slots_range (entries t)) as Hr.
    assert (Hbal : unaccounted T' h' = unaccounted T h0).
    { eapply (set_body_lands_balance fuel T (key e) (value e) h0 b T' h');
        try assumption; [lia|rewrite Hpk; assumption|rewrite Hpv; assumption]. }
    rewrite (occupied_slots_take _ _ e) by assumption. rewrite Ho.
    unfold unaccounted in *. cbn [trace after_free outstanding].
    rewrite Hbk, Hbv. lia.
  - lia.
  - split; [apply doubled_inv; assumption|].
    split; [apply allocations_succeed_tail; assumption|].
    rewrite take_0. unfold unaccounted. cbn. lia.
  - erewrite bind_Ok by exact Hloop.
    unfold bind, stdx_free, ret. simpl.
    eexists _, _. split; [reflexivity|]. split; [assumption|].
    split; [assumption|].
    rewrite firstn_all in Hbal.
    unfold unaccounted in *. cbn [trace outstanding]. subst h1.
    cbn [trace after_alloc outstanding] in Hbal. lia.
Qed.

(** Every [set] on a table that satisfies the invariant keeps the blocks
    in balance. *)
Lemma set_body_balance fuel t k v h :
  table_ok t -> 2 * capacity t <= MAX_CAPACITY ->
  valid_block (key_size t) k -> valid_block (value_size t) v ->
  allocations_succeed h ->
  exists t' h',
    set_body (S (S fuel)) t k v h = Ok ((true, t'), h') /\
    unaccounted t' h' = unaccounted t h.
Proof.
  intros Hok Hmax Hk Hv Hh.
  pose proof (table_ok_shape t Hok) as Hs.
  pose proof Hok as (Hcap & Hlen & Hcnt & Hload & Hent).
  unfold INITIAL_CAPACITY in Hcap.
  destruct (load_factor_reached (count t) (capacity t)) eqn:Hl.
  - apply load_true in Hl; [|lia].
    destruct (x_hashtable_rehash_balance fuel t h Hs ltac:(lia) Hh)
      as (tm & h1 & Hre & HI & Hh1 & Hbal).
    destruct HI as (Hsm & Hcm & Hpm & Hcntm & _).
    pose proof Hpm as (Hpk & Hpv & _).
    rewrite firstn_all in Hcntm.
    pose proof (occupied_slots_range (entries t)) as Hr.
    assert (Hlm4 : 4 * count tm < 3 * capacity tm) by lia.
    destruct (set_body_lands fuel tm k v h1 Hsm Hlm4) as (t' & h' & Hset & _ & _);
      [rewrite Hpk; assumption|rewrite Hpv; assumption|assumption|].
    assert (Hbal' : unaccounted t' h' = unaccounted tm h1).
    { eapply (set_body_lands_balance fuel tm k v h1 true t' h');
        try assumption; [rewrite Hpk; assumption|rewrite Hpv; assumption]. }
    exists t', h'. split; [|lia].
    assert (Hlm : load_factor_reached (count tm) (capacity tm) = false)
      by (apply load_false; lia).
    cbn [set_body] in Hset |- *. rewrite Hlm in Hset.
    assert (Hlt : load_factor_reached (count t) (capacity t) = true)
      by (apply load_true; lia).
    rewrite Hlt. erewrite bind_Ok by exact Hre. exact Hset.
  - apply load_false in Hl; [|lia].
    destruct (set_body_lands (S fuel) t k v h Hs Hl Hk Hv Hh)
      as (t' & h' & Hset & _ & _).
    exists t', h'. split; [assumption|].
    eapply set_body_lands_balance; eauto.
Qed.

(** What one operation does to the balance and to the capacity. *)
Lemma step_balance fuel t o h m t' h' :
  sized m t -> 0 <= m < MAX_OPS ->
  op_ok (key_size t) (value_size t) o -> allocations_succeed h ->
  step (S (S fuel)) (Some t) o h = Ok (Some t', h') ->
  unaccounted t' h' = unaccounted t h /\
  (capacity t' = capacity t \/ capacity t' = 2 * capacity t).
Proof.
  intros Hsz Hm Hop Hh Hstep.
  pose proof (sized_doubling m t Hsz ltac:(lia)) as Hmax.
  destruct Hsz as (Hok & Hcnt & Hcapm).
  destruct o as [k v|k out|k|k]; simpl in Hop.
  - destruct Hop as [Hk Hv].
    destruct (set_body_ok fuel t k v h Hok Hmax Hk Hv Hh)
      as (tm & t1 & h1 & Hset & _ & Hpr & Hl).
    destruct (set_body_table_ok t tm k v t1 Hok Hmax Hk Hv Hpr Hl)
      as (_ & _ & _ & Hcap').
    destruct (set_body_balance fuel t k v h Hok Hmax Hk Hv Hh)
      as (t2 & h2 & Hset2 & Hbal).
    rewrite Hset in Hset2. injection Hset2 as <- <-.
    unfold step, x_hashtable_set in Hstep.
    unfold bind at 1 in Hstep. unfold bind at 1 in Hstep.
    rewrite Hset in Hstep. injection Hstep as <- <-.
    split; [assumption|]. destruct Hcap' as [?|[? _]]; auto.
  - destruct (x_hashtable_get_ok t k out Hok Hop) as (i & found & _ & _ & Hget).
    assert (Hg : exists r, x_hashtable_get (Some t) k out = Ok r).
    { destruct found; [destruct Hget as (e & _ & ->)|rewrite Hget]; eauto. }
    destruct Hg as (r & Hg).
    unfold step, bind, lift in Hstep. rewrite Hg in Hstep.
    injection Hstep as <- <-. auto.
  - destruct (x_hashtable_has_ok t k Hok) as (i & found & _ & _ & Hhas).
    unfold step, bind, lift in Hstep. rewrite Hhas in Hstep.
    injection Hstep as <- <-. auto.
  - destruct (x_hashtable_remove_cases t k h Hok) as (i & found & Hrun & Hst & _ & Hrm).
    destruct found.
    + destruct (x_hashtable_remove_found t k h i Hok Hrun) as (e & He & _ & Hrm').
      unfold step in Hstep. unfold bind at 1 in Hstep. rewrite Hrm' in Hstep.
      injection Hstep as <- <-.
      destruct (probe_found_slot _ _ _ _ Hst) as (e' & He' & Ho & _).
      assert (e' = e) by congruence. subst e'.
      destruct Hok as (_ & _ & _ & _ & Hent).
      eapply Forall_lookup_1 in Hent; [|exact He].
      destruct (entry_blocks t e Hent Ho) as (bk & bv & Hbk & Hbv).
      split; [|left; reflexivity].
      unfold unaccounted. cbn. rewrite Hbk, Hbv. lia.
    + unfold step in Hstep. unfold bind at 1 in Hstep. rewrite Hrm in Hstep.
      injection Hstep as <- <-. auto.
Qed.

Lemma run_balance fuel ops :
  forall t h m,
    sized m t -> 0 <= m -> m + Z.of_nat (length ops) <= MAX_OPS ->
    Forall (op_ok (key_size t) (value_size t)) ops ->
    allocations_succeed h ->
    exists t' h',
      run (S (S fuel)) (Some t) ops h = Ok (Some t', h') /\
      table_ok t' /\ same_params t t' /\
      unaccounted t' h' = unaccounted t h /\
      exists r, (r <= length ops)%nat /\
                capacity t' = capacity t * 2 ^ Z.of_nat r.
Proof.
  induction ops as [|o ops IH]; intros t h m Hsz Hm Hlen Hops Hh.
  - exists t, h. simpl. unfold ret.
    split; [reflexivity|]. split; [apply Hsz|].
    split; [apply same_params_refl|]. split; [reflexivity|].
    exists 0%nat. split; [lia|]. simpl. lia.
  - simpl length in *. apply Forall_cons_1 in Hops as [Ho Hops].
    destruct (step_ok fuel t o h m Hsz ltac:(lia) Ho Hh)
      as (t1 & h1 & Hstep & Hh1 & Hsz1 & Hp1).
    destruct (step_balance fuel t o h m t1 h1 Hsz ltac:(lia) Ho Hh Hstep)
      as (Hbal1 & Hcap1).
    pose proof Hp1 as (Hpk & Hpv & _).
    destruct (IH t1 h1 (m + 1) Hsz1 ltac:(lia) ltac:(lia))
      as (t' & h' & Hrun & Hok' & Hp' & Hbal' & r & Hr & Hcap');
      [rewrite Hpk, Hpv; assumption|assumption|].
    exists t', h'. split.
    { cbn [run]. erewrite bind_Ok by exact Hstep. exact Hrun. }
    split; [assumption|]. split; [eapply same_params_trans; eauto|].
    split; [lia|].
    destruct Hcap1 as [Hc|Hc].
    + exists r. split; [lia|]. rewrite Hcap', Hc. reflexivity.
    + exists (S r). split; [lia|]. rewrite Hcap', Hc.
      rewrite Nat2Z.inj_succ, Z.pow_succ_r by lia. lia.
Qed.



Lemma x_hashtable_create_ex_heap ks vs hf ef a h :
  allocations_succeed h ->
  x_hashtable_create_ex ks vs hf ef a h
  = Ok (Some (empty_table ks vs hf ef a),
        after_alloc a (INITIAL_CAPACITY * sizeof_XHashEntry)
          (after_alloc a sizeof_XHashtable h)).
Proof.
  intros Hh. unfold x_hashtable_create_ex.
  erewrite bind_Ok by (apply stdx_alloc_ok; assumption).
  assert (Hal : alloc_entries a INITIAL_CAPACITY
                  (after_alloc a sizeof_XHashtable h)
                = Ok (replicate (Z.to_nat INITIAL_CAPACITY) null_entry,
                      after_alloc a (INITIAL_CAPACITY * sizeof_XHashEntry)
                        (after_alloc a sizeof_XHashtable h))).
  { apply alloc_entries_heap.
    - apply allocations_succeed_tail. assumption.
    - unfold INITIAL_CAPACITY, MAX_CAPACITY. lia. }
  cbv iota. erewrite bind_Ok by exact Hal. reflexivity.
Qed.

Lemma empty_table_sized ks vs hf ef a : sized 0 (empty_table ks vs hf ef a).
Proof.
  unfold sized. split; [apply empty_table_ok|]. cbn.
  unfold INITIAL_CAPACITY. lia.
Qed.

(** The table after [create] and a run of operations, with what the run
    did to the heap and to the capacity. *)
Lemma create_then_run_balance ks vs hf ef a fuel ops h :
  allocations_succeed h -> Forall (op_ok ks vs) ops ->
  Z.of_nat (length ops) <= MAX_OPS ->
  exists t h',
    create_then_run ks vs hf ef a (S (S fuel)) ops h = Ok (Some t, h') /\
    table_ok t /\
    outstanding (trace h') = outstanding (trace h) + 2 * count t + 2 /\
    exists r, (r <= length ops)%nat /\
              capacity t = INITIAL_CAPACITY * 2 ^ Z.of_nat r.
Proof.
  intros Hh Hops Hlen.
  pose proof (x_hashtable_create_ex_heap ks vs hf ef a h Hh) as Hcr.
  destruct (run_balance fuel ops (empty_table ks vs hf ef a)
              (after_alloc a (INITIAL_CAPACITY * sizeof_XHashEntry)
                 (after_alloc a sizeof_XHashtable h)) 0)
    as (t & h' & Hrun & Hok & _ & Hbal & r & Hr & Hcap).
  - apply empty_table_sized.
  - lia.
  - lia.
  - exact Hops.
  - do 2 apply allocations_succeed_tail. assumption.
  - exists t, h'. split.
    { unfold create_then_run. erewrite bind_Ok by exact Hcr. exact Hrun. }
    split; [assumption|]. split.
    + unfold unaccounted in Hbal. cbn in Hbal. lia.
    + exists r. split; [assumption|]. exact Hcap.
Qed.



(** X13: the capacity only doubles: after [create] and any run of operations
    it is 16 times a power of two, with at most one doubling for each
    operation of the run. *)
Theorem x_hashtable_capacity_doubles (ks vs : Z) (hf : HashFn) (ef : EqualsFn)
    (a : XAllocator_ref) (fuel : nat) (ops : list op) (h : heap)
    (Hheap : allocations_succeed h)
    (Hops : Forall (op_ok ks vs) ops)
    (Hlen : Z.of_nat (length ops) <= MAX_OPS) :
  exists t h' r,
    create_then_run ks vs hf ef a (S (S fuel)) ops h = Ok (Some t, h') /\
    (r <= length ops)%nat /\
    capacity t = INITIAL_CAPACITY * 2 ^ Z.of_nat r.
Proof.
  destruct (create_then_run_balance ks vs hf ef a fuel ops h Hheap Hops Hlen)
    as (t & h' & Hrun & _ & _ & r & Hr & Hcap).
  exists t, h', r. auto.
Qed.

Lemma x_hashtable_capacity_doubles_witness :
  exists t h' r,
    create_then_run 1 1 byte_hash ptr_eqb None 2 twice_stored_ops fresh_heap
    = Ok (Some t, h') /\
    (r <= length twice_stored_ops)%nat /\
    capacity t = INITIAL_CAPACITY * 2 ^ Z.of_nat r.
Proof.
  apply (x_hashtable_capacity_doubles 1 1 byte_hash ptr_eqb None 0
           twice_stored_ops fresh_heap).
  - apply fresh_heap_succeeds.
  - apply twice_stored_ops_ok.
  - vm_compute. discriminate.
Defined.


(** *** The iterator *)

Lemma stored_length es : Z.of_nat (length (stored es)) = occupied_slots es.
Proof.
  induction es as [|e es IH]; [reflexivity|].
  simpl. destruct (occupied e); simpl length; lia.
Qed.

Lemma stored_first es :
  stored es
  = match first_occupied es with
    | Some (j, e) => (key e, value e) :: stored (drop (S j) es)
    | None => []
    end.
Proof.
  induction es as [|e es IH]; [reflexivity|].
  simpl. destruct (occupied e); [rewrite drop_0; reflexivity|].
  rewrite IH. destruct (first_occupied es) as [[j x]|]; reflexivity.
Qed.

Lemma first_occupied_Some es j e :
  first_occupied es = Some (j, e) ->
  es !! j = Some e /\ occupied e = true /\
  forall i x, (i < j)%nat -> es !! i = Some x -> occupied x = false.
Proof.
  revert j. induction es as [|x0 es IH]; intros j; [discriminate|].
  simpl. destruct (occupied x0) eqn:Ho.
  - intros [= <- <-]. split; [reflexivity|]. split; [assumption|]. lia.
  - destruct (first_occupied es) as [[j' x']|]; [|discriminate].
    intros [= <- <-]. destruct (IH j' eq_refl) as (Hl & Hoc & Hbefore).
    split; [assumption|]. split; [assumption|].
    intros [|i] x Hi; simpl.
    + intros [= <-]. assumption.
    + apply Hbefore. lia.
Qed.

Lemma first_occupied_None es :
  first_occupied es = None -> Forall (fun e => occupied e = false) es.
Proof.
  induction es as [|x0 es IH]; [constructor|].
  simpl. destruct (occupied x0) eqn:Ho; [discriminate|].
  destruct (first_occupied es) as [[j' x']|]; [discriminate|].
  intros _. constructor; auto.
Qed.

(** One call of [x_hashtable_iter_next], from index [i]. *)
Lemma x_hashtable_iter_next_from t ok ov :
  length (entries t) = Z.to_nat (capacity t) -> is_size_t (capacity t) ->
  forall fuel i,
    (i <= Z.to_nat (capacity t))%nat ->
    (Z.to_nat (capacity t) - i < fuel)%nat ->
    x_hashtable_iter_next fuel ok ov {| table := Some t; index := Z.of_nat i |}
    = match first_occupied (drop i (entries t)) with
      | Some (j, e) =>
          Ok ((true, (write_out ok (key e), write_out ov (value e))),
              {| table := Some t; index := Z.of_nat (i + j + 1) |})
      | None =>
          Ok ((false, (ok, ov)), {| table := Some t; index := capacity t |})
      end.
Proof.
  intros Hlen Hcap. induction fuel as [|fuel IH]; intros i Hi Hfuel; [lia|].
  cbn [x_hashtable_iter_next table index].
  destruct (Z.ltb_spec (Z.of_nat i) (capacity t)) as [Hlt|Hge].
  - destruct (lookup_lt_is_Some_2 (entries t) i ltac:(lia)) as [e He].
    unfold entry_at. rewrite Nat2Z.id, He.
    rewrite (drop_S _ _ _ He). cbn [first_occupied].
    rewrite size_wrap_small by (unfold is_size_t in *; lia).
    destruct (occupied e) eqn:Ho.
    + replace (i + 0 + 1)%nat with (S i) by lia.
      replace (Z.of_nat i + 1) with (Z.of_nat (S i)) by lia. reflexivity.
    + replace (Z.of_nat i + 1) with (Z.of_nat (S i)) by lia.
      rewrite IH by lia.
      destruct (first_occupied (drop (S i) (entries t))) as [[j x]|];
        [|reflexivity].
      replace (S i + j + 1)%nat with (i + S j + 1)%nat by lia. reflexivity.
  - replace i with (length (entries t)) by lia.
    rewrite drop_all. simpl. rewrite Hlen, Z2Nat.id by (unfold is_size_t in *; lia).
    reflexivity.
Qed.

(** X14: a call of [x_hashtable_iter_next] returns true for the first occupied
    slot at or after the index, hands out its key and its value through
    the out parameters that are not null, and leaves the index just after
    that slot; when no occupied slot is left it returns false, writes
    nothing and leaves the index at the capacity. *)
Theorem x_hashtable_iter_next_finds (t : XHashtable) (i : Z) (fuel : nat)
    (ok ov : option pointer)
    (Hlen : length (entries t) = Z.to_nat (capacity t))
    (Hcap : is_size_t (capacity t))
    (Hi : 0 <= i <= capacity t)
    (Hfuel : capacity t - i < Z.of_nat fuel) :
  x_hashtable_iter_next fuel ok ov {| table := Some t; index := i |}
  = match first_occupied (drop (Z.to_nat i) (entries t)) with
    | Some (j, e) =>
        Ok ((true, (write_out ok (key e), write_out ov (value e))),
            {| table := Some t; index := i + Z.of_nat j + 1 |})
    | None =>
        Ok ((false, (ok, ov)), {| table := Some t; index := capacity t |})
    end.
Proof.
  pose proof (x_hashtable_iter_next_from t ok ov Hlen Hcap fuel (Z.to_nat i)
                ltac:(lia) ltac:(lia)) as H.
  rewrite Z2Nat.id in H by lia. rewrite H.
  destruct (first_occupied (drop (Z.to_nat i) (entries t))) as [[j e]|];
    [|reflexivity].
  do 3 f_equal. lia.
Qed.

Lemma x_hashtable_iter_next_finds_witness :
  x_hashtable_iter_next 17 (Some None) None
    {| table := Some two_key_table; index := 2 |}
  = Ok ((true, (Some (key_of x05), None)),
        {| table := Some two_key_table; index := 6 |}).
Proof.
  rewrite (x_hashtable_iter_next_finds two_key_table 2 17 (Some None) None).
  - reflexivity.
  - reflexivity.
  - vm_compute. split; [discriminate|reflexivity].
  - vm_compute. split; discriminate.
  - vm_compute. reflexivity.
Defined.

Lemma iterate_from t :
  length (entries t) = Z.to_nat (capacity t) -> is_size_t (capacity t) ->
  forall fuel, (Z.to_nat (capacity t) < fuel)%nat ->
  forall calls i k0 v0,
    (i <= Z.to_nat (capacity t))%nat ->
    occupied_slots (drop i (entries t)) < Z.of_nat calls ->
    iterate calls fuel k0 v0 {| table := Some t; index := Z.of_nat i |}
    = Ok (stored (drop i (entries t)),
          {| table := Some t; index := capacity t |}).
Proof.
  intros Hlen Hcap fuel Hfuel.
  induction calls as [|calls IH]; intros i k0 v0 Hi Hcalls.
  { pose proof (occupied_slots_range (drop i (entries t))). lia. }
  cbn [iterate].
  rewrite (x_hashtable_iter_next_from t (Some k0) (Some v0) Hlen Hcap fuel i)
    by lia.
  rewrite stored_first.
  destruct (first_occupied (drop i (entries t))) as [[j e]|] eqn:Hf;
    [|reflexivity].
  cbn [write_out].
  destruct (first_occupied_Some _ _ _ Hf) as (Hj & Ho & Hbefore).
  rewrite lookup_drop in Hj. apply lookup_lt_Some in Hj as Hjlt.
  rewrite drop_drop.
  replace (i + S j)%nat with (i + j + 1)%nat by lia.
  rewrite IH; [reflexivity|lia|].
  assert (Hsplit : occupied_slots (drop i (entries t))
                   = 1 + occupied_slots (drop (i + j + 1) (entries t))).
  { pose proof (stored_length (drop i (entries t))) as H1.
    rewrite stored_first, Hf in H1. rewrite drop_drop in H1.
    replace (i + S j)%nat with (i + j + 1)%nat in H1 by lia.
    rewrite <- (stored_length (drop (i + j + 1) (entries t))).
    simpl length in H1. lia. }
  lia.
Qed.

(** X15: the caller's loop over a fresh iterator hands out the key and the
    value of every occupied slot, each once, in slot order, and stops
    with the index at the capacity; on a table that satisfies the
    invariant these are [count] pairs, and every later call returns
    false and changes nothing. *)
Theorem x_hashtable_iteration_complete (t : XHashtable) (calls fuel : nat)
    (k0 v0 : pointer) (it0 : XHashIter)
    (Hok : table_ok t)
    (Hcalls : count t < Z.of_nat calls)
    (Hfuel : capacity t < Z.of_nat fuel) :
  let done := {| table := Some t; index := capacity t |} in
  bind (x_hashtable_iter_init (Some t)) (fun _ => iterate calls fuel k0 v0) it0
  = Ok (stored (entries t), done) /\
  Z.of_nat (length (stored (entries t))) = x_hashtable_count (Some t) /\
  forall ok ov, x_hashtable_iter_next fuel ok ov done = Ok ((false, (ok, ov)), done).
Proof.
  intros done. destruct Hok as (Hcap & Hlen & Hcnt & _).
  assert (Hsz : is_size_t (capacity t))
    by (unfold is_size_t, SIZE_MODULUS, INITIAL_CAPACITY, MAX_CAPACITY in *; lia).
  unfold INITIAL_CAPACITY in Hcap.
  split; [|split].
  - unfold bind, x_hashtable_iter_init.
    change 0 with (Z.of_nat 0).
    rewrite (iterate_from t Hlen Hsz fuel ltac:(lia) calls 0%nat k0 v0);
      [rewrite drop_0; reflexivity|lia|rewrite drop_0; lia].
  - rewrite stored_length. simpl. auto.
  - intros ok ov. unfold done.
    pose proof (x_hashtable_iter_next_from t ok ov Hlen Hsz fuel
                  (Z.to_nat (capacity t)) ltac:(lia) ltac:(lia)) as H.
    rewrite Z2Nat.id in H by lia. rewrite H.
    rewrite <- Hlen, drop_all. reflexivity.
Qed.

Lemma two_key_table_ok : table_ok two_key_table.
Proof.
  unfold table_ok. split; [vm_compute; split; discriminate|].
  split; [reflexivity|]. split; [reflexivity|].
  split; [vm_compute; reflexivity|].
  apply Forall_lookup_2. intros i e He Ho.
  do 16 (destruct i as [|i];
         [injection He as <-;
          first [discriminate Ho
                | split; eexists; (split; reflexivity)]|]).
  discriminate He.
Qed.

Lemma x_hashtable_iteration_complete_witness :
  bind (x_hashtable_iter_init (Some two_key_table))
       (fun _ => iterate 3 17 None None) {| table := None; index := 0 |}
  = Ok ([(k1, va); (key_of x05, vb)],
        {| table := Some two_key_table; index := 16 |}).
Proof.
  apply (x_hashtable_iteration_complete two_key_table 3 17 None None
           {| table := None; index := 0 |}).
  - apply two_key_table_ok.
  - vm_compute. reflexivity.
  - vm_compute. reflexivity.
Defined.

Lemma stored_elem es k v :
  (k, v) ∈ stored es <->
  exists i e, es !! i = Some e /\ occupied e = true /\
              key e = k /\ value e = v.
Proof.
  induction es as [|e0 es IH]; simpl.
  - split; [intros H; inversion H|intros (i & e & H & _); discriminate].
  - destruct (occupied e0) eqn:Ho.
    + rewrite elem_of_cons, IH. split.
      * intros [[= -> ->]|(i & e & He & ?)].
        -- exists 0%nat, e0. auto.
        -- exists (S i), e. auto.
      * intros ([|i] & e & He & Hoe & Hk & Hv); simpl in He.
        -- injection He as <-. left. congruence.
        -- right. eauto 6.
    + rewrite IH. split.
      * intros (i & e & He & ?). exists (S i), e. auto.
      * intros ([|i] & e & He & Hoe & Hk & Hv); simpl in He.
        -- injection He as <-. congruence.
        -- eauto 6.
Qed.

(** X16: after [create] and a run of [set] calls, an iteration hands out one
    pair for each of the keys set, equal keys counted once, and the value
    in the pair of a key is the last value set for it. *)
Theorem x_hashtable_iteration_after_sets (ks vs : Z) (hf : HashFn)
    (ef : EqualsFn) (a : XAllocator_ref) (fuel calls ifuel : nat)
    (kvs : list (pointer * pointer)) (h : heap) (k0 v0 : pointer)
    (it0 : XHashIter)
    (Hcons : consistent hf ef)
    (Hheap : allocations_succeed h)
    (Hkvs : Forall (kv_ok ks vs) kvs)
    (Hlen : Z.of_nat (length kvs) <= MAX_OPS)
    (Hcalls : (length kvs < calls)%nat)
    (Hfuel : Z.max 16 (3 * Z.of_nat (length kvs)) < Z.of_nat ifuel) :
  exists t h' pairs,
    create_then_run ks vs hf ef a (S (S fuel)) (sets kvs) h = Ok (Some t, h') /\
    bind (x_hashtable_iter_init (Some t))
         (fun _ => iterate calls ifuel k0 v0) it0
    = Ok (pairs, {| table := Some t; index := capacity t |}) /\
    Z.of_nat (length pairs) = count_keys ef (rev kvs) /\
    forall k v,
      last_set ef (rev kvs) k = Some v <->
      exists k', (k', v) ∈ pairs /\ ef k k' = true.
Proof.
  destruct (x_hashtable_create_ex_ok ks vs hf ef a h Hheap) as (h0 & Hcr & Hh0).
  destruct (run_sets_strong ks vs hf ef a fuel kvs Hcons Hkvs Hlen h0 Hh0)
    as (t & h' & Hrun & _ & Hst & Hsz & Hp & Hholds & Hcnt).
  destruct Hsz as (Hok & Hcm & Hcapm).
  pose proof Hok as (Hcap & Hlent & Hcount & _).
  destruct Hp as (_ & _ & _ & Heq & _). cbn in Heq.
  assert (Hsize : is_size_t (capacity t))
    by (unfold is_size_t, SIZE_MODULUS, INITIAL_CAPACITY, MAX_CAPACITY in *; lia).
  unfold INITIAL_CAPACITY in Hcap.
  exists t, h', (stored (entries t)). split.
  { unfold create_then_run. erewrite bind_Ok by exact Hcr. exact Hrun. }
  split.
  { unfold bind, x_hashtable_iter_init. change 0 with (Z.of_nat 0).
    rewrite (iterate_from t Hlent Hsize ifuel ltac:(lia) calls 0%nat k0 v0);
      [rewrite drop_0; reflexivity|lia|rewrite drop_0; lia]. }
  split; [rewrite stored_length; lia|].
  intros k v. rewrite <- Hholds. unfold holds. split.
  - intros (i & e & He & Ho & Hk & Hv). exists (key e). rewrite <- Heq.
    split; [|assumption]. apply stored_elem. eauto 6.
  - intros (k' & Hin & Hk). apply stored_elem in Hin as (i & e & He & Ho & <- & <-).
    exists i, e. rewrite Heq. auto.
Qed.

Lemma x_hashtable_iteration_after_sets_witness :
  exists t h' pairs,
    create_then_run 1 1 byte_hash ptr_eqb None 2 (sets crossing_sets) fresh_heap
    = Ok (Some t, h') /\
    bind (x_hashtable_iter_init (Some t))
         (fun _ => iterate 16 46 None None) {| table := None; index := 0 |}
    = Ok (pairs, {| table := Some t; index := capacity t |}) /\
    Z.of_nat (length pairs) = count_keys ptr_eqb (rev crossing_sets) /\
    forall k v,
      last_set ptr_eqb (rev crossing_sets) k = Some v <->
      exists k', (k', v) ∈ pairs /\ ptr_eqb k k' = true.
Proof.
  apply (x_hashtable_iteration_after_sets 1 1 byte_hash ptr_eqb None 0 16 46
           crossing_sets fresh_heap None None {| table := None; index := 0 |}).
  - apply byte_functions_consistent.
  - apply fresh_heap_succeeds.
  - apply crossing_sets_ok.
  - vm_compute. discriminate.
  - vm_compute. lia.
  - vm_compute. reflexivity.
Defined.

(** *** The helpers for string keys *)

Lemma hash_step h c :
  size_wrap (size_wrap (size_wrap (Z.shiftl (h mod SIZE_MODULUS) 5)
                        + h mod SIZE_MODULUS) + c)
  = (h * 33 + c) mod SIZE_MODULUS.
Proof.
  unfold size_wrap. rewrite Z.shiftl_mul_pow2 by lia.
  change (2 ^ 5) with 32.
  set (hm := h mod SIZE_MODULUS).
  rewrite (Zplus_mod_idemp_l ((hm * 32) mod SIZE_MODULUS + hm) c).
  replace ((hm * 32) mod SIZE_MODULUS + hm + c)
    with ((hm * 32) mod SIZE_MODULUS + (hm + c)) by lia.
  rewrite Zplus_mod_idemp_l.
  replace (hm * 32 + (hm + c)) with (hm * 33 + c) by lia.
  rewrite <- Zplus_mod_idemp_l. unfold hm.
  rewrite Zmult_mod_idemp_l, Zplus_mod_idemp_l. reflexivity.
Qed.

Lemma hash_str_loop_djb2 b :
  forall h,
    hash_str_loop b (h mod SIZE_MODULUS)
    = match c_string b with
      | Some s => Ok (djb2 s h mod SIZE_MODULUS)
      | None => Fault
      end.
Proof.
  induction b as [|c b IH]; intros h; [reflexivity|].
  simpl. destruct (bool_decide (c = x00)); [reflexivity|].
  rewrite hash_step, IH.
  destruct (c_string b) as [s|]; reflexivity.
Qed.

(** X17: [stdx_hash_str] returns the hash of Bernstein of the string in the
    object, modulo [2^64]: the wrap-around of each step changes nothing.
    The bytes after the terminating zero do not count; on an object
    without a zero byte, as on a null pointer, the behaviour is
    undefined. *)
Theorem stdx_hash_str_djb2 (b : block) :
  stdx_hash_str None = Fault /\
  stdx_hash_str (Some b)
  = match c_string b with
    | Some s => Ok (djb2 s 5381 mod SIZE_MODULUS)
    | None => Fault
    end.
Proof.
  split; [reflexivity|].
  unfold stdx_hash_str.
  change 5381 with (5381 mod SIZE_MODULUS) at 1.
  apply hash_str_loop_djb2.
Qed.

Lemma byte_to_N_inj c1 c2 : Byte.to_N c1 = Byte.to_N c2 -> c1 = c2.
Proof.
  intros H. apply (f_equal Byte.of_N) in H.
  rewrite !Byte.of_to_N in H. congruence.
Qed.

Lemma strcmp_strings a :
  forall b sa sb,
    c_string a = Some sa -> c_string b = Some sb ->
    exists c, strcmp a b = Ok c /\ (c = Eq <-> sa = sb).
Proof.
  induction a as [|ca a IH]; intros b sa sb Ha Hb; [discriminate|].
  destruct b as [|cb b]; [discriminate|].
  simpl in Ha, Hb. simpl.
  destruct (N.compare_spec (Byte.to_N ca) (Byte.to_N cb)) as [Heq|Hlt|Hgt].
  - apply byte_to_N_inj in Heq. subst cb.
    destruct (bool_decide (ca = x00)) eqn:Hz.
    + injection Ha as <-. injection Hb as <-. exists Eq. tauto.
    + destruct (c_string a) as [sa'|] eqn:Ha'; [|discriminate].
      destruct (c_string b) as [sb'|] eqn:Hb'; [|discriminate].
      injection Ha as <-. injection Hb as <-.
      destruct (IH b sa' sb' eq_refl Hb') as (c & Hc & Hiff).
      exists c. split; [assumption|]. rewrite Hiff.
      split; [intros ->; reflexivity|intros [= ->]; reflexivity].
  - exists Lt. split; [reflexivity|]. split; [discriminate|].
    intros ->. exfalso.
    destruct (bool_decide (ca = x00)) eqn:Hza,
             (bool_decide (cb = x00)) eqn:Hzb.
    + apply bool_decide_eq_true_1 in Hza, Hzb. subst. lia.
    + destruct (c_string b); [|discriminate]. congruence.
    + destruct (c_string a); [|discriminate]. congruence.
    + destruct (c_string a); [|discriminate].
      destruct (c_string b); [|discriminate].
      assert (ca = cb) by congruence. subst. lia.
  - exists Gt. split; [reflexivity|]. split; [discriminate|].
    intros ->. exfalso.
    destruct (bool_decide (ca = x00)) eqn:Hza,
             (bool_decide (cb = x00)) eqn:Hzb.
    + apply bool_decide_eq_true_1 in Hza, Hzb. subst. lia.
    + destruct (c_string b); [|discriminate]. congruence.
    + destruct (c_string a); [|discriminate]. congruence.
    + destruct (c_string a); [|discriminate].
      destruct (c_string b); [|discriminate].
      assert (ca = cb) by congruence. subst. lia.
Qed.

(** X18: on two objects that hold strings, [stdx_str_eq] returns whether the
    strings are the same, whatever follows their terminating zeros, and
    [stdx_hash_str] gives equal strings the same hash: the two helpers
    meet what the table asks of its hash and equality functions. *)
Theorem stdx_str_eq_strings (a b sa sb : block)
    (Ha : c_string a = Some sa) (Hb : c_string b = Some sb) :
  stdx_str_eq (Some a) (Some b) = Ok (bool_decide (sa = sb)) /\
  (stdx_str_eq (Some a) (Some b) = Ok true ->
   stdx_hash_str (Some a) = stdx_hash_str (Some b)).
Proof.
  destruct (strcmp_strings a b sa sb Ha Hb) as (c & Hc & Hiff).
  assert (Heq : stdx_str_eq (Some a) (Some b) = Ok (bool_decide (sa = sb))).
  { unfold stdx_str_eq, rbind. rewrite Hc. f_equal.
    destruct (decide (sa = sb)) as [Hs|Hs].
    - rewrite (proj2 Hiff Hs). symmetry. apply bool_decide_eq_true_2. assumption.
    - rewrite bool_decide_eq_false_2 by assumption.
      destruct c; [exfalso; apply Hs, Hiff; reflexivity|reflexivity|reflexivity]. }
  split; [assumption|].
  rewrite Heq. intros [= Hs]. apply bool_decide_eq_true_1 in Hs. subst sb.
  unfold stdx_hash_str.
  change 5381 with (5381 mod SIZE_MODULUS).
  rewrite !hash_str_loop_djb2, Ha, Hb. reflexivity.
Qed.

Lemma stdx_str_eq_strings_witness :
  stdx_str_eq (Some str_ab) (Some str_ab_more) = Ok true /\
  stdx_hash_str (Some str_ab) = stdx_hash_str (Some str_ab_more).
Proof.
  destruct (stdx_str_eq_strings str_ab str_ab_more [x61; x62] [x61; x62]
              eq_refl eq_refl) as [Heq Hhash].
  split; [exact Heq|]. apply Hhash. exact Heq.
Defined.

End HashtableProperties.
